(** * Subtitle engine of the Tizen client: a shallow embedding of
    [SubtitleManager] (timestamp parser, cue extractor, appearance resolver,
    playback overlay, track loader) and the properties settled against it.

    Conventions of the embedding.
    - A JavaScript string is a [string]: a sequence of code units, here the
      code units 0..255.
    - A JavaScript number is a [float] (IEEE 754 binary64, round to nearest
      even): the kernel's primitive floats compute exactly what the engine's
      arithmetic computes.
    - A method is a function on [World]: the instance fields, the host
      environment the code reads, and a trace of what the code emits.  An
      exception does not roll the fields back, so a completion carries the
      world reached when it was thrown.
    - The two DOM nodes are records of the properties the engine writes; a
      style property holds the last value assigned to it (the validation a
      browser applies to a style value is outside the engine).  The player
      container is a node, as the constructor requires.
    - A settings object holds the four fields the engine reads, each absent
      or a string; the size given by a configuration indexes the [sizes]
      object, which has five keys of its own and inherits the members of
      [Object.prototype].

    Two neighbours of the engine are embedded after it: [cycleOption] and
    [getLabel] of the subtitle settings overlay, and the multi-server
    manager, whose reading functions are functions of the values read and
    whose writing functions run on any store that keeps what is saved. *)

From Stdlib Require Import ZArith List String Ascii Bool Lia Floats DecimalString.
Import ListNotations.

Local Open Scope string_scope.

(** ** Completions *)

Inductive JsError : Type :=
| TypeError (msg : string).

Inductive Completion (A : Type) : Type :=
| Normal (a : A)
| Throw (e : JsError).

Arguments Normal {A} a.
Arguments Throw {A} e.

Definition is_normal {A : Type} (c : Completion A) : bool :=
  match c with Normal _ => true | Throw _ => false end.

(** ** Strings: the built-ins the engine calls *)

Module JsString.

Definition code (c : ascii) : nat := nat_of_ascii c.

(** [\d] *)
Definition is_digit (c : ascii) : bool :=
  (48 <=? code c)%nat && (code c <=? 57)%nat.

(** WhiteSpace and LineTerminator code units below 256: what [\s],
    [trim] and the numeric parsers skip. *)
Definition is_space (c : ascii) : bool :=
  ((9 <=? code c)%nat && (code c <=? 13)%nat)
  || (code c =? 32)%nat || (code c =? 160)%nat.

Definition LF : ascii := ascii_of_nat 10.
Definition CR : ascii := ascii_of_nat 13.

Definition is_newline (c : ascii) : bool := (code c =? 10)%nat.

Definition digit_value (c : ascii) : Z := Z.of_nat (code c) - 48.

Fixpoint trimStart (s : string) : string :=
  match s with
  | String c r => if is_space c then trimStart r else s
  | EmptyString => EmptyString
  end.

(** [trimEnd s]: drop the trailing run of white space. *)
Fixpoint trimEnd (s : string) : string :=
  match s with
  | EmptyString => EmptyString
  | String c r =>
      match trimEnd r with
      | EmptyString => if is_space c then EmptyString else String c EmptyString
      | r' => String c r'
      end
  end.

Definition trim (s : string) : string := trimEnd (trimStart s).

(** [s.replace(a, b)] with one-character strings: the first occurrence
    only. *)
Fixpoint replaceFirst (a b : ascii) (s : string) : string :=
  match s with
  | EmptyString => EmptyString
  | String c r =>
      if Ascii.eqb c a then String b r else String c (replaceFirst a b r)
  end.

(** [s.split(sep)] with a one-character separator: never the empty list. *)
Fixpoint split (sep : ascii) (s : string) : list string :=
  match s with
  | EmptyString => [EmptyString]
  | String c r =>
      if Ascii.eqb c sep then EmptyString :: split sep r
      else match split sep r with
           | p :: ps => String c p :: ps
           | [] => [String c EmptyString]
           end
  end.

(** [s.replace(/\n/g, by)] *)
Fixpoint replaceNewlines (by_ : string) (s : string) : string :=
  match s with
  | EmptyString => EmptyString
  | String c r =>
      if is_newline c then by_ ++ replaceNewlines by_ r
      else String c (replaceNewlines by_ r)
  end.

(** [s.replace(/\r\n/g, '\n')] *)
Fixpoint replaceCRLF (s : string) : string :=
  match s with
  | EmptyString => EmptyString
  | String c r =>
      match r with
      | String d r' =>
          if Ascii.eqb c CR && Ascii.eqb d LF
          then String LF (replaceCRLF r')
          else String c (replaceCRLF r)
      | EmptyString => s
      end
  end.

(** [s.replace(/\r/g, '\n')] *)
Fixpoint replaceCR (s : string) : string :=
  match s with
  | EmptyString => EmptyString
  | String c r =>
      String (if Ascii.eqb c CR then LF else c) (replaceCR r)
  end.

(** [toLowerCase] on the code units below 256: A-Z, and the Latin-1
    capitals 192..222 without the multiplication sign 215. *)
Definition lower_char (c : ascii) : ascii :=
  let n := code c in
  if ((65 <=? n)%nat && (n <=? 90)%nat)
     || ((192 <=? n)%nat && (n <=? 222)%nat && negb (n =? 215)%nat)
  then ascii_of_nat (n + 32) else c.

Fixpoint toLowerCase (s : string) : string :=
  match s with
  | EmptyString => EmptyString
  | String c r => String (lower_char c) (toLowerCase r)
  end.

(** The longest prefix of decimal digits, and what follows it. *)
Fixpoint spanDigits (s : string) : string * string :=
  match s with
  | String c r =>
      if is_digit c
      then let '(ds, rest) := spanDigits r in (String c ds, rest)
      else (EmptyString, s)
  | EmptyString => (EmptyString, EmptyString)
  end.

(** The value of a digit string, most significant digit first. *)
Fixpoint digitsValue (acc : Z) (s : string) : Z :=
  match s with
  | String c r => digitsValue (10 * acc + digit_value c) r
  | EmptyString => acc
  end.

Definition isEmpty (s : string) : bool :=
  match s with EmptyString => true | _ => false end.

(** [ToString(undefined)], what an absent array slot reads as when a
    built-in coerces it. *)
Definition ofSlot (o : option string) : string :=
  match o with Some s => s | None => "undefined" end.

End JsString.

(** ** Numbers: [parseInt(_, 10)] and [parseFloat] *)

Module JsNumber.
Import JsString.

Local Open Scope Z_scope.

(** The Number value of an integer: the nearest binary64. *)
Definition ofZ (z : Z) : float :=
  SF2Prim (binary_normalize prec emax z 0 false).

(** The Number value of [m * 10^e] for [0 <= m]: the nearest binary64,
    as one correctly rounded division when [e] is negative. *)
Definition ofDecimal (m e : Z) : float :=
  if m =? 0 then PrimFloat.zero
  else if 0 <=? e then ofZ (m * 10 ^ e)
  else SF2Prim (SFdiv prec emax
                  (S754_finite false (Z.to_pos m) 0)
                  (S754_finite false (Z.to_pos (10 ^ (- e))) 0)).

Definition withSign (neg : bool) (x : float) : float :=
  if neg then PrimFloat.opp x else x.

(** An optional leading sign. *)
Definition takeSign (s : string) : bool * string :=
  match s with
  | String "-" r => (true, r)
  | String "+" r => (false, r)
  | _ => (false, s)
  end.

(** [parseInt(s, 10)]: leading white space, a sign, then the longest run
    of digits; [NaN] when that run is empty. *)
Definition parseInt10 (s : string) : float :=
  let '(neg, body) := takeSign (trimStart s) in
  let '(ds, _) := spanDigits body in
  if isEmpty ds then PrimFloat.nan
  else withSign neg (ofZ (digitsValue 0 ds)).

(** The exponent part that follows a mantissa, if a complete one is
    there: [e] or [E], a sign, at least one digit. *)
Definition exponentPart (s : string) : Z :=
  match s with
  | String c r =>
      if (Ascii.eqb c "e" || Ascii.eqb c "E")%bool then
        let '(neg, body) := takeSign r in
        let '(ds, _) := spanDigits body in
        if isEmpty ds then 0
        else if neg then - digitsValue 0 ds else digitsValue 0 ds
      else 0
  | EmptyString => 0
  end.

(** [parseFloat(s)]: leading white space, a sign, then the longest
    prefix that is [Infinity] or a decimal literal; [NaN] when there is
    none. *)
Definition parseFloat (s : string) : float :=
  let '(neg, body) := takeSign (trimStart s) in
  if String.prefix "Infinity" body then withSign neg PrimFloat.infinity
  else
    let '(ip, r1) := spanDigits body in
    let '(fp, r2) :=
      match r1 with
      | String "." r => spanDigits r
      | _ => (EmptyString, r1)
      end in
    if (isEmpty ip && isEmpty fp)%bool then PrimFloat.nan
    else
      withSign neg
        (ofDecimal (digitsValue 0 (ip ++ fp))
                   (exponentPart r2 - Z.of_nat (String.length fp))).

End JsNumber.

(** ** Timestamp parser *)

(** The values [parseTime] can be handed. *)
Inductive JsValue : Type :=
| JUndefined
| JNull
| JStr (s : string)
| JNum (x : float).

(** [!v] *)
Definition falsy (v : JsValue) : bool :=
  match v with
  | JUndefined | JNull => true
  | JStr s => JsString.isEmpty s
  | JNum x => (PrimFloat.is_nan x || PrimFloat.is_zero x)%bool
  end.

(** The arithmetic of the last line of [parseTime]. *)
Definition timeValue (hours minutes seconds : float) : float :=
  ((hours * 3600 + minutes * 60 + seconds) * 1000)%float.

(** [parseTime] on a string that passed the guard. *)
Definition parseTimeString (timeString : string) : float :=
  let parts := JsString.split ":" (JsString.replaceFirst "," "." timeString) in
  let hours := JsNumber.parseInt10 (JsString.ofSlot (nth_error parts 0)) in
  let minutes := JsNumber.parseInt10 (JsString.ofSlot (nth_error parts 1)) in
  let seconds := JsNumber.parseFloat (JsString.ofSlot (nth_error parts 2)) in
  timeValue hours minutes seconds.

Definition parseTime (timeString : JsValue) : Completion float :=
  if falsy timeString then Normal 0%float
  else match timeString with
       | JStr s => Normal (parseTimeString s)
       | _ => Throw (TypeError "timeString.replace is not a function")
       end.

(** ** Cue extractor: the two patterns, matched the way [RegExp.exec] does *)

Module Pattern.
Import JsString.

(** [\d{n}] *)
Fixpoint digitsN (n : nat) (s : string) : option (string * string) :=
  match n with
  | O => Some (EmptyString, s)
  | S k =>
      match s with
      | String c r =>
          if is_digit c then
            match digitsN k r with
            | Some (ds, rest) => Some (String c ds, rest)
            | None => None
            end
          else None
      | EmptyString => None
      end
  end.

(** One literal character. *)
Definition lit (a : ascii) (s : string) : option string :=
  match s with
  | String c r => if Ascii.eqb c a then Some r else None
  | EmptyString => None
  end.

(** A literal string. *)
Fixpoint lits (p : string) (s : string) : option string :=
  match p with
  | EmptyString => Some s
  | String a p' =>
      match lit a s with
      | Some r => lits p' r
      | None => None
      end
  end.

(** [\d{2}:\d{2}:\d{2}<sep>\d{3}] : the text matched and what follows. *)
Definition timestamp (sep : ascii) (s : string) : option (string * string) :=
  match digitsN 2 s with
  | Some (hh, r1) =>
  match lit ":" r1 with
  | Some r2 =>
  match digitsN 2 r2 with
  | Some (mm, r3) =>
  match lit ":" r3 with
  | Some r4 =>
  match digitsN 2 r4 with
  | Some (ss, r5) =>
  match lit sep r5 with
  | Some r6 =>
  match digitsN 3 r6 with
  | Some (ms, r7) =>
      Some (hh ++ ":" ++ mm ++ ":" ++ ss ++ String sep ms, r7)
  | None => None end
  | None => None end
  | None => None end
  | None => None end
  | None => None end
  | None => None end
  | None => None end.

(** [\s+] before a character that is not white space: the whole run of
    white space, which must not be empty (a shorter run would leave white
    space where the next atom needs something else). *)
Definition spaces1 (s : string) : option string :=
  match s with
  | String c r => if is_space c then Some (trimStart r) else None
  | EmptyString => None
  end.

(** [[^\n]*\n] : up to and including the first line feed, which must be
    there. *)
Fixpoint restOfLine (s : string) : option string :=
  match s with
  | String c r => if is_newline c then Some r else restOfLine r
  | EmptyString => None
  end.

(** [(?=\n\n|\n$|$)], with [$] the end of input (no [m] flag). *)
Definition boundary (s : string) : bool :=
  match s with
  | EmptyString => true
  | String c EmptyString => is_newline c
  | String c (String d _) => is_newline c && is_newline d
  end.

(** [([\s\S]*?)(?=\n\n|\n$|$)] : the shortest text that ends at a
    boundary, and the input left at that boundary. *)
Fixpoint block (s : string) : string * string :=
  if boundary s then (EmptyString, s)
  else match s with
       | String c r => let '(t, rest) := block r in (String c t, rest)
       | EmptyString => (EmptyString, EmptyString)
       end.

(** What one match captures, and how many code units it spans. *)
Record Match : Type := {
  m_start : string;
  m_end : string;
  m_text : string;
  m_length : nat
}.

Definition span (s rest : string) : nat :=
  String.length s - String.length rest.

(** The VTT pattern anchored at the head of [s]. *)
Definition vttAt (s : string) : option Match :=
  match timestamp "." s with
  | Some (t1, r1) =>
  match spaces1 r1 with
  | Some r2 =>
  match lits "-->" r2 with
  | Some r3 =>
  match spaces1 r3 with
  | Some r4 =>
  match timestamp "." r4 with
  | Some (t2, r5) =>
  match restOfLine r5 with
  | Some r6 =>
      let '(txt, rest) := block r6 in
      Some {| m_start := t1; m_end := t2; m_text := txt;
              m_length := span s rest |}
  | None => None end
  | None => None end
  | None => None end
  | None => None end
  | None => None end
  | None => None end.

(** The SRT pattern anchored at the head of [s]: [(\d+)\n], the timing
    line with single blanks around the arrow, then the text block. *)
Definition srtAt (s : string) : option Match :=
  match spanDigits s with
  | (EmptyString, _) => None
  | (_, r0) =>
  match lit LF r0 with
  | Some r1 =>
  match timestamp "," r1 with
  | Some (t1, r2) =>
  match lits " --> " r2 with
  | Some r3 =>
  match timestamp "," r3 with
  | Some (t2, r4) =>
  match lit LF r4 with
  | Some r5 =>
      let '(txt, rest) := block r5 in
      Some {| m_start := t1; m_end := t2; m_text := txt;
              m_length := span s rest |}
  | None => None end
  | None => None end
  | None => None end
  | None => None end
  | None => None end
  end.

(** The [while ((match = pattern.exec(text)) !== null)] loop of a global
    pattern: [skip] code units are still inside the previous match; then
    the pattern is tried at each position in turn, and after a match the
    search resumes where the match ended. *)
Fixpoint execAll (at_ : string -> option Match) (skip : nat) (s : string)
  : list Match :=
  match skip with
  | S k =>
      match s with
      | String _ r => execAll at_ k r
      | EmptyString => []
      end
  | O =>
      match at_ s with
      | Some m =>
          m :: match s with
               | String _ r => execAll at_ (m_length m - 1) r
               | EmptyString => []
               end
      | None =>
          match s with
          | String _ r => execAll at_ 0 r
          | EmptyString => []
          end
      end
  end.

End Pattern.

(** ** Data model *)

(** A cue object.  [cue_ref] is the identity of the object ([===] compares
    references): each cue the extractor creates gets a fresh one. *)
Record Cue : Type := {
  cue_ref : nat;
  cue_start : float;
  cue_end : float;
  cue_text : string
}.

Definition same_object (a b : Cue) : bool := Nat.eqb (cue_ref a) (cue_ref b).

(** The settings object: the four fields the engine reads, each absent or
    a string. *)
Record Settings : Type := {
  subtitleSize : option string;
  subtitleColor : option string;
  subtitlePosition : option string;
  subtitleBackground : option string
}.

(** [{}] *)
Definition emptySettings : Settings :=
  {| subtitleSize := None; subtitleColor := None;
     subtitlePosition := None; subtitleBackground := None |}.

(** The outer node: the style properties the engine writes, and whether it
    is attached to the player container. *)
Record OverlayEl : Type := {
  o_display : string;
  o_top : string;
  o_bottom : string;
  o_left : string;
  o_right : string;
  o_justifyContent : string;
  o_parentNode : bool
}.

(** What the engine assigns to [fontSize]: a string of the [sizes] table
    or, for a key the table only inherits, that member of
    [Object.prototype] (a function or an object). *)
Inductive SizeValue : Type :=
| Css (s : string)
| Member (key : string).

(** The inner node: its markup, whether its class list holds [hide], and
    the style properties the engine writes (each the last value assigned). *)
Record InnerEl : Type := {
  i_innerHTML : string;
  i_hide : bool;
  i_fontSize : SizeValue;
  i_color : string;
  i_marginTop : string;
  i_marginBottom : string;
  i_textShadow : string;
  i_background : string
}.

(** The fields of a [SubtitleManager] instance (the container is the mount
    point handed to the constructor and never changes). *)
Record Manager : Type := {
  overlay : option OverlayEl;
  innerOverlay : option InnerEl;
  cues : list Cue;
  activeCue : option Cue;
  settings : Settings;
  isEnabled : bool
}.

Record Auth : Type := {
  serverAddress : string;
  accessToken : string
}.

Record Track : Type := {
  Codec : option string;
  Index : N
}.

Record Item : Type := { item_Id : string }.

Record MediaSource : Type := { source_Id : string }.

(** What [window.storage.getUserPreference('jellyfin_settings', null)] and
    [JSON.parse] come to. *)
Inductive StoredPreference : Type :=
| NoStorage                 (* [window.storage] is not there *)
| NoPreference              (* nothing stored *)
| Unparsable                (* [JSON.parse], or reading a field, throws *)
| Parsed (c : Settings).

(** What the engine reads from its host. *)
Record Host : Type := {
  storage : StoredPreference;
  storedAuth : option Auth;      (* [JellyfinAPI.getStoredAuth()] *)
  debugOverlay : bool            (* [window.debugOverlay] is there *)
}.

(** The [err] handed to the error callback: a string, or an object given by
    its JSON text. *)
Inductive FetchError : Type :=
| ErrText (s : string)
| ErrObject (json : string).

Inductive LogArg : Type :=
| ArgNone
| ArgText (s : string)
| ArgSettings (c : Settings)
| ArgFetchError (e : FetchError)
| ArgException.

(** What the engine emits. *)
Inductive Event : Type :=
| ConsoleLog (label : string) (arg : LogArg)
| ConsoleError (label : string) (arg : LogArg)
| DebugOverlayError (msg : string)
| AjaxGet (url : string)
| SetInnerHTML (html : string).

(** The instance in its surroundings.  [trace] has the latest event first;
    [pending] holds, per request in flight, the format its callbacks
    captured; [nextRef] is the next fresh object identity. *)
Record World : Type := {
  this : Manager;
  host : Host;
  trace : list Event;
  pending : list string;
  nextRef : nat
}.

(** ** Field updates *)

Definition set_overlay (v : option OverlayEl) (m : Manager) : Manager :=
  {| overlay := v; innerOverlay := innerOverlay m; cues := cues m;
     activeCue := activeCue m; settings := settings m;
     isEnabled := isEnabled m |}.

Definition set_innerOverlay (v : option InnerEl) (m : Manager) : Manager :=
  {| overlay := overlay m; innerOverlay := v; cues := cues m;
     activeCue := activeCue m; settings := settings m;
     isEnabled := isEnabled m |}.

Definition set_cues (v : list Cue) (m : Manager) : Manager :=
  {| overlay := overlay m; innerOverlay := innerOverlay m; cues := v;
     activeCue := activeCue m; settings := settings m;
     isEnabled := isEnabled m |}.

Definition set_activeCue (v : option Cue) (m : Manager) : Manager :=
  {| overlay := overlay m; innerOverlay := innerOverlay m; cues := cues m;
     activeCue := v; settings := settings m; isEnabled := isEnabled m |}.

Definition set_settings (v : Settings) (m : Manager) : Manager :=
  {| overlay := overlay m; innerOverlay := innerOverlay m; cues := cues m;
     activeCue := activeCue m; settings := v; isEnabled := isEnabled m |}.

Definition set_isEnabled (v : bool) (m : Manager) : Manager :=
  {| overlay := overlay m; innerOverlay := innerOverlay m; cues := cues m;
     activeCue := activeCue m; settings := settings m; isEnabled := v |}.

Definition with_this (f : Manager -> Manager) (w : World) : World :=
  {| this := f (this w); host := host w; trace := trace w;
     pending := pending w; nextRef := nextRef w |}.

Definition with_host (h : Host) (w : World) : World :=
  {| this := this w; host := h; trace := trace w;
     pending := pending w; nextRef := nextRef w |}.

Definition with_trace (f : list Event -> list Event) (w : World) : World :=
  {| this := this w; host := host w; trace := f (trace w);
     pending := pending w; nextRef := nextRef w |}.

Definition with_pending (f : list string -> list string) (w : World) : World :=
  {| this := this w; host := host w; trace := trace w;
     pending := f (pending w); nextRef := nextRef w |}.

Definition with_nextRef (n : nat) (w : World) : World :=
  {| this := this w; host := host w; trace := trace w;
     pending := pending w; nextRef := n |}.

(** ** The method monad: state that survives an exception *)

Definition M (A : Type) : Type := World -> Completion A * World.

Definition ret {A : Type} (a : A) : M A := fun w => (Normal a, w).

Definition bind {A B : Type} (m : M A) (k : A -> M B) : M B :=
  fun w =>
    match m w with
    | (Normal a, w') => k a w'
    | (Throw e, w') => (Throw e, w')
    end.

Definition throw {A : Type} (e : JsError) : M A := fun w => (Throw e, w).

(** [try { body } catch (e) { handler }] *)
Definition tryCatch (body : M unit) (handler : JsError -> M unit) : M unit :=
  fun w =>
    match body w with
    | (Normal a, w') => (Normal a, w')
    | (Throw e, w') => handler e w'
    end.

Definition lift {A : Type} (c : Completion A) : M A := fun w => (c, w).

Declare Scope js_scope.
Delimit Scope js_scope with js.
Notation "x <- m ;; k" := (bind m (fun x => k))
  (at level 61, m at next level, right associativity) : js_scope.
Notation "m ;; k" := (bind m (fun _ => k))
  (at level 61, right associativity) : js_scope.
Local Open Scope js_scope.

Definition read {A : Type} (f : Manager -> A) : M A :=
  fun w => (Normal (f (this w)), w).

Definition readHost {A : Type} (f : Host -> A) : M A :=
  fun w => (Normal (f (host w)), w).

Definition assign (f : Manager -> Manager) : M unit :=
  fun w => (Normal tt, with_this f w).

Definition emit (e : Event) : M unit :=
  fun w => (Normal tt, with_trace (cons e) w).

Definition freshRef : M nat :=
  fun w => (Normal (nextRef w), with_nextRef (S (nextRef w)) w).

(** The world a call leaves behind, however it completed. *)
Definition after {A : Type} (m : M A) (w : World) : World := snd (m w).

(** How a call completed. *)
Definition completes {A : Type} (m : M A) (w : World) : bool :=
  is_normal (fst (m w)).

(** ** The two nodes: property writes *)

Definition set_display (v : string) (o : OverlayEl) : OverlayEl :=
  {| o_display := v; o_top := o_top o; o_bottom := o_bottom o;
     o_left := o_left o; o_right := o_right o;
     o_justifyContent := o_justifyContent o; o_parentNode := o_parentNode o |}.

Definition set_insets (v : string) (o : OverlayEl) : OverlayEl :=
  {| o_display := o_display o; o_top := v; o_bottom := v;
     o_left := v; o_right := v;
     o_justifyContent := o_justifyContent o; o_parentNode := o_parentNode o |}.

Definition set_justifyContent (v : string) (o : OverlayEl) : OverlayEl :=
  {| o_display := o_display o; o_top := o_top o; o_bottom := o_bottom o;
     o_left := o_left o; o_right := o_right o;
     o_justifyContent := v; o_parentNode := o_parentNode o |}.

Definition set_parentNode (v : bool) (o : OverlayEl) : OverlayEl :=
  {| o_display := o_display o; o_top := o_top o; o_bottom := o_bottom o;
     o_left := o_left o; o_right := o_right o;
     o_justifyContent := o_justifyContent o; o_parentNode := v |}.

Definition set_innerHTML (v : string) (i : InnerEl) : InnerEl :=
  {| i_innerHTML := v; i_hide := i_hide i; i_fontSize := i_fontSize i;
     i_color := i_color i; i_marginTop := i_marginTop i;
     i_marginBottom := i_marginBottom i; i_textShadow := i_textShadow i;
     i_background := i_background i |}.

Definition set_hide (v : bool) (i : InnerEl) : InnerEl :=
  {| i_innerHTML := i_innerHTML i; i_hide := v; i_fontSize := i_fontSize i;
     i_color := i_color i; i_marginTop := i_marginTop i;
     i_marginBottom := i_marginBottom i; i_textShadow := i_textShadow i;
     i_background := i_background i |}.

Definition set_fontSize (v : SizeValue) (i : InnerEl) : InnerEl :=
  {| i_innerHTML := i_innerHTML i; i_hide := i_hide i; i_fontSize := v;
     i_color := i_color i; i_marginTop := i_marginTop i;
     i_marginBottom := i_marginBottom i; i_textShadow := i_textShadow i;
     i_background := i_background i |}.

Definition set_color (v : string) (i : InnerEl) : InnerEl :=
  {| i_innerHTML := i_innerHTML i; i_hide := i_hide i;
     i_fontSize := i_fontSize i; i_color := v; i_marginTop := i_marginTop i;
     i_marginBottom := i_marginBottom i; i_textShadow := i_textShadow i;
     i_background := i_background i |}.

Definition set_marginTop (v : string) (i : InnerEl) : InnerEl :=
  {| i_innerHTML := i_innerHTML i; i_hide := i_hide i;
     i_fontSize := i_fontSize i; i_color := i_color i; i_marginTop := v;
     i_marginBottom := i_marginBottom i; i_textShadow := i_textShadow i;
     i_background := i_background i |}.

Definition set_marginBottom (v : string) (i : InnerEl) : InnerEl :=
  {| i_innerHTML := i_innerHTML i; i_hide := i_hide i;
     i_fontSize := i_fontSize i; i_color := i_color i;
     i_marginTop := i_marginTop i; i_marginBottom := v;
     i_textShadow := i_textShadow i; i_background := i_background i |}.

Definition set_textShadow (v : string) (i : InnerEl) : InnerEl :=
  {| i_innerHTML := i_innerHTML i; i_hide := i_hide i;
     i_fontSize := i_fontSize i; i_color := i_color i;
     i_marginTop := i_marginTop i; i_marginBottom := i_marginBottom i;
     i_textShadow := v; i_background := i_background i |}.

Definition set_background (v : string) (i : InnerEl) : InnerEl :=
  {| i_innerHTML := i_innerHTML i; i_hide := i_hide i;
     i_fontSize := i_fontSize i; i_color := i_color i;
     i_marginTop := i_marginTop i; i_marginBottom := i_marginBottom i;
     i_textShadow := i_textShadow i; i_background := v |}.

(** A write through [this.overlay]: a [TypeError] when the reference is
    null. *)
Definition onOverlay (f : OverlayEl -> OverlayEl) : M unit :=
  fun w =>
    match overlay (this w) with
    | Some el => (Normal tt, with_this (set_overlay (Some (f el))) w)
    | None =>
        (Throw (TypeError "Cannot read properties of null (reading 'style')"), w)
    end.

(** A write through [this.innerOverlay]: a [TypeError] when the reference
    is null. *)
Definition onInner (f : InnerEl -> InnerEl) : M unit :=
  fun w =>
    match innerOverlay (this w) with
    | Some el => (Normal tt, with_this (set_innerOverlay (Some (f el))) w)
    | None => (Throw (TypeError "Cannot set properties of null"), w)
    end.

(** [this.innerOverlay.innerHTML = html] *)
Definition writeInnerHTML (html : string) : M unit :=
  onInner (set_innerHTML html) ;; emit (SetInnerHTML html).

(** ** Methods of [SubtitleManager] *)

Definition tag (s : string) : string := "[SubtitleManager] " ++ s.

(** [a || b] on a field that is absent or a string. *)
Definition orElse (o : option string) (d : string) : string :=
  match o with
  | Some s => if JsString.isEmpty s then d else s
  | None => d
  end.

(** A field that is there and truthy. *)
Definition truthy (o : option string) : bool :=
  match o with
  | Some s => negb (JsString.isEmpty s)
  | None => false
  end.

Definition newOverlay : OverlayEl :=
  {| o_display := "none"; o_top := ""; o_bottom := ""; o_left := "";
     o_right := ""; o_justifyContent := ""; o_parentNode := true |}.

Definition newInner : InnerEl :=
  {| i_innerHTML := ""; i_hide := false; i_fontSize := Css ""; i_color := "";
     i_marginTop := ""; i_marginBottom := ""; i_textShadow := "";
     i_background := "" |}.

Definition init : M unit :=
  o <- read overlay ;;
  match o with
  | None =>
      assign (set_overlay (Some newOverlay)) ;;
      assign (set_innerOverlay (Some newInner))
  | Some _ => ret tt
  end.

(** The fields the constructor sets before it calls [init]. *)
Definition blank (h : Host) : World :=
  {| this := {| overlay := None; innerOverlay := None; cues := [];
                activeCue := None; settings := emptySettings;
                isEnabled := false |};
     host := h; trace := []; pending := []; nextRef := 0 |}.

(** [new SubtitleManager(playerContainer)] *)
Definition construct (h : Host) : World := after init (blank h).

(** [if (parsed.f) this.settings.f = parsed.f], for each of the four. *)
Definition mergeStored (parsed old : Settings) : Settings :=
  {| subtitleSize :=
       if truthy (subtitleSize parsed) then subtitleSize parsed
       else subtitleSize old;
     subtitleColor :=
       if truthy (subtitleColor parsed) then subtitleColor parsed
       else subtitleColor old;
     subtitlePosition :=
       if truthy (subtitlePosition parsed) then subtitlePosition parsed
       else subtitlePosition old;
     subtitleBackground :=
       if truthy (subtitleBackground parsed) then subtitleBackground parsed
       else subtitleBackground old |}.

Definition loadSettings : M unit :=
  tryCatch
    (st <- readHost storage ;;
     match st with
     | NoStorage => ret tt
     | NoPreference => ret tt
     | Unparsable => throw (TypeError "JSON.parse")
     | Parsed parsed =>
         old <- read settings ;;
         assign (set_settings (mergeStored parsed old)) ;;
         current <- read settings ;;
         emit (ConsoleLog (tag "Loaded settings:") (ArgSettings current))
     end)
    (fun _ => emit (ConsoleError (tag "Error loading settings:") ArgException)).

(** The [sizes] table of [applyStyles]. *)
Definition sizes : list (string * string) :=
  [ ("smaller", "2.2em"); ("small", "2.8em"); ("medium", "3.5em");
    ("large", "4.5em"); ("extralarge", "5.5em") ].

Fixpoint lookup (k : string) (table : list (string * string)) : option string :=
  match table with
  | [] => None
  | (k', v) :: rest => if String.eqb k k' then Some v else lookup k rest
  end.

(** The names of the members of [Object.prototype], which every object
    literal inherits. *)
Definition prototypeKeys : list string :=
  [ "constructor"; "hasOwnProperty"; "isPrototypeOf"; "propertyIsEnumerable";
    "toLocaleString"; "toString"; "valueOf"; "__proto__";
    "__defineGetter__"; "__defineSetter__";
    "__lookupGetter__"; "__lookupSetter__" ].

(** [sizes[key]]: an own key first, then an inherited one; [None] is
    [undefined]. *)
Definition sizeAt (key : string) : option SizeValue :=
  match lookup key sizes with
  | Some v => Some (Css v)
  | None =>
      if existsb (String.eqb key) prototypeKeys then Some (Member key)
      else None
  end.

(** [a || b] on what [sizes[key]] reads. *)
Definition orSize (o : option SizeValue) (d : SizeValue) : SizeValue :=
  match o with
  | Some (Css s) => if JsString.isEmpty s then d else Css s
  | Some (Member key) => Member key
  | None => d
  end.

Definition fontSizeOf (conf : Settings) : SizeValue :=
  orSize (sizeAt (orElse (subtitleSize conf) "medium"))
         (orSize (sizeAt "medium") (Css "")).

(** [text.replace(/\n/g, '<br>')] *)
Definition htmlOf (text : string) : string :=
  JsString.replaceNewlines "<br>" text.

Definition applyStyles (arg : option Settings) : M unit :=
  match arg with
  | Some c => assign (set_settings c)
  | None => ret tt
  end ;;
  inner <- read innerOverlay ;;
  match inner with
  | None => ret tt
  | Some _ =>
      conf <- read settings ;;
      onInner (set_fontSize (fontSizeOf conf)) ;;
      onInner (set_color (orElse (subtitleColor conf) "#ffffff")) ;;
      let position := orElse (subtitlePosition conf) "bottom" in
      onOverlay (set_display "flex") ;;
      onOverlay (set_insets "0") ;;
      onOverlay (set_justifyContent
                   (if String.eqb position "top" then "flex-start"
                    else "flex-end")) ;;
      onInner (set_marginTop "0") ;;
      onInner (set_marginBottom "10%") ;;
      (if String.eqb position "top" then
         onInner (set_marginTop "10%") ;;
         onInner (set_marginBottom "0")
       else if String.eqb position "bottom-low" then
         onInner (set_marginBottom "2%")
       else if String.eqb position "bottom-high" then
         onInner (set_marginBottom "20%")
       else if String.eqb position "middle" then
         onOverlay (set_justifyContent "center") ;;
         onInner (set_marginBottom "0")
       else ret tt) ;;
      let bg := orElse (subtitleBackground conf) "drop-shadow" in
      (if String.eqb bg "drop-shadow" then
         onInner (set_textShadow
           "0px 0px 8px rgba(0, 0, 0, 1), 0px 0px 4px rgba(0, 0, 0, 1)") ;;
         onInner (set_background "none")
       else if String.eqb bg "background" then
         onInner (set_textShadow "none") ;;
         onInner (set_background "rgba(0, 0, 0, 0.7)")
       else
         onInner (set_textShadow "none") ;;
         onInner (set_background "none")) ;;
      active <- read activeCue ;;
      match active with
      | Some c => writeInnerHTML (htmlOf (cue_text c))
      | None => ret tt
      end
  end.

Definition disable : M unit :=
  assign (set_isEnabled false) ;;
  assign (set_cues []) ;;
  o <- read overlay ;;
  match o with
  | Some _ =>
      onOverlay (set_display "none") ;;
      writeInnerHTML ""
  | None => ret tt
  end.

(** [this.cues.push({start: ..., end: ..., text: ...})] for one match. *)
Definition pushCue (m : Pattern.Match) : M unit :=
  st <- lift (parseTime (JStr (Pattern.m_start m))) ;;
  en <- lift (parseTime (JStr (Pattern.m_end m))) ;;
  r <- freshRef ;;
  let cue := {| cue_ref := r; cue_start := st; cue_end := en;
                cue_text := JsString.trim (Pattern.m_text m) |} in
  assign (fun me => set_cues (cues me ++ [cue]) me).

Fixpoint pushAll (ms : list Pattern.Match) : M unit :=
  match ms with
  | [] => ret tt
  | m :: rest => pushCue m ;; pushAll rest
  end.

Definition parseSRT (text : string) : M unit :=
  pushAll (Pattern.execAll Pattern.srtAt 0 text).

Definition parseVTT (text : string) : M unit :=
  pushAll (Pattern.execAll Pattern.vttAt 0 text).

Definition decimal (n : nat) : string :=
  DecimalString.NilEmpty.string_of_uint (Nat.to_uint n).

Definition parseSubtitles (text format : string) : M unit :=
  assign (set_cues []) ;;
  let normalizedText := JsString.replaceCR (JsString.replaceCRLF text) in
  (if String.eqb format "srt" then parseSRT normalizedText
   else parseVTT normalizedText) ;;
  cs <- read cues ;;
  emit (ConsoleLog (tag ("Parsed " ++ decimal (List.length cs) ++ " cues"))
                   ArgNone) ;;
  current <- read settings ;;
  applyStyles (Some current).

(** [timeMs >= cue.start && timeMs <= cue.end] *)
Definition covers (timeMs : float) (cue : Cue) : bool :=
  ((cue_start cue <=? timeMs) && (timeMs <=? cue_end cue))%float.

(** [this.activeCue !== currentCue] *)
Definition differs (active : option Cue) (currentCue : Cue) : bool :=
  match active with
  | Some a => negb (same_object a currentCue)
  | None => true
  end.

Definition update (timeMs : float) : M unit :=
  enabled <- read isEnabled ;;
  cs <- read cues ;;
  if (negb enabled || (List.length cs =? 0)%nat)%bool then ret tt
  else
    active <- read activeCue ;;
    match List.find (covers timeMs) cs with
    | Some currentCue =>
        if differs active currentCue then
          emit (ConsoleLog (tag "Displaying cue:")
                           (ArgText (cue_text currentCue))) ;;
          assign (set_activeCue (Some currentCue)) ;;
          writeInnerHTML (htmlOf (cue_text currentCue)) ;;
          onInner (set_hide false)
        else ret tt
    | None =>
        match active with
        | Some _ =>
            emit (ConsoleLog (tag "Clearing cue") ArgNone) ;;
            assign (set_activeCue None) ;;
            writeInnerHTML "" ;;
            onInner (set_hide true)
        | None => ret tt
        end
    end.

(** The format a track is requested in. *)
Definition formatOf (track : Track) : string :=
  let format := JsString.toLowerCase (orElse (Codec track) "vtt") in
  let format := if String.eqb format "subrip" then "srt" else format in
  if negb (String.eqb format "srt") then "vtt" else format.

Definition indexText (n : N) : string :=
  DecimalString.NilEmpty.string_of_uint (N.to_uint n).

(** The URL [loadTrack] builds, with both of its [url +=] lines. *)
Definition subtitleUrl (userAuth : Auth) (track : Track) (item : Item)
    (mediaSource : MediaSource) : string :=
  let url := serverAddress userAuth ++ "/Videos/" ++ item_Id item ++ "/"
             ++ source_Id mediaSource ++ "/Subtitles/"
             ++ indexText (Index track) ++ "/Stream." ++ formatOf track in
  let url := url ++ "?api_key=" ++ accessToken userAuth in
  let url := url ++ "?api_key=" ++ accessToken userAuth in
  url.

(** [auth || JellyfinAPI.getStoredAuth()] *)
Definition userAuthOf (auth : option Auth) (h : Host) : option Auth :=
  match auth with
  | Some a => Some a
  | None => storedAuth h
  end.

(** [ajax.request(url, ...)] puts a request in flight; its callbacks
    close over [format]. *)
Definition enqueue (format : string) : M unit :=
  fun w => (Normal tt, with_pending (fun p => (p ++ [format])%list) w).

(** [loadTrack], up to and including the call of [ajax.request]; the two
    callbacks are [fetchSuccess] and [fetchError] below. *)
Definition loadTrack (track : Track) (item : Item) (mediaSource : MediaSource)
    (auth : option Auth) : M unit :=
  assign (set_cues []) ;;
  assign (set_isEnabled true) ;;
  onOverlay (set_display "flex") ;;
  loadSettings ;;
  applyStyles None ;;
  h <- readHost (fun h => h) ;;
  match userAuthOf auth h with
  | None => emit (ConsoleError (tag "No auth data found") ArgNone)
  | Some userAuth =>
      let url := subtitleUrl userAuth track item mediaSource in
      emit (ConsoleLog (tag "Fetching subtitles from:") (ArgText url)) ;;
      emit (AjaxGet url) ;;
      enqueue (formatOf track)
  end.

(** The [success] callback of a request that captured [format]. *)
Definition onSuccess (format data : string) : M unit :=
  emit (ConsoleLog (tag "Subtitles fetched successfully") ArgNone) ;;
  parseSubtitles data format.

Definition errMsgOf (err : FetchError) : string :=
  match err with
  | ErrText s => s
  | ErrObject json => json
  end.

(** The [error] callback. *)
Definition onError (err : FetchError) : M unit :=
  emit (ConsoleError (tag "Failed to fetch subtitles:") (ArgFetchError err)) ;;
  dbg <- readHost debugOverlay ;;
  if dbg then emit (DebugOverlayError ("Fetch failed: " ++ errMsgOf err))
  else ret tt.

Definition destroy : M unit :=
  disable ;;
  o <- read overlay ;;
  match o with
  | Some el =>
      if o_parentNode el then onOverlay (set_parentNode false) else ret tt
  | None => ret tt
  end ;;
  assign (set_overlay None) ;;
  assign (set_innerOverlay None) ;;
  assign (set_cues []) ;;
  assign (set_activeCue None).

(** ** What can happen to an instance *)

Fixpoint removeNth {A : Type} (n : nat) (l : list A) : list A :=
  match l, n with
  | [], _ => []
  | _ :: r, O => r
  | x :: r, S k => x :: removeNth k r
  end.

(** The response to the [i]-th request in flight arrives: the request
    leaves [pending] and its callback runs.  Nothing happens when there is
    no such request. *)
Definition respond (i : nat) (callback : string -> M unit) : M unit :=
  fun w =>
    match nth_error (pending w) i with
    | Some format => callback format (with_pending (removeNth i) w)
    | None => (Normal tt, w)
    end.

(** A call of a method, or something the host does. *)
Inductive Call : Type :=
| CallInit
| CallLoadTrack (track : Track) (item : Item) (mediaSource : MediaSource)
                (auth : option Auth)
| CallDisable
| CallParseSubtitles (text format : string)
| CallParseSRT (text : string)
| CallParseVTT (text : string)
| CallLoadSettings
| CallUpdate (timeMs : float)
| CallApplyStyles (arg : option Settings)
| CallDestroy
| FetchSucceeds (i : nat) (data : string)
| FetchFails (i : nat) (err : FetchError)
| HostBecomes (h : Host).

Definition run (c : Call) : M unit :=
  match c with
  | CallInit => init
  | CallLoadTrack track item mediaSource auth =>
      loadTrack track item mediaSource auth
  | CallDisable => disable
  | CallParseSubtitles text format => parseSubtitles text format
  | CallParseSRT text => parseSRT text
  | CallParseVTT text => parseVTT text
  | CallLoadSettings => loadSettings
  | CallUpdate timeMs => update timeMs
  | CallApplyStyles arg => applyStyles arg
  | CallDestroy => destroy
  | FetchSucceeds i data => respond i (fun format => onSuccess format data)
  | FetchFails i err => respond i (fun _ => onError err)
  | HostBecomes h => fun w => (Normal tt, with_host h w)
  end.

(** The world after a sequence of calls, first call first.  A call that
    throws leaves the fields as they were when it threw, and the caller
    goes on. *)
Fixpoint runAll (cs : list Call) (w : World) : World :=
  match cs with
  | [] => w
  | c :: rest => runAll rest (after (run c) w)
  end.

(** Every call of the sequence completed normally. *)
Fixpoint allComplete (cs : list Call) (w : World) : bool :=
  match cs with
  | [] => true
  | c :: rest => completes (run c) w && allComplete rest (after (run c) w)
  end.

(** The states an instance can be in. *)
Definition reachable (w : World) : Prop :=
  exists (h : Host) (cs : list Call), w = runAll cs (construct h).

(** ** Vocabulary of the specification *)

(** A line feed, as a string. *)
Definition nl : string := String JsString.LF EmptyString.

(** The millisecond offset the specification gives for [HH:MM:SS.mmm]. *)
Definition millis (H M S ms : Z) : Z := (((H * 60 + M) * 60 + S) * 1000 + ms)%Z.

(** The fields [parseTime] reads from a string. *)
Definition fieldsOf (s : string) : list string :=
  JsString.split ":" (JsString.replaceFirst "," "." s).

Definition startsWithDigit (s : string) : bool :=
  match s with
  | String c _ => JsString.is_digit c
  | EmptyString => false
  end.

(** A field with an integer to read: white space, a sign, then a digit. *)
Definition integerField (f : string) : bool :=
  startsWithDigit (snd (JsNumber.takeSign (JsString.trimStart f))).

(** A field with a decimal number to read: white space, a sign, then
    [Infinity], a digit, or a point and a digit. *)
Definition decimalField (f : string) : bool :=
  let body := snd (JsNumber.takeSign (JsString.trimStart f)) in
  String.prefix "Infinity" body
  || startsWithDigit body
  || match body with
     | String "." r => startsWithDigit r
     | _ => false
     end.

(** A string one of whose three fields does not begin with a number (a
    field that is not there reads as [undefined]). *)
Definition nonNumeric (s : string) : bool :=
  negb (integerField (JsString.ofSlot (nth_error (fieldsOf s) 0)))
  || negb (integerField (JsString.ofSlot (nth_error (fieldsOf s) 1)))
  || negb (decimalField (JsString.ofSlot (nth_error (fieldsOf s) 2))).

(** A missing or empty input. *)
Definition missing (v : JsValue) : bool :=
  match v with
  | JUndefined | JNull => true
  | JStr s => JsString.isEmpty s
  | JNum _ => false
  end.

Definition malformed (v : JsValue) : bool :=
  missing v || match v with JStr s => nonNumeric s | _ => false end.

(** A string without a comma. *)
Fixpoint commaFree (s : string) : bool :=
  match s with
  | EmptyString => true
  | String c r => negb (Ascii.eqb c ",") && commaFree r
  end.

(** A string without a colon. *)
Fixpoint colonFree (s : string) : bool :=
  match s with
  | EmptyString => true
  | String c r => negb (Ascii.eqb c ":") && colonFree r
  end.

Fixpoint allDigits (s : string) : bool :=
  match s with
  | EmptyString => true
  | String c r => JsString.is_digit c && allDigits r
  end.

(** A number written as a run of digits. *)
Definition digitRun (s : string) : bool :=
  negb (JsString.isEmpty s) && allDigits s.

(** A number written as a run of digits, or as two runs of digits with a
    point between them. *)
Definition decimalRun (s : string) : bool :=
  let '(ip, r) := JsString.spanDigits s in
  negb (JsString.isEmpty ip)
  && match r with
     | EmptyString => true
     | String "." fp => digitRun fp
     | _ => false
     end.

(** Characters that follow the number of a field without continuing it:
    the first is no digit, point or exponent mark, and none separates
    fields or decimals. *)
Definition trailing (j : string) : bool :=
  match j with
  | EmptyString => true
  | String c _ =>
      negb (JsString.is_digit c || Ascii.eqb c "." || Ascii.eqb c "e"
            || Ascii.eqb c "E")
  end
  && colonFree j && commaFree j.

(** The payload of the settings-suffix example. *)
Definition suffixPayload : string :=
  "00:00:01.000 --> 00:00:02.500 align:center" ++ nl ++ "Hi" ++ nl ++ nl.

(** The URLs requested so far, latest first. *)
Fixpoint requests (tr : list Event) : list string :=
  match tr with
  | [] => []
  | AjaxGet url :: rest => url :: requests rest
  | _ :: rest => requests rest
  end.

(** The number of writes of the rendered text so far. *)
Fixpoint renders (tr : list Event) : nat :=
  match tr with
  | [] => 0
  | SetInnerHTML _ :: rest => S (renders rest)
  | _ :: rest => renders rest
  end.

(** The format as the specification words it: the declared codec when it
    is literally [srt], [vtt] for every other value. *)
Definition claimedFormat (track : Track) : string :=
  match Codec track with
  | Some c => if String.eqb c "srt" then c else "vtt"
  | None => "vtt"
  end.

(** The resource locator up to the format, for a given format. *)
Definition streamPath (userAuth : Auth) (track : Track) (item : Item)
    (mediaSource : MediaSource) (format : string) : string :=
  serverAddress userAuth ++ "/Videos/" ++ item_Id item ++ "/"
  ++ source_Id mediaSource ++ "/Subtitles/" ++ indexText (Index track)
  ++ "/Stream." ++ format.

(** The URL as the specification words it: the credential once. *)
Definition claimedUrl (userAuth : Auth) (track : Track) (item : Item)
    (mediaSource : MediaSource) : string :=
  streamPath userAuth track item mediaSource (claimedFormat track)
  ++ "?api_key=" ++ accessToken userAuth.

(** The four style dimensions of a configuration. *)
Inductive Field : Type :=
| FSize | FColor | FPosition | FBackground.

Definition field (f : Field) (c : Settings) : option string :=
  match f with
  | FSize => subtitleSize c
  | FColor => subtitleColor c
  | FPosition => subtitlePosition c
  | FBackground => subtitleBackground c
  end.

(** The stored configuration supplies field [f]. *)
Definition supplies (st : StoredPreference) (f : Field) : bool :=
  match st with
  | Parsed c => truthy (field f c)
  | _ => false
  end.

(** ** State invariants and frames *)

Definition isSome {A : Type} (o : option A) : bool :=
  match o with Some _ => true | None => false end.

(** The two references are null together: the inner node is there whenever
    the outer one is. *)
Definition surfaceTogether (w : World) : Prop :=
  isSome (overlay (this w)) = isSome (innerOverlay (this w)).

(** An enabled instance has its surface. *)
Definition enabledHasSurface (w : World) : Prop :=
  isEnabled (this w) = true -> isSome (innerOverlay (this w)) = true.

(** A call changed neither which references are null nor the enabled
    flag. *)
Definition sameShape (w w' : World) : Prop :=
  isSome (overlay (this w')) = isSome (overlay (this w))
  /\ isSome (innerOverlay (this w')) = isSome (innerOverlay (this w))
  /\ isEnabled (this w') = isEnabled (this w).

(** A call that also left the cues, the active cue and the host as they
    were. *)
Definition engineKept (w w' : World) : Prop :=
  sameShape w w'
  /\ cues (this w') = cues (this w)
  /\ activeCue (this w') = activeCue (this w)
  /\ host w' = host w.

(** A call that only restyled: it issued no request either. *)
Definition restyled (w w' : World) : Prop :=
  engineKept w w'
  /\ requests (trace w') = requests (trace w)
  /\ pending w' = pending w.

(** The world a call leaves is related to the one it found, however the
    call completed. *)
Definition Preserves {A : Type} (R : World -> World -> Prop) (m : M A) : Prop :=
  forall w, R w (after m w).

(** From a world that satisfies [I], the call completes normally and
    leaves a world that satisfies [I]. *)
Definition Safe {A : Type} (I : World -> Prop) (m : M A) : Prop :=
  forall w, I w -> completes m w = true /\ I (after m w).

Definition hasSurface (w : World) : Prop :=
  isSome (overlay (this w)) = true /\ isSome (innerOverlay (this w)) = true.

(** A frame relation: a call that does nothing keeps it, and calls in
    sequence keep it. *)
Class Frame (R : World -> World -> Prop) : Prop := {
  frame_refl : forall w, R w w;
  frame_trans : forall w1 w2 w3, R w1 w2 -> R w2 w3 -> R w1 w3
}.

(** A call that left the settings object as it was. *)
Definition sameSettings (w w' : World) : Prop :=
  settings (this w') = settings (this w).

(** An instance whose references are null together, and which has its
    surface while it is enabled. *)
Definition goodState (w : World) : Prop :=
  surfaceTogether w /\ enabledHasSurface w.

(** The world [destroy] leaves: a write of the empty text when the surface
    was still there, then every field cleared but the settings. *)
Definition destroyed (w : World) : World :=
  with_this (fun _ => {| overlay := None; innerOverlay := None; cues := [];
                         activeCue := None; settings := settings (this w);
                         isEnabled := false |})
            (match overlay (this w) with
             | Some _ => with_trace (cons (SetInnerHTML "")) w
             | None => w
             end).

(** The format policy of the code, in words: [srt] when the declared codec,
    in lower case, is [srt] or [subrip]; [vtt] otherwise, and when no codec
    is declared. *)
Definition policyFormat (track : Track) : string :=
  let codec := JsString.toLowerCase (orElse (Codec track) "vtt") in
  if (String.eqb codec "srt" || String.eqb codec "subrip")%bool
  then "srt" else "vtt".

(** What the error callback reports, latest first. *)
Definition failureReport (h : Host) (err : FetchError) : list Event :=
  (if debugOverlay h
   then [DebugOverlayError ("Fetch failed: " ++ errMsgOf err)]
   else [])
  ++ [ConsoleError (tag "Failed to fetch subtitles:") (ArgFetchError err)].

(** ** Sample inputs *)

Definition bareHost : Host :=
  {| storage := NoStorage; storedAuth := None; debugOverlay := false |}.

Definition sampleAuth : Auth :=
  {| serverAddress := "http://media.local:8096"; accessToken := "TOKEN" |}.

Definition sampleItem : Item := {| item_Id := "item1" |}.

Definition sampleSource : MediaSource := {| source_Id := "source1" |}.

Definition vttTrack : Track := {| Codec := Some "webvtt"; Index := 2 |}.

Definition subripTrack : Track := {| Codec := Some "subrip"; Index := 2 |}.

Definition loadVtt : Call :=
  CallLoadTrack vttTrack sampleItem sampleSource (Some sampleAuth).

Definition loadSubrip : Call :=
  CallLoadTrack subripTrack sampleItem sampleSource (Some sampleAuth).

(** The cue of [suffixPayload], as the first object created. *)
Definition hiCue : Cue :=
  {| cue_ref := 0; cue_start := 1000; cue_end := 2500; cue_text := "Hi" |}.

Definition onlySize (v : string) : Settings :=
  {| subtitleSize := Some v; subtitleColor := None;
     subtitlePosition := None; subtitleBackground := None |}.

Definition onlyColor (v : string) : Settings :=
  {| subtitleSize := None; subtitleColor := Some v;
     subtitlePosition := None; subtitleBackground := None |}.

(** ** The appearance a configuration resolves to

    The writes of [applyStyles], read as functions of the configuration:
    what each property of the two nodes is once the method has run. *)

Definition positionOf (conf : Settings) : string :=
  orElse (subtitlePosition conf) "bottom".

Definition backgroundOf (conf : Settings) : string :=
  orElse (subtitleBackground conf) "drop-shadow".

Definition resolvedOverlay (conf : Settings) (o : OverlayEl) : OverlayEl :=
  let position := positionOf conf in
  {| o_display := "flex";
     o_top := "0"; o_bottom := "0"; o_left := "0"; o_right := "0";
     o_justifyContent :=
       if String.eqb position "top" then "flex-start"
       else if String.eqb position "bottom-low" then "flex-end"
       else if String.eqb position "bottom-high" then "flex-end"
       else if String.eqb position "middle" then "center"
       else "flex-end";
     o_parentNode := o_parentNode o |}.

Definition resolvedInner (conf : Settings) (active : option Cue) (il : InnerEl)
  : InnerEl :=
  let position := positionOf conf in
  let bg := backgroundOf conf in
  {| i_innerHTML :=
       match active with
       | Some c => htmlOf (cue_text c)
       | None => i_innerHTML il
       end;
     i_hide := i_hide il;
     i_fontSize := fontSizeOf conf;
     i_color := orElse (subtitleColor conf) "#ffffff";
     i_marginTop := if String.eqb position "top" then "10%" else "0";
     i_marginBottom :=
       if String.eqb position "top" then "0"
       else if String.eqb position "bottom-low" then "2%"
       else if String.eqb position "bottom-high" then "20%"
       else if String.eqb position "middle" then "0"
       else "10%";
     i_textShadow :=
       if String.eqb bg "drop-shadow"
       then "0px 0px 8px rgba(0, 0, 0, 1), 0px 0px 4px rgba(0, 0, 0, 1)"
       else "none";
     i_background :=
       if String.eqb bg "drop-shadow" then "none"
       else if String.eqb bg "background" then "rgba(0, 0, 0, 0.7)"
       else "none" |}.

(** The settings [applyStyles] works with. *)
Definition confOf (arg : option Settings) (w : World) : Settings :=
  match arg with
  | Some c => c
  | None => settings (this w)
  end.

(** The world [applyStyles] leaves on an instance with both nodes. *)
Definition restyledWorld (arg : option Settings) (o : OverlayEl) (il : InnerEl)
    (w : World) : World :=
  let conf := confOf arg w in
  with_trace
    (fun tr => match activeCue (this w) with
               | Some c => SetInnerHTML (htmlOf (cue_text c)) :: tr
               | None => tr
               end)
    (with_this
       (fun me =>
          {| overlay := Some (resolvedOverlay conf o);
             innerOverlay := Some (resolvedInner conf (activeCue me) il);
             cues := cues me; activeCue := activeCue me;
             settings := conf; isEnabled := isEnabled me |})
       w).

(** What the dimension [f] of a configuration decides on the two nodes,
    at the default of that dimension: the font size of [medium], white,
    the placement of [bottom], the drop shadow. *)
Definition rendersDefault (f : Field) (o : OverlayEl) (il : InnerEl) : Prop :=
  match f with
  | FSize => i_fontSize il = Css "3.5em"
  | FColor => i_color il = "#ffffff"
  | FPosition =>
      o_justifyContent o = "flex-end"
      /\ i_marginTop il = "0" /\ i_marginBottom il = "10%"
  | FBackground =>
      i_textShadow il
      = "0px 0px 8px rgba(0, 0, 0, 1), 0px 0px 4px rgba(0, 0, 0, 1)"
      /\ i_background il = "none"
  end.

(** ** Vocabulary of the further properties *)

(** The character occurs in the string. *)
Fixpoint hasChar (a : ascii) (s : string) : bool :=
  match s with
  | EmptyString => false
  | String c r => Ascii.eqb c a || hasChar a r
  end.

(** The payload with every line feed written as carriage return and line
    feed. *)
Fixpoint toCRLF (s : string) : string :=
  match s with
  | EmptyString => EmptyString
  | String c r =>
      if JsString.is_newline c
      then String JsString.CR (String JsString.LF (toCRLF r))
      else String c (toCRLF r)
  end.

(** The payload with every line feed written as a lone carriage return. *)
Fixpoint toCR (s : string) : string :=
  match s with
  | EmptyString => EmptyString
  | String c r =>
      String (if JsString.is_newline c then JsString.CR else c) (toCR r)
  end.


(** Two line feeds in a row occur in the string: an empty line. *)
Fixpoint hasBlankLine (s : string) : bool :=
  match s with
  | EmptyString => false
  | String c r =>
      (JsString.is_newline c
       && match r with
          | String d _ => JsString.is_newline d
          | EmptyString => false
          end)
      || hasBlankLine r
  end.

(** The text has neither leading nor trailing white space. *)
Definition trimmed (s : string) : Prop := JsString.trim s = s.


(** While no cue is active the surface shows no text. *)
Definition quietWhenIdle (w : World) : Prop :=
  activeCue (this w) = None ->
  forall il, innerOverlay (this w) = Some il -> i_innerHTML il = "".

(** A call after which the surface is still blank while idle, if it was
    before. *)
Definition staysQuiet (w w' : World) : Prop :=
  quietWhenIdle w -> quietWhenIdle w'.

(** Two cues, the second starting when the first ends, and a third that
    overlaps the second. *)
Definition firstCue : Cue :=
  {| cue_ref := 0; cue_start := 1000; cue_end := 2000; cue_text := "one" |}.

Definition secondCue : Cue :=
  {| cue_ref := 1; cue_start := 2000; cue_end := 3000;
     cue_text := "two" ++ nl ++ "lines" |}.

Definition overlappingCue : Cue :=
  {| cue_ref := 2; cue_start := 2500; cue_end := 4000; cue_text := "three" |}.

(** An enabled instance with its surface and these three cues. *)
Definition playing : World :=
  with_this (fun me => set_isEnabled true
                         (set_cues [firstCue; secondCue; overlappingCue] me))
            (construct bareHost).

(** The inner node after a cue was shown with the default appearance and
    cleared again. *)
Definition clearedInner : InnerEl :=
  {| i_innerHTML := ""; i_hide := true; i_fontSize := Css "3.5em";
     i_color := "#ffffff"; i_marginTop := "0"; i_marginBottom := "10%";
     i_textShadow :=
       "0px 0px 8px rgba(0, 0, 0, 1), 0px 0px 4px rgba(0, 0, 0, 1)";
     i_background := "none" |}.

(** A cue is loaded, shown at 1500 and cleared at 5000. *)
Definition shownAndCleared : World :=
  runAll [loadVtt; FetchSucceeds 0 suffixPayload; CallUpdate 1500;
          CallUpdate 5000] (construct bareHost).

(** ** The settings overlay: cycling through a table of options

    [cycleOption] and [getLabel] of [SubtitleSettingsOverlay], for the
    tables whose values are strings (size, position and the three colours).
    The current setting [settings[key]] is a string or, as [None], anything
    that is strictly equal to no string. *)

Module SettingsOverlay.

Record Choice : Type := { value : string; label : string }.

(** [o => o.value === settings[key]] *)
Definition selected (current : option string) (o : Choice) : bool :=
  match current with
  | Some v => String.eqb (value o) v
  | None => false
  end.

(** [options.findIndex(p)], counting from [i]: -1 when nothing is found. *)
Fixpoint findIndexFrom (i : Z) (p : Choice -> bool) (options : list Choice) : Z :=
  match options with
  | [] => (-1)%Z
  | o :: rest => if p o then i else findIndexFrom (i + 1)%Z p rest
  end.

Definition findIndex (p : Choice -> bool) (options : list Choice) : Z :=
  findIndexFrom 0%Z p options.

(** [cycleOption(key, options)]: the value it hands to [updateSetting].
    With an empty table the index is NaN, the element is undefined and
    reading its value throws. *)
Definition cycleOption (current : option string) (options : list Choice)
  : Completion string :=
  let currentLimit := findIndex (selected current) options in
  if (List.length options =? 0)%nat
  then Throw (TypeError "Cannot read properties of undefined (reading 'value')")
  else
    let nextIndex := ((currentLimit + 1) mod Z.of_nat (List.length options))%Z in
    match nth_error options (Z.to_nat nextIndex) with
    | Some o => Normal (value o)
    | None =>
        Throw (TypeError "Cannot read properties of undefined (reading 'value')")
    end.

(** [getLabel(key, options)] *)
Definition getLabel (current : option string) (options : list Choice) : string :=
  match List.find (selected current) options with
  | Some o => label o
  | None => "Unknown"
  end.

Definition SUBTITLE_SIZE_OPTIONS : list Choice :=
  [ {| value := "small"; label := "Small" |};
    {| value := "medium"; label := "Medium" |};
    {| value := "large"; label := "Large" |};
    {| value := "xlarge"; label := "Extra Large" |} ].

Definition SUBTITLE_POSITION_OPTIONS : list Choice :=
  [ {| value := "bottom"; label := "Bottom" |};
    {| value := "lower"; label := "Lower" |};
    {| value := "middle"; label := "Middle" |};
    {| value := "higher"; label := "Higher" |};
    {| value := "absolute"; label := "Absolute" |} ].

End SettingsOverlay.

(** ** The multi-server manager: what it reads from the store

    The functions of [multiServerManager] that only read.  Each of them
    awaits [getFromStorage] and computes its result from the values read;
    they are modelled as functions of those values.  The servers object has
    the shape the manager itself writes: an object of server objects, each
    with an object of user objects.  An object is the list of its own
    properties in creation order, which is the order [for ... in] visits
    them (no identifier is an array index, and none names a member of
    [Object.prototype]). *)

Module MultiServer.

(** A property value that is only passed on or tested. *)
Inductive Val : Type :=
| VUndefined
| VNull
| VBool (b : bool)
| VNum (n : Z)
| VStr (s : string).

Definition isTruthy (v : Val) : bool :=
  match v with
  | VUndefined | VNull => false
  | VBool b => b
  | VNum n => negb (n =? 0)%Z
  | VStr s => negb (JsString.isEmpty s)
  end.

(** A user object: the properties [addServer] gives it, and whatever else
    [updateServer] has set on it. *)
Record User : Type := {
  userId : Val;
  username : Val;
  userToken : Val;          (* [accessToken] *)
  lastConnected : Val;
  connected : Val;
  userAdded : Val;          (* [addedDate] of the user *)
  userExtra : list (string * Val)
}.

(** A server object, likewise. *)
Record Server : Type := {
  id : Val;
  name : Val;
  url : Val;
  addedDate : Val;
  users : list (string * User);
  serverExtra : list (string * Val)
}.

Definition Servers : Type := list (string * Server).

(** What [getFromStorage(SERVERS_KEY)] resolves to. *)
Inductive StoredServers : Type :=
| NotAnObject               (* falsy, or not of type object *)
| ServersObject (s : Servers).

(** [obj[key]] on an object: the first (and only) property of that name. *)
Fixpoint prop {A : Type} (key : string) (obj : list (string * A)) : option A :=
  match obj with
  | [] => None
  | (k, v) :: rest => if String.eqb k key then Some v else prop key rest
  end.

Definition getAllServers (stored : StoredServers) : Servers :=
  match stored with
  | NotAnObject => []
  | ServersObject s => s
  end.

(** One server seen through one of its users: the object that
    [getAllServersArray], [getActiveServer] and [getServer] build. *)
Record ServerUser : Type := {
  su_id : string;
  su_name : Val;
  su_url : Val;
  su_serverId : string;
  su_userId : string;
  su_username : Val;
  su_accessToken : Val;
  su_addedDate : Val;
  su_lastConnected : Val;
  su_connected : Val
}.

Definition serverUser (serverId : string) (server : Server) (userId : string)
    (user : User) : ServerUser :=
  {| su_id := serverId; su_name := name server; su_url := url server;
     su_serverId := serverId; su_userId := userId;
     su_username := username user; su_accessToken := userToken user;
     su_addedDate := addedDate server;
     su_lastConnected := lastConnected user; su_connected := connected user |}.

Definition getAllServersArray (stored : StoredServers) : list ServerUser :=
  flat_map (fun '(serverId, server) =>
              map (fun '(userId, user) =>
                     serverUser serverId server userId user)
                  (users server))
           (getAllServers stored).

Record UniqueServer : Type := {
  us_id : string;
  us_serverId : string;
  us_name : Val;
  us_url : Val;
  us_addedDate : Val;
  us_userCount : nat
}.

Definition getUniqueServers (stored : StoredServers) : list UniqueServer :=
  map (fun '(serverId, server) =>
         {| us_id := serverId; us_serverId := serverId;
            us_name := name server; us_url := url server;
            us_addedDate := addedDate server;
            us_userCount := List.length (users server) |})
      (getAllServers stored).



(** [getActiveServer], from the three values it reads; an identifier is
    [None] or empty when the stored value is falsy. *)
Definition getActiveServer (activeServerId activeUserId : option string)
    (stored : StoredServers) : option ServerUser :=
  match activeServerId, activeUserId with
  | Some serverId, Some userId =>
      if (JsString.isEmpty serverId || JsString.isEmpty userId)%bool then None
      else
        match prop serverId (getAllServers stored) with
        | None => None
        | Some server =>
            match prop userId (users server) with
            | None => None
            | Some user => Some (serverUser serverId server userId user)
            end
        end
  | _, _ => None
  end.

(** The two shapes [getServer] returns. *)
Inductive ServerView : Type :=
| WithUser (su : ServerUser)
| ServerOnly (serverId : string) (server : Server).

Definition getServer (stored : StoredServers) (serverId : string)
    (userId : option string) : option ServerView :=
  match prop serverId (getAllServers stored) with
  | None => None
  | Some server =>
      match userId with
      | Some uid =>
          if JsString.isEmpty uid then Some (ServerOnly serverId server)
          else match prop uid (users server) with
               | Some user => Some (WithUser (serverUser serverId server uid user))
               | None => Some (ServerOnly serverId server)
               end
      | None => Some (ServerOnly serverId server)
      end
  end.

(** The object [getServerAuth] returns. *)
Record ServerAuth : Type := {
  sa_serverAddress : Val;
  sa_userId : Val;
  sa_username : Val;
  sa_accessToken : Val;
  sa_serverId : Val;
  sa_serverName : Val
}.

(** [server.serverId || server.id] *)
Definition idOr (serverId id : string) : Val :=
  if JsString.isEmpty serverId then VStr id else VStr serverId.

Definition authOfView (v : ServerView) : ServerAuth :=
  match v with
  | WithUser su =>
      {| sa_serverAddress := su_url su; sa_userId := VStr (su_userId su);
         sa_username := su_username su; sa_accessToken := su_accessToken su;
         sa_serverId := idOr (su_serverId su) (su_id su);
         sa_serverName := su_name su |}
  | ServerOnly serverId server =>
      {| sa_serverAddress := url server; sa_userId := VUndefined;
         sa_username := VUndefined; sa_accessToken := VUndefined;
         sa_serverId := idOr serverId serverId;
         sa_serverName := name server |}
  end.

(** [getServerAuth(serverId, userId)], with the active identifiers it
    falls back to. *)
Definition getServerAuth (serverId userId : option string)
    (activeServerId activeUserId : option string) (stored : StoredServers)
  : option ServerAuth :=
  let server :=
    match serverId, userId with
    | Some sid, Some uid =>
        if (JsString.isEmpty sid || JsString.isEmpty uid)%bool
        then option_map WithUser
               (getActiveServer activeServerId activeUserId stored)
        else getServer stored sid (Some uid)
    | _, _ =>
        option_map WithUser (getActiveServer activeServerId activeUserId stored)
    end in
  option_map authOfView server.

Definition getServerCount (stored : StoredServers) : nat :=
  List.length (getAllServers stored).

Definition hasMultipleServers (stored : StoredServers) : bool :=
  (1 <? getServerCount stored)%nat.

Fixpoint countUsers (servers : Servers) (count : nat) : nat :=
  match servers with
  | [] => count
  | (_, server) :: rest => countUsers rest (count + List.length (users server))
  end.

Definition getTotalUserCount (stored : StoredServers) : nat :=
  countUsers (getAllServers stored) 0.

Definition hasServers (stored : StoredServers) : bool :=
  (0 <? getTotalUserCount stored)%nat.

(** *** Writing

    The storage module ([./storage]) is not among the sources; it is a
    parameter here: any type of stores with the three operations the
    manager imports, on the three keys the manager uses and the values it
    keeps under them, in which a key reads what was last saved under it,
    nothing once it is removed, and is not touched by the other keys. *)

Inductive Key : Type :=
| SERVERS_KEY
| ACTIVE_SERVER_KEY
| ACTIVE_USER_KEY.

(** What the manager saves under a key, and what it reads there. *)
Definition Saved (k : Key) : Type :=
  match k with
  | SERVERS_KEY => Servers
  | _ => string
  end.

Definition Read (k : Key) : Type :=
  match k with
  | SERVERS_KEY => StoredServers
  | _ => option string
  end.

Definition saved (k : Key) : Saved k -> Read k :=
  match k as k return Saved k -> Read k with
  | SERVERS_KEY => ServersObject
  | ACTIVE_SERVER_KEY => @Some string
  | ACTIVE_USER_KEY => @Some string
  end.

Definition absent (k : Key) : Read k :=
  match k as k return Read k with
  | SERVERS_KEY => NotAnObject
  | ACTIVE_SERVER_KEY => None
  | ACTIVE_USER_KEY => None
  end.

Class Storage : Type := {
  Store : Type;
  getFromStorage : forall k : Key, Store -> Read k;
  saveToStorage : forall k : Key, Saved k -> Store -> Store;
  removeFromStorage : Key -> Store -> Store;
  get_saved : forall k v st,
    getFromStorage k (saveToStorage k v st) = saved k v;
  get_saved_other : forall k k' v st, k <> k' ->
    getFromStorage k' (saveToStorage k v st) = getFromStorage k' st;
  get_removed : forall k st,
    getFromStorage k (removeFromStorage k st) = absent k;
  get_removed_other : forall k k' st, k <> k' ->
    getFromStorage k' (removeFromStorage k st) = getFromStorage k' st
}.

(** [obj[key] = v]: an existing property keeps its place, a new one comes
    last. *)
Fixpoint setProp {A : Type} (key : string) (v : A) (obj : list (string * A))
  : list (string * A) :=
  match obj with
  | [] => [(key, v)]
  | (k, x) :: rest =>
      if String.eqb k key then (k, v) :: rest
      else (k, x) :: setProp key v rest
  end.


(** [server[key] = value] for one key of [updates], under its guard. *)
Definition setServerKey (key : string) (v : Val) (server : Server) : Server :=
  if (String.eqb key "id" || String.eqb key "users")%bool then server
  else if String.eqb key "name" then
    {| id := id server; name := v; url := url server;
       addedDate := addedDate server; users := users server;
       serverExtra := serverExtra server |}
  else if String.eqb key "url" then
    {| id := id server; name := name server; url := v;
       addedDate := addedDate server; users := users server;
       serverExtra := serverExtra server |}
  else if String.eqb key "addedDate" then
    {| id := id server; name := name server; url := url server;
       addedDate := v; users := users server;
       serverExtra := serverExtra server |}
  else
    {| id := id server; name := name server; url := url server;
       addedDate := addedDate server; users := users server;
       serverExtra := setProp key v (serverExtra server) |}.

(** [user[userKey] = value] for one key of [userUpdates], under its
    guard. *)
Definition setUserKey (key : string) (v : Val) (user : User) : User :=
  if String.eqb key "userId" then user
  else if String.eqb key "username" then
    {| userId := userId user; username := v; userToken := userToken user;
       lastConnected := lastConnected user; connected := connected user;
       userAdded := userAdded user; userExtra := userExtra user |}
  else if String.eqb key "accessToken" then
    {| userId := userId user; username := username user; userToken := v;
       lastConnected := lastConnected user; connected := connected user;
       userAdded := userAdded user; userExtra := userExtra user |}
  else if String.eqb key "lastConnected" then
    {| userId := userId user; username := username user;
       userToken := userToken user; lastConnected := v;
       connected := connected user; userAdded := userAdded user;
       userExtra := userExtra user |}
  else if String.eqb key "connected" then
    {| userId := userId user; username := username user;
       userToken := userToken user; lastConnected := lastConnected user;
       connected := v; userAdded := userAdded user;
       userExtra := userExtra user |}
  else if String.eqb key "addedDate" then
    {| userId := userId user; username := username user;
       userToken := userToken user; lastConnected := lastConnected user;
       connected := connected user; userAdded := v;
       userExtra := userExtra user |}
  else
    {| userId := userId user; username := username user;
       userToken := userToken user; lastConnected := lastConnected user;
       connected := connected user; userAdded := userAdded user;
       userExtra := setProp key v (userExtra user) |}.

Definition withUsers (us : list (string * User)) (server : Server) : Server :=
  {| id := id server; name := name server; url := url server;
     addedDate := addedDate server; users := us;
     serverExtra := serverExtra server |}.

(** An [updates] argument: an object, or [None] for null and undefined. *)
Definition Updates : Type := option (list (string * Val)).

Definition applyUpdates {A : Type} (set : string -> Val -> A -> A)
    (updates : Updates) (x : A) : A :=
  match updates with
  | Some kvs => fold_left (fun acc '(k, v) => set k v acc) kvs x
  | None => x
  end.




(** A stored identifier that is there and truthy. *)
Definition present (o : option string) : bool :=
  match o with
  | Some s => negb (JsString.isEmpty s)
  | None => false
  end.





Section Writing.
Context {storage : Storage}.

(** The device: the store and the console, latest line first.  Each
    function below runs its awaits in order on it.  The timestamps
    ([new Date().toISOString()]) and the identifier generated for a new
    server are inputs. *)
Record Device : Type := {
  dev_store : Store;
  dev_console : list (string * list Val)
}.

Definition load (k : Key) (d : Device) : Read k :=
  getFromStorage k (dev_store d).

Definition save (k : Key) (v : Saved k) (d : Device) : Device :=
  {| dev_store := saveToStorage k v (dev_store d);
     dev_console := dev_console d |}.

Definition remove (k : Key) (d : Device) : Device :=
  {| dev_store := removeFromStorage k (dev_store d);
     dev_console := dev_console d |}.

Definition consoleLog (label : string) (args : list Val) (d : Device)
  : Device :=
  {| dev_store := dev_store d;
     dev_console := (label, args) :: dev_console d |}.

Definition updateServer (serverId : string) (updates : Updates)
    (uid : option string) (userUpdates : Updates) (d : Device)
  : bool * Device :=
  let servers := getAllServers (load SERVERS_KEY d) in
  match prop serverId servers with
  | None => (false, d)
  | Some server =>
      let server := applyUpdates setServerKey updates server in
      let server :=
        match uid, userUpdates with
        | Some u, Some _ =>
            if JsString.isEmpty u then server
            else match prop u (users server) with
                 | Some user =>
                     withUsers
                       (setProp u (applyUpdates setUserKey userUpdates user)
                                (users server))
                       server
                 | None => server
                 end
        | _, _ => server
        end in
      (true,
       consoleLog "[MULTI-SERVER] Updated server:" [VStr serverId]
         (save SERVERS_KEY (setProp serverId server servers) d))
  end.

Definition setActiveServer (serverId uid : string) (now : string)
    (d : Device) : bool * Device :=
  match prop serverId (getAllServers (load SERVERS_KEY d)) with
  | None => (false, d)
  | Some server =>
      match prop uid (users server) with
      | None => (false, d)
      | Some user =>
          let d := save ACTIVE_SERVER_KEY serverId d in
          let d := save ACTIVE_USER_KEY uid d in
          let d :=
            snd (updateServer serverId None (Some uid)
                   (Some [("lastConnected", VStr now)]) d) in
          (true,
           consoleLog "[MULTI-SERVER] Activated server:"
             [name server; VStr "(user:"; username user; VStr ")"] d)
      end
  end.



(** The reading functions on the device. *)
Definition activeServerOf (d : Device) : option ServerUser :=
  getActiveServer (load ACTIVE_SERVER_KEY d) (load ACTIVE_USER_KEY d)
                  (load SERVERS_KEY d).


End Writing.

Arguments Device : clear implicits.

(** A store that holds the three values and nothing else. *)
Record Memory : Type := {
  m_servers : StoredServers;
  m_activeServer : option string;
  m_activeUser : option string
}.

Definition memoryGet (k : Key) (m : Memory) : Read k :=
  match k as k return Read k with
  | SERVERS_KEY => m_servers m
  | ACTIVE_SERVER_KEY => m_activeServer m
  | ACTIVE_USER_KEY => m_activeUser m
  end.

Definition memorySet (k : Key) (v : Read k) (m : Memory) : Memory :=
  match k as k return Read k -> Memory with
  | SERVERS_KEY => fun v =>
      {| m_servers := v; m_activeServer := m_activeServer m;
         m_activeUser := m_activeUser m |}
  | ACTIVE_SERVER_KEY => fun v =>
      {| m_servers := m_servers m; m_activeServer := v;
         m_activeUser := m_activeUser m |}
  | ACTIVE_USER_KEY => fun v =>
      {| m_servers := m_servers m; m_activeServer := m_activeServer m;
         m_activeUser := v |}
  end v.

Definition memory : Storage :=
  {| Store := Memory;
     getFromStorage := memoryGet;
     saveToStorage := fun k v => memorySet k (saved k v);
     removeFromStorage := fun k => memorySet k (absent k);
     get_saved := ltac:(intros [] v []; reflexivity);
     get_saved_other :=
       ltac:(intros [] [] v [] H; try reflexivity; contradiction H; reflexivity);
     get_removed := ltac:(intros [] []; reflexivity);
     get_removed_other :=
       ltac:(intros [] [] [] H; try reflexivity; contradiction H; reflexivity)
  |}.

End MultiServer.

(** ** Vocabulary for the manager's properties *)

(** The keys of an object are distinct, for the servers and for the users
    of each server. *)
Definition wellKeyed (servers : MultiServer.Servers) : Prop :=
  NoDup (map fst servers)
  /\ Forall (fun entry => NoDup (map fst (MultiServer.users (snd entry))))
            servers.

(** The sum of the user counts that [getUniqueServers] reports. *)
Definition reportedUsers (l : list MultiServer.UniqueServer) : nat :=
  fold_right (fun u n => MultiServer.us_userCount u + n) 0 l.

Definition aliceUser : MultiServer.User :=
  {| MultiServer.userId := MultiServer.VStr "u-alice";
     MultiServer.username := MultiServer.VStr "alice";
     MultiServer.userToken := MultiServer.VStr "token-a";
     MultiServer.lastConnected := MultiServer.VStr "2024-01-01T00:00:00.000Z";
     MultiServer.connected := MultiServer.VBool true;
     MultiServer.userAdded := MultiServer.VStr "2024-01-01T00:00:00.000Z";
     MultiServer.userExtra := [] |}.

Definition bobUser : MultiServer.User :=
  {| MultiServer.userId := MultiServer.VStr "u-bob";
     MultiServer.username := MultiServer.VStr "bob";
     MultiServer.userToken := MultiServer.VStr "token-b";
     MultiServer.lastConnected := MultiServer.VStr "2024-02-01T00:00:00.000Z";
     MultiServer.connected := MultiServer.VBool true;
     MultiServer.userAdded := MultiServer.VStr "2024-02-01T00:00:00.000Z";
     MultiServer.userExtra := [] |}.

Definition homeServer : MultiServer.Server :=
  {| MultiServer.id := MultiServer.VStr "server_1_home";
     MultiServer.name := MultiServer.VStr "Home";
     MultiServer.url := MultiServer.VStr "http://home:8096";
     MultiServer.addedDate := MultiServer.VStr "2024-01-01T00:00:00.000Z";
     MultiServer.users := [("u-alice", aliceUser); ("u-bob", bobUser)];
     MultiServer.serverExtra := [] |}.

Definition cabinServer : MultiServer.Server :=
  {| MultiServer.id := MultiServer.VStr "server_2_cabin";
     MultiServer.name := MultiServer.VStr "Cabin";
     MultiServer.url := MultiServer.VStr "http://cabin:8096";
     MultiServer.addedDate := MultiServer.VStr "2024-03-01T00:00:00.000Z";
     MultiServer.users := [("u-alice", aliceUser)];
     MultiServer.serverExtra := [] |}.

Definition twoServers : MultiServer.StoredServers :=
  MultiServer.ServersObject
    [("server_1_home", homeServer); ("server_2_cabin", cabinServer)].

(** [updateServer] as [setActiveServer] calls it: the user's
    [lastConnected] is set, when the user is there and its identifier is
    truthy. *)
Definition touched (uid now : string) (server : MultiServer.Server)
  : MultiServer.Server :=
  match MultiServer.prop uid (MultiServer.users server) with
  | Some user =>
      if JsString.isEmpty uid then server
      else MultiServer.withUsers
             (MultiServer.setProp uid
                (MultiServer.setUserKey "lastConnected" (MultiServer.VStr now)
                                        user)
                (MultiServer.users server))
             server
  | None => server
  end.



(** An empty device over the store that holds the three values. *)
Definition deviceWith (stored : MultiServer.StoredServers)
    (activeServerId activeUserId : option string)
  : MultiServer.Device MultiServer.memory :=
  @MultiServer.Build_Device MultiServer.memory
    {| MultiServer.m_servers := stored;
       MultiServer.m_activeServer := activeServerId;
       MultiServer.m_activeUser := activeUserId |}
    [].



(** Both active identifiers are stored and truthy. *)
Definition hasActive {storage : MultiServer.Storage}
    (d : MultiServer.Device storage) : bool :=
  (MultiServer.present (MultiServer.load MultiServer.ACTIVE_SERVER_KEY d)
   && MultiServer.present (MultiServer.load MultiServer.ACTIVE_USER_KEY d))%bool.




(** The active identifiers are settled: none is stored, or they name a
    stored account. *)
Definition settled {storage : MultiServer.Storage}
    (d : MultiServer.Device storage) : Prop :=
  (MultiServer.load MultiServer.ACTIVE_SERVER_KEY d = None
   /\ MultiServer.load MultiServer.ACTIVE_USER_KEY d = None)
  \/ MultiServer.activeServerOf d <> None.

(** The keys of the servers object and of each server's users. *)
Definition keysOf (servers : MultiServer.Servers)
  : list (string * list string) :=
  map (fun '(k, server) => (k, map fst (MultiServer.users server))) servers.



(** * Properties *)

(** ** Timestamp parser *)

(** NaN absorbs: what the arithmetic of [parseTime] does with a field that
    did not parse. *)

Lemma Prim2SF_nan : Prim2SF PrimFloat.nan = S754_nan.
Proof. reflexivity. Qed.

Lemma add_nan_l (x : float) : (PrimFloat.nan + x)%float = PrimFloat.nan.
Proof. apply Prim2SF_inj. rewrite add_spec, Prim2SF_nan. reflexivity. Qed.

Lemma add_nan_r (x : float) : (x + PrimFloat.nan)%float = PrimFloat.nan.
Proof.
  apply Prim2SF_inj. rewrite add_spec, Prim2SF_nan.
  destruct (Prim2SF x); reflexivity.
Qed.

Lemma mul_nan_l (x : float) : (PrimFloat.nan * x)%float = PrimFloat.nan.
Proof. apply Prim2SF_inj. rewrite mul_spec, Prim2SF_nan. reflexivity. Qed.

Lemma timeValue_nan_hours (m s : float) :
  timeValue PrimFloat.nan m s = PrimFloat.nan.
Proof.
  unfold timeValue. now rewrite mul_nan_l, !add_nan_l, mul_nan_l.
Qed.

Lemma timeValue_nan_minutes (h s : float) :
  timeValue h PrimFloat.nan s = PrimFloat.nan.
Proof.
  unfold timeValue. now rewrite mul_nan_l, add_nan_r, add_nan_l, mul_nan_l.
Qed.

Lemma timeValue_nan_seconds (h m : float) :
  timeValue h m PrimFloat.nan = PrimFloat.nan.
Proof. unfold timeValue. now rewrite add_nan_r, mul_nan_l. Qed.

Lemma nan_is_not_zero : PrimFloat.nan <> 0%float.
Proof.
  intro H. apply (f_equal PrimFloat.is_nan) in H. vm_compute in H.
  discriminate.
Qed.


Lemma spanDigits_no_digit (s : string) :
  startsWithDigit s = false -> fst (JsString.spanDigits s) = EmptyString.
Proof.
  destruct s as [|c r]; simpl; [reflexivity|].
  intros ->. reflexivity.
Qed.

Lemma parseInt10_nan (f : string) :
  integerField f = false -> JsNumber.parseInt10 f = PrimFloat.nan.
Proof.
  unfold integerField, JsNumber.parseInt10.
  destruct (JsNumber.takeSign (JsString.trimStart f)) as [neg body]; simpl.
  intros H. apply spanDigits_no_digit in H.
  destruct (JsString.spanDigits body) as [ds rest]; simpl in H; subst ds.
  reflexivity.
Qed.

Lemma parseFloat_nan (f : string) :
  decimalField f = false -> JsNumber.parseFloat f = PrimFloat.nan.
Proof.
  unfold decimalField, JsNumber.parseFloat.
  destruct (JsNumber.takeSign (JsString.trimStart f)) as [neg body]; simpl.
  intros H.
  apply orb_false_iff in H as [H Hpoint].
  apply orb_false_iff in H as [Hinf Hdigit].
  rewrite Hinf.
  destruct body as [|c r]; [reflexivity|].
  simpl in Hdigit. cbn [JsString.spanDigits]. rewrite Hdigit.
  destruct (Ascii.eqb_spec c ".") as [->|Hc].
  - apply spanDigits_no_digit in Hpoint.
    destruct (JsString.spanDigits r) as [fp rest]; simpl in Hpoint; subst fp.
    reflexivity.
  - assert (E : match String c r with
                | String "." r0 => JsString.spanDigits r0
                | _ => (EmptyString, String c r)
                end = (EmptyString, String c r)).
    { destruct c as [[] [] [] [] [] [] [] []]; try reflexivity.
      now contradiction Hc. }
    rewrite E. reflexivity.
Qed.

(** The parser raises on nothing it can be handed by the extractor: every
    string gets a number. *)
Lemma parseTime_string_total (s : string) :
  exists x, parseTime (JStr s) = Normal x.
Proof.
  unfold parseTime. simpl. destruct (JsString.isEmpty s); eauto.
Qed.

Lemma replaceFirst_commaFree (s : string) :
  commaFree s = true -> JsString.replaceFirst "," "." s = s.
Proof.
  induction s as [|c r IH]; simpl; [reflexivity|].
  intros H. apply andb_true_iff in H as [Hc Hr].
  apply negb_true_iff in Hc. rewrite Hc, IH by assumption. reflexivity.
Qed.

Lemma replaceFirst_comma (a b : string) :
  commaFree a = true ->
  JsString.replaceFirst "," "." (a ++ String "," b) = a ++ String "." b.
Proof.
  induction a as [|c r IH]; simpl; [reflexivity|].
  intros H. apply andb_true_iff in H as [Hc Hr].
  apply negb_true_iff in Hc. rewrite Hc, IH by assumption. reflexivity.
Qed.

Lemma commaFree_app (a b : string) :
  commaFree (a ++ b) = commaFree a && commaFree b.
Proof.
  induction a as [|c r IH]; simpl; [reflexivity|].
  now rewrite IH, andb_assoc.
Qed.

(** The two spellings of a timestamp parse to the same number: the comma
    is turned into a period before anything is read. *)
Lemma parseTime_separator (a b : string) :
  commaFree a = true -> commaFree b = true ->
  parseTime (JStr (a ++ String "," b)) = parseTime (JStr (a ++ String "." b)).
Proof.
  intros Ha Hb. unfold parseTime.
  assert (E : falsy (JStr (a ++ String "," b)) = false
              /\ falsy (JStr (a ++ String "." b)) = false).
  { destruct a; split; reflexivity. }
  destruct E as [-> ->]. unfold parseTimeString.
  rewrite replaceFirst_comma by assumption.
  rewrite replaceFirst_commaFree; [reflexivity|].
  rewrite commaFree_app. simpl. now rewrite Ha, Hb.
Qed.

Lemma append_assoc (a b c : string) : (a ++ b) ++ c = a ++ (b ++ c).
Proof. induction a as [|x a IH]; simpl; [reflexivity|now rewrite IH]. Qed.

Lemma split_colonFree (a : string) :
  colonFree a = true -> JsString.split ":" a = [a].
Proof.
  induction a as [|c r IH]; simpl; [reflexivity|].
  intros H. apply andb_true_iff in H as [Hc Hr].
  apply negb_true_iff in Hc. rewrite Hc, IH by assumption. reflexivity.
Qed.

Lemma split_colon (a b : string) :
  colonFree a = true ->
  JsString.split ":" (a ++ String ":" b) = a :: JsString.split ":" b.
Proof.
  induction a as [|c r IH]; simpl; [reflexivity|].
  intros H. apply andb_true_iff in H as [Hc Hr].
  apply negb_true_iff in Hc. rewrite Hc, IH by assumption. reflexivity.
Qed.

Lemma colonFree_app (a b : string) :
  colonFree (a ++ b) = colonFree a && colonFree b.
Proof.
  induction a as [|c r IH]; simpl; [reflexivity|].
  now rewrite IH, andb_assoc.
Qed.

(** The three fields of a string written with two colons. *)
Lemma fieldsOf_three (a b c : string) :
  colonFree a = true -> colonFree b = true -> colonFree c = true ->
  commaFree a = true -> commaFree b = true -> commaFree c = true ->
  fieldsOf (a ++ String ":" (b ++ String ":" c)) = [a; b; c].
Proof.
  intros Ha Hb Hc Ka Kb Kc. unfold fieldsOf.
  rewrite replaceFirst_commaFree.
  - rewrite split_colon, split_colon, split_colonFree by assumption.
    reflexivity.
  - rewrite commaFree_app. simpl. rewrite commaFree_app. simpl.
    now rewrite Ka, Kb, Kc.
Qed.

Lemma digit_plain (c : ascii) :
  JsString.is_digit c = true ->
  JsString.is_space c = false
  /\ Ascii.eqb c ":" = false /\ Ascii.eqb c "," = false
  /\ Ascii.eqb c "-" = false /\ Ascii.eqb c "+" = false
  /\ Ascii.eqb c "I" = false.
Proof.
  destruct c as [[] [] [] [] [] [] [] []]; vm_compute; intros H;
    try discriminate H; repeat split.
Qed.

Lemma allDigits_free (s : string) :
  allDigits s = true -> colonFree s = true /\ commaFree s = true.
Proof.
  induction s as [|c r IH]; simpl; [auto|].
  intros H. apply andb_true_iff in H as [Hc Hr].
  destruct (digit_plain c Hc) as (_ & E1 & E2 & _).
  rewrite E1, E2. simpl. auto.
Qed.

Lemma spanDigits_run (ds rest : string) :
  allDigits ds = true ->
  match rest with
  | String c _ => JsString.is_digit c = false
  | EmptyString => True
  end ->
  JsString.spanDigits (ds ++ rest) = (ds, rest).
Proof.
  intros Hd Hr. induction ds as [|c r IH]; simpl in *.
  - destruct rest as [|c r]; simpl; [reflexivity|]. now rewrite Hr.
  - apply andb_true_iff in Hd as [Hc Hd]. rewrite Hc, IH by assumption.
    reflexivity.
Qed.

Lemma spanDigits_all (ds : string) :
  allDigits ds = true -> JsString.spanDigits ds = (ds, EmptyString).
Proof.
  intros Hd. induction ds as [|c r IH]; simpl in *; [reflexivity|].
  apply andb_true_iff in Hd as [Hc Hd]. now rewrite Hc, IH.
Qed.

Lemma spanDigits_whole (s : string) :
  let '(ds, rest) := JsString.spanDigits s in
  s = ds ++ rest /\ allDigits ds = true
  /\ match rest with
     | String c _ => JsString.is_digit c = false
     | EmptyString => True
     end.
Proof.
  induction s as [|c r IH]; simpl; [auto|].
  destruct (JsString.is_digit c) eqn:Hc.
  - destruct (JsString.spanDigits r) as [ds rest].
    destruct IH as (-> & Hd & Hr). simpl. rewrite Hc. auto.
  - simpl. auto.
Qed.

Lemma trailing_first (j : string) :
  trailing j = true ->
  match j with
  | String c _ =>
      JsString.is_digit c = false /\ Ascii.eqb c "." = false
      /\ Ascii.eqb c "e" = false /\ Ascii.eqb c "E" = false
  | EmptyString => True
  end.
Proof.
  unfold trailing. destruct j as [|c r]; [auto|]. intros H.
  apply andb_true_iff in H as [H _]. apply andb_true_iff in H as [H _].
  apply negb_true_iff in H.
  repeat (apply orb_false_iff in H as [H ?]). auto.
Qed.

Lemma trailing_free (j : string) :
  trailing j = true -> colonFree j = true /\ commaFree j = true.
Proof.
  unfold trailing. intros H.
  apply andb_true_iff in H as [H Hk]. apply andb_true_iff in H as [_ Hc]. auto.
Qed.

Lemma trailing_no_digit (j : string) :
  trailing j = true ->
  match j with
  | String c _ => JsString.is_digit c = false
  | EmptyString => True
  end.
Proof.
  intros H. apply trailing_first in H. destruct j; [auto|]. tauto.
Qed.

(** [parseInt] reads the digits and nothing after them. *)
Lemma parseInt10_trailing (h j : string) :
  digitRun h = true -> trailing j = true ->
  JsNumber.parseInt10 (h ++ j) = JsNumber.parseInt10 h.
Proof.
  unfold digitRun. intros Hh Hj. apply andb_true_iff in Hh as [Hne Hd].
  destruct h as [|c r]; [discriminate|]. clear Hne.
  assert (Hc : JsString.is_digit c = true)
    by (simpl in Hd; now apply andb_true_iff in Hd as [Hc _]).
  destruct (digit_plain c Hc) as (Hs & _ & _ & Hm & Hp & _).
  unfold JsNumber.parseInt10.
  assert (T : forall rest,
             JsNumber.takeSign (JsString.trimStart (String c r ++ rest))
             = (false, String c r ++ rest)).
  { intros rest. simpl. rewrite Hs. unfold JsNumber.takeSign.
    destruct c as [[] [] [] [] [] [] [] []]; try reflexivity;
      discriminate. }
  rewrite T. specialize (T EmptyString).
  replace (String c r ++ "") with (String c r) in T
    by (clear; induction (String c r); simpl; congruence).
  rewrite T.
  rewrite (spanDigits_run (String c r) j Hd (trailing_no_digit j Hj)).
  rewrite (spanDigits_all (String c r) Hd). reflexivity.
Qed.

Lemma append_empty (s : string) : s ++ "" = s.
Proof. induction s; simpl; congruence. Qed.

Lemma exponentPart_trailing (j : string) :
  trailing j = true -> JsNumber.exponentPart j = 0%Z.
Proof.
  intros H. apply trailing_first in H. destruct j as [|c r]; [reflexivity|].
  destruct H as (_ & _ & He & HE). simpl. now rewrite He, HE.
Qed.

Lemma no_point_first (j : string) :
  trailing j = true ->
  match j with
  | String "." r => JsString.spanDigits r
  | _ => (EmptyString, j)
  end = (EmptyString, j).
Proof.
  intros H. apply trailing_first in H. destruct j as [|c r]; [reflexivity|].
  destruct H as (_ & Hp & _ & _).
  destruct c as [[] [] [] [] [] [] [] []]; try reflexivity; discriminate.
Qed.

(** [parseFloat] reads the decimal number and nothing after it. *)
Lemma parseFloat_trailing (sec j : string) :
  decimalRun sec = true -> trailing j = true ->
  JsNumber.parseFloat (sec ++ j) = JsNumber.parseFloat sec.
Proof.
  unfold decimalRun. pose proof (spanDigits_whole sec) as W.
  destruct (JsString.spanDigits sec) as [ip r]. destruct W as (-> & Hd & Hr).
  intros H Hj. apply andb_true_iff in H as [Hne Hform].
  destruct ip as [|c ip']; [discriminate|]. clear Hne.
  assert (Hc : JsString.is_digit c = true)
    by (simpl in Hd; now apply andb_true_iff in Hd as [Hc _]).
  destruct (digit_plain c Hc) as (Hs & _ & _ & Hm & Hp & HI).
  assert (T : forall rest,
             JsNumber.takeSign (JsString.trimStart (String c ip' ++ rest))
             = (false, String c ip' ++ rest)).
  { intros rest. simpl. rewrite Hs. unfold JsNumber.takeSign.
    destruct c as [[] [] [] [] [] [] [] []]; try reflexivity;
      discriminate. }
  assert (P : forall rest, String.prefix "Infinity" (String c ip' ++ rest) = false).
  { intros rest. simpl.
    destruct c as [[] [] [] [] [] [] [] []]; try reflexivity; discriminate. }
  unfold JsNumber.parseFloat.
  rewrite append_assoc, !T, !P.
  destruct r as [|d fp].
  - simpl (""%string ++ j). rewrite append_empty.
    rewrite (spanDigits_run _ j Hd (trailing_no_digit j Hj)).
    rewrite (spanDigits_all _ Hd).
    rewrite (no_point_first j Hj), (exponentPart_trailing j Hj).
    reflexivity.
  - assert (Ed : d = "."%char /\ digitRun fp = true).
    { destruct d as [[] [] [] [] [] [] [] []]; try discriminate Hform.
      auto. }
    destruct Ed as [-> Hfp]. unfold digitRun in Hfp.
    apply andb_true_iff in Hfp as [_ Hfd].
    change (String "." fp ++ j) with (String "." (fp ++ j)).
    rewrite (spanDigits_run _ (String "." (fp ++ j)) Hd eq_refl).
    rewrite (spanDigits_run _ (String "." fp) Hd eq_refl).
    rewrite (spanDigits_run _ j Hfd (trailing_no_digit j Hj)).
    rewrite (spanDigits_all _ Hfd).
    rewrite (exponentPart_trailing j Hj). reflexivity.
Qed.

Lemma decimalRun_free (sec : string) :
  decimalRun sec = true -> colonFree sec = true /\ commaFree sec = true.
Proof.
  unfold decimalRun. pose proof (spanDigits_whole sec) as W.
  destruct (JsString.spanDigits sec) as [ip r]. destruct W as (-> & Hd & _).
  intros H. apply andb_true_iff in H as [_ Hform].
  destruct (allDigits_free ip Hd) as [C1 K1].
  rewrite colonFree_app, commaFree_app, C1, K1. simpl.
  destruct r as [|d fp]; [auto|].
  assert (Ed : d = "."%char /\ digitRun fp = true).
  { destruct d as [[] [] [] [] [] [] [] []]; try discriminate Hform. auto. }
  destruct Ed as [-> Hfp]. unfold digitRun in Hfp.
  apply andb_true_iff in Hfp as [_ Hfd].
  destruct (allDigits_free fp Hfd) as [C2 K2]. simpl. auto.
Qed.

Lemma digitRun_free (h : string) :
  digitRun h = true -> colonFree h = true /\ commaFree h = true.
Proof.
  unfold digitRun. intros H. apply andb_true_iff in H as [_ H].
  now apply allDigits_free.
Qed.

(** Characters after the number of a field are not read: the string parses
    as the string without them. *)
Lemma parseTime_trailing (h jh m jm sec js : string) :
  digitRun h = true -> digitRun m = true -> decimalRun sec = true ->
  trailing jh = true -> trailing jm = true -> trailing js = true ->
  parseTime (JStr ((h ++ jh) ++ String ":" ((m ++ jm) ++ String ":" (sec ++ js))))
  = parseTime (JStr (h ++ String ":" (m ++ String ":" sec))).
Proof.
  intros Hh Hm Hs Jh Jm Js.
  destruct (digitRun_free h Hh) as [Ch Kh].
  destruct (digitRun_free m Hm) as [Cm Km].
  destruct (decimalRun_free sec Hs) as [Cs Ks].
  destruct (trailing_free jh Jh) as [Cjh Kjh].
  destruct (trailing_free jm Jm) as [Cjm Kjm].
  destruct (trailing_free js Js) as [Cjs Kjs].
  assert (Hne : JsString.isEmpty h = false).
  { unfold digitRun in Hh. apply andb_true_iff in Hh as [Hh _].
    now apply negb_true_iff in Hh. }
  unfold parseTime.
  assert (E : forall a b, falsy (JStr ((h ++ a) ++ b)) = false).
  { intros a b. destruct h; [discriminate|reflexivity]. }
  assert (E' : forall b, falsy (JStr (h ++ b)) = false).
  { intros b. destruct h; [discriminate|reflexivity]. }
  rewrite E, E'.
  unfold parseTimeString.
  fold (fieldsOf ((h ++ jh) ++ String ":" ((m ++ jm) ++ String ":" (sec ++ js)))).
  fold (fieldsOf (h ++ String ":" (m ++ String ":" sec))).
  rewrite !fieldsOf_three
    by (rewrite ?colonFree_app, ?commaFree_app;
        repeat match goal with H : _ = true |- _ => rewrite H end;
        reflexivity).
  cbn [nth_error JsString.ofSlot].
  now rewrite !parseInt10_trailing, parseFloat_trailing by assumption.
Qed.

(** C2, as amended: a missing or empty input yields 0; a string with a
    field that does not begin with a number yields NaN; characters that
    follow the number of a field without continuing it are not read, so
    such a string parses as the string without them; and no string raises. *)
Theorem parseTime_malformed :
  (forall v : JsValue,
     malformed v = true ->
     parseTime v = Normal (if missing v then 0%float else PrimFloat.nan))
  /\ (forall h jh m jm sec js : string,
       digitRun h = true -> digitRun m = true -> decimalRun sec = true ->
       trailing jh = true -> trailing jm = true -> trailing js = true ->
       parseTime (JStr ((h ++ jh) ++ String ":"
                          ((m ++ jm) ++ String ":" (sec ++ js))))
       = parseTime (JStr (h ++ String ":" (m ++ String ":" sec))))
  /\ (forall v : JsValue,
       (missing v = true \/ exists s, v = JStr s) ->
       is_normal (parseTime v) = true).
Proof.
  split; [|split].
  - intros v Hmal.
    destruct v as [| |s|x]; try reflexivity; try discriminate.
    unfold malformed in Hmal. unfold parseTime. simpl in *.
    destruct s as [|c r]; [reflexivity|]. simpl in *.
    f_equal. unfold parseTimeString. fold (fieldsOf (String c r)).
    unfold nonNumeric in Hmal.
    apply orb_true_iff in Hmal as [Hmal|Hsec].
    + apply orb_true_iff in Hmal as [Hh|Hm].
      * apply negb_true_iff, parseInt10_nan in Hh. rewrite Hh.
        apply timeValue_nan_hours.
      * apply negb_true_iff, parseInt10_nan in Hm. rewrite Hm.
        apply timeValue_nan_minutes.
    + apply negb_true_iff, parseFloat_nan in Hsec. rewrite Hsec.
      apply timeValue_nan_seconds.
  - intros h jh m jm sec js. apply parseTime_trailing.
  - intros v [Hv|[s ->]].
    + destruct v as [| |s|x]; try reflexivity; try discriminate.
      unfold parseTime. simpl in *. now rewrite Hv.
    + destruct (parseTime_string_total s) as [x ->]. reflexivity.
Qed.

Lemma parseTime_malformed_witness :
  malformed (JStr "ab:cd:ef") = true
  /\ parseTime (JStr "ab:cd:ef") = Normal PrimFloat.nan
  /\ parseTime (JStr "12abc:00:00") = parseTime (JStr "12:00:00")
  /\ parseTime (JStr "00:00:1x") = parseTime (JStr "00:00:1")
  /\ is_normal (parseTime (JStr "12abc:00:00")) = true
  /\ parseTime (JStr "12:00:00") = Normal 43200000%float
  /\ parseTime (JStr "00:00:1") = Normal 1000%float.
Proof.
  split; [reflexivity|].
  split; [|split; [|split; [|split; [|split; reflexivity]]]].
  - exact (proj1 parseTime_malformed (JStr "ab:cd:ef") eq_refl).
  - exact (proj1 (proj2 parseTime_malformed) "12" "abc" "00" "" "00" ""
             eq_refl eq_refl eq_refl eq_refl eq_refl eq_refl).
  - exact (proj1 (proj2 parseTime_malformed) "00" "" "00" "" "1" "x"
             eq_refl eq_refl eq_refl eq_refl eq_refl eq_refl).
  - exact (proj2 (proj2 parseTime_malformed) (JStr "12abc:00:00")
             (or_intror (ex_intro _ "12abc:00:00" eq_refl))).
Defined.

(** C2, as stated, fails: a string whose fields are not numeric parses to
    NaN, not to 0. *)
Lemma parseTime_nonnumeric_is_not_zero :
  malformed (JStr "ab:cd:ef") = true
  /\ parseTime (JStr "ab:cd:ef") = Normal PrimFloat.nan
  /\ parseTime (JStr "ab:cd:ef") <> Normal 0%float.
Proof.
  split; [reflexivity|]. split; [reflexivity|].
  intro H. apply nan_is_not_zero.
  exact (f_equal (fun c => match c with Normal x => x | Throw _ => 0%float end) H).
Qed.

(** C3, at the failing input: [00:00:01,001] parses to the binary64 just
    below 1001, in either spelling, and not to the integer offset. *)
Theorem parseTime_rounds_below :
  parseTime (JStr "00:00:01,001") = Normal (PrimFloat.next_down 1001)
  /\ parseTime (JStr "00:00:01.001") = Normal (PrimFloat.next_down 1001)
  /\ parseTime (JStr "00:00:01,001") <> Normal (JsNumber.ofZ (millis 0 0 1 1)).
Proof.
  split; [vm_compute; reflexivity|]. split; [vm_compute; reflexivity|].
  intro H.
  apply (f_equal (fun c => match c with
                           | Normal x => PrimFloat.ltb x 1001
                           | Throw _ => false
                           end)) in H.
  vm_compute in H. discriminate.
Qed.

(** ** Stepping through a method *)

Lemma after_bind {A B : Type} (m : M A) (k : A -> M B) (w : World) :
  after (bind m k) w =
  match m w with
  | (Normal a, w1) => after (k a) w1
  | (Throw _, w1) => w1
  end.
Proof. unfold after, bind. now destruct (m w) as [[a|e] w1]. Qed.

Lemma completes_bind {A B : Type} (m : M A) (k : A -> M B) (w : World) :
  completes (bind m k) w =
  match m w with
  | (Normal a, w1) => completes (k a) w1
  | (Throw _, _) => false
  end.
Proof. unfold completes, bind. now destruct (m w) as [[a|e] w1]. Qed.

(** A call that completes normally, as an equation. *)
Lemma completes_normal (m : M unit) (w : World) :
  completes m w = true -> m w = (Normal tt, after m w).
Proof.
  unfold completes, after. destruct (m w) as [[[]|e] w1]; simpl; congruence.
Qed.

(** ** Frames: what a method leaves alone *)

Section FrameRules.

Context {R : World -> World -> Prop} `{Frame R}.

Lemma preserves_ret {A : Type} (a : A) : Preserves R (ret a).
Proof. intros w. apply frame_refl. Qed.

Lemma preserves_throw {A : Type} (e : JsError) : Preserves R (@throw A e).
Proof. intros w. apply frame_refl. Qed.

Lemma preserves_lift {A : Type} (c : Completion A) : Preserves R (lift c).
Proof. intros w. apply frame_refl. Qed.

Lemma preserves_read {A : Type} (f : Manager -> A) : Preserves R (read f).
Proof. intros w. apply frame_refl. Qed.

Lemma preserves_readHost {A : Type} (f : Host -> A) : Preserves R (readHost f).
Proof. intros w. apply frame_refl. Qed.

Lemma preserves_bind {A B : Type} (m : M A) (k : A -> M B) :
  Preserves R m -> (forall a, Preserves R (k a)) -> Preserves R (bind m k).
Proof.
  intros Hm Hk w. rewrite after_bind. specialize (Hm w). unfold after in Hm.
  destruct (m w) as [[a|e] w1]; simpl in *.
  - eapply frame_trans; [exact Hm|]. apply Hk.
  - exact Hm.
Qed.

Lemma preserves_tryCatch (body : M unit) (handler : JsError -> M unit) :
  Preserves R body -> (forall e, Preserves R (handler e)) ->
  Preserves R (tryCatch body handler).
Proof.
  intros Hb Hh w. unfold after, tryCatch. specialize (Hb w).
  unfold after in Hb.
  destruct (body w) as [[a|e] w1]; simpl in *.
  - exact Hb.
  - eapply frame_trans; [exact Hb|]. apply Hh.
Qed.

(** A write through a reference keeps the relation when the write itself
    does. *)
Lemma preserves_onInner (f : InnerEl -> InnerEl) :
  (forall w el, innerOverlay (this w) = Some el ->
                R w (with_this (set_innerOverlay (Some (f el))) w)) ->
  Preserves R (onInner f).
Proof.
  intros Hw w. unfold after, onInner.
  destruct (innerOverlay (this w)) as [el|] eqn:E; simpl.
  - now apply Hw.
  - apply frame_refl.
Qed.

Lemma preserves_onOverlay (f : OverlayEl -> OverlayEl) :
  (forall w el, overlay (this w) = Some el ->
                R w (with_this (set_overlay (Some (f el))) w)) ->
  Preserves R (onOverlay f).
Proof.
  intros Hw w. unfold after, onOverlay.
  destruct (overlay (this w)) as [el|] eqn:E; simpl.
  - now apply Hw.
  - apply frame_refl.
Qed.

End FrameRules.

#[export] Instance sameShape_frame : Frame sameShape.
Proof.
  split.
  - intros w. repeat split.
  - unfold sameShape. intros w1 w2 w3 (A1 & B1 & C1) (A2 & B2 & C2).
    repeat split; congruence.
Qed.

#[export] Instance engineKept_frame : Frame engineKept.
Proof.
  split.
  - intros w. repeat split.
  - unfold engineKept.
    intros w1 w2 w3 (S1 & A1 & B1 & C1) (S2 & A2 & B2 & C2).
    split; [exact (frame_trans _ _ _ S1 S2)|].
    repeat split; congruence.
Qed.

#[export] Instance restyled_frame : Frame restyled.
Proof.
  split.
  - intros w. repeat split.
  - unfold restyled.
    intros w1 w2 w3 (S1 & A1 & B1) (S2 & A2 & B2).
    split; [exact (frame_trans _ _ _ S1 S2)|].
    repeat split; congruence.
Qed.

Lemma restyled_engineKept {A : Type} (m : M A) :
  Preserves restyled m -> Preserves engineKept m.
Proof. intros Hm w. apply Hm. Qed.

Lemma engineKept_sameShape {A : Type} (m : M A) :
  Preserves engineKept m -> Preserves sameShape m.
Proof. intros Hm w. apply Hm. Qed.

Create HintDb frames.

(** A single write keeps a relation when the fields the relation reads
    are not the ones written: the equations close by computation. *)
Ltac frame_write :=
  solve
    [ intros ?; repeat split
    | apply preserves_onInner; intros ? ? E; repeat split; simpl;
      rewrite ?E; reflexivity
    | apply preserves_onOverlay; intros ? ? E; repeat split; simpl;
      rewrite ?E; reflexivity ].

#[export] Hint Extern 2 (Preserves _ (assign _)) => frame_write : frames.
#[export] Hint Extern 2 (Preserves _ (emit _)) => frame_write : frames.
#[export] Hint Extern 2 (Preserves _ freshRef) => frame_write : frames.
#[export] Hint Extern 2 (Preserves _ (enqueue _)) => frame_write : frames.
#[export] Hint Extern 2 (Preserves _ (onInner _)) => frame_write : frames.
#[export] Hint Extern 2 (Preserves _ (onOverlay _)) => frame_write : frames.

(** One statement of a method. *)
Ltac frame_step :=
  first
    [ apply preserves_bind
    | apply preserves_tryCatch
    | apply preserves_ret
    | apply preserves_throw
    | apply preserves_lift
    | apply preserves_read
    | apply preserves_readHost
    | match goal with
      | |- Preserves _ (match ?x with _ => _ end) => destruct x
      end ].

(** A method, statement by statement; writes and methods already framed
    come from the hint database. *)
Ltac frame := repeat (intros; first [ solve [auto with frames] | frame_step ]).

Lemma restyled_writeInnerHTML (html : string) :
  Preserves restyled (writeInnerHTML html).
Proof. unfold writeInnerHTML. frame. Qed.

#[export] Hint Resolve restyled_writeInnerHTML : frames.

Lemma restyled_applyStyles (arg : option Settings) :
  Preserves restyled (applyStyles arg).
Proof. unfold applyStyles. frame. Qed.

Lemma restyled_loadSettings : Preserves restyled loadSettings.
Proof. unfold loadSettings. frame. Qed.

#[export] Hint Resolve restyled_applyStyles restyled_loadSettings : frames.
#[export] Hint Resolve restyled_engineKept engineKept_sameShape : frames.

Lemma sameShape_pushAll (ms : list Pattern.Match) :
  Preserves sameShape (pushAll ms).
Proof.
  induction ms as [|m rest IH]; simpl; [frame|].
  unfold pushCue. frame.
Qed.

#[export] Hint Resolve sameShape_pushAll : frames.

Lemma sameShape_parseSubtitles (text format : string) :
  Preserves sameShape (parseSubtitles text format).
Proof. unfold parseSubtitles, parseSRT, parseVTT. frame. Qed.

Lemma sameShape_update (timeMs : float) : Preserves sameShape (update timeMs).
Proof. unfold update, writeInnerHTML. frame. Qed.

Lemma sameShape_onError (err : FetchError) : Preserves sameShape (onError err).
Proof. unfold onError. frame. Qed.

#[export] Hint Resolve sameShape_parseSubtitles sameShape_update
  sameShape_onError : frames.

Lemma sameShape_respond (i : nat) (callback : string -> M unit) :
  (forall format, Preserves sameShape (callback format)) ->
  Preserves sameShape (respond i callback).
Proof.
  intros Hc w. unfold after, respond.
  destruct (nth_error (pending w) i) as [format|]; [|apply frame_refl].
  exact (Hc format (with_pending (removeNth i) w)).
Qed.

(** ** The surface invariant *)

Lemma after_assign_bind {B : Type} (f : Manager -> Manager) (k : unit -> M B)
    (w : World) :
  after (bind (assign f) k) w = after (k tt) (with_this f w).
Proof. reflexivity. Qed.

Lemma completes_assign_bind {B : Type} (f : Manager -> Manager)
    (k : unit -> M B) (w : World) :
  completes (bind (assign f) k) w = completes (k tt) (with_this f w).
Proof. reflexivity. Qed.

(** What [loadTrack] does to the shape of the instance. *)
Lemma loadTrack_shape (track : Track) (item : Item) (mediaSource : MediaSource)
    (auth : option Auth) (w : World) :
  let w' := after (loadTrack track item mediaSource auth) w in
  isSome (overlay (this w')) = isSome (overlay (this w))
  /\ isSome (innerOverlay (this w')) = isSome (innerOverlay (this w))
  /\ isEnabled (this w') = true
  /\ cues (this w') = []
  /\ activeCue (this w') = activeCue (this w).
Proof.
  unfold loadTrack. rewrite !after_assign_bind.
  match goal with
  | |- context [after ?m ?w2] =>
      assert (Hrest : Preserves engineKept m) by frame;
      destruct (Hrest w2) as ((Ho & Hi & He) & Hc & Ha & _)
  end.
  cbv zeta. rewrite Ho, Hi, He, Hc, Ha. repeat split.
Qed.

Lemma loadTrack_needs_overlay (track : Track) (item : Item)
    (mediaSource : MediaSource) (auth : option Auth) (w : World) :
  completes (loadTrack track item mediaSource auth) w = true ->
  isSome (overlay (this w)) = true.
Proof.
  unfold loadTrack. rewrite !completes_assign_bind, completes_bind.
  unfold onOverlay. simpl.
  destruct (overlay (this w)); [reflexivity|discriminate].
Qed.

(** What [disable] does to the shape of the instance. *)
Lemma disable_shape (w : World) :
  let w' := after disable w in
  isSome (overlay (this w')) = isSome (overlay (this w))
  /\ isSome (innerOverlay (this w')) = isSome (innerOverlay (this w))
  /\ isEnabled (this w') = false
  /\ cues (this w') = []
  /\ activeCue (this w') = activeCue (this w).
Proof.
  unfold disable. rewrite !after_assign_bind.
  match goal with
  | |- context [after ?m ?w2] =>
      assert (Hrest : Preserves engineKept m)
        by (unfold writeInnerHTML; frame);
      destruct (Hrest w2) as ((Ho & Hi & He) & Hc & Ha & _)
  end.
  cbv zeta. rewrite Ho, Hi, He, Hc, Ha. repeat split.
Qed.

(** On an instance whose references are null together, [destroy] completes
    and leaves [destroyed]. *)
Lemma destroy_together (w : World) :
  surfaceTogether w -> destroy w = (Normal tt, destroyed w).
Proof.
  unfold surfaceTogether.
  destruct w as [[o i cs ac st en] h tr p n]. simpl.
  destruct o as [el|], i as [il|]; simpl; try discriminate; intros _.
  - unfold destroyed. cbn. destruct (o_parentNode el); reflexivity.
  - reflexivity.
Qed.

Lemma run_surfaceTogether (c : Call) (w : World) :
  surfaceTogether w -> surfaceTogether (after (run c) w).
Proof.
  unfold surfaceTogether. intros Hw.
  assert (Hshape : forall m : M unit, Preserves sameShape m ->
            isSome (overlay (this (after m w)))
            = isSome (innerOverlay (this (after m w)))).
  { intros m Hm. destruct (Hm w) as (Ho & Hi & _). congruence. }
  destruct c; simpl.
  - (* init *)
    unfold init, after, bind, read. simpl.
    destruct (overlay (this w)) eqn:E; simpl; [now rewrite E|reflexivity].
  - destruct (loadTrack_shape track item mediaSource auth w)
      as (Ho & Hi & _).
    congruence.
  - destruct (disable_shape w) as (Ho & Hi & _). congruence.
  - apply Hshape. frame.
  - apply Hshape. unfold parseSRT. frame.
  - apply Hshape. unfold parseVTT. frame.
  - apply Hshape. frame.
  - apply Hshape. frame.
  - apply Hshape. frame.
  - unfold after. rewrite (destroy_together w Hw). reflexivity.
  - apply Hshape. apply sameShape_respond. intros format.
    unfold onSuccess. frame.
  - apply Hshape. apply sameShape_respond. intros format. frame.
  - exact Hw.
Qed.

Lemma construct_together (h : Host) : surfaceTogether (construct h).
Proof. reflexivity. Qed.

Lemma runAll_together (cs : list Call) (w : World) :
  surfaceTogether w -> surfaceTogether (runAll cs w).
Proof.
  revert w. induction cs as [|c rest IH]; intros w Hw; simpl; [exact Hw|].
  apply IH. now apply run_surfaceTogether.
Qed.

Lemma reachable_together (w : World) : reachable w -> surfaceTogether w.
Proof.
  intros (h & cs & ->). apply runAll_together, construct_together.
Qed.

(** ** Calls that cannot throw *)

Section SafeRules.

Context {I : World -> Prop}.

Lemma safe_ret {A : Type} (a : A) : Safe I (ret a).
Proof. intros w Hw. now split. Qed.

Lemma safe_read {A : Type} (f : Manager -> A) : Safe I (read f).
Proof. intros w Hw. now split. Qed.

Lemma safe_bind {A B : Type} (m : M A) (k : A -> M B) :
  Safe I m -> (forall a, Safe I (k a)) -> Safe I (bind m k).
Proof.
  intros Hm Hk w Hw. rewrite completes_bind, after_bind.
  destruct (Hm w Hw) as [Hc Hi]. unfold completes, after in Hc, Hi.
  destruct (m w) as [[a|e] w1]; simpl in *; [|discriminate].
  now apply Hk.
Qed.

End SafeRules.

Lemma safe_onInner (f : InnerEl -> InnerEl) : Safe hasSurface (onInner f).
Proof.
  intros w [Ho Hi]. unfold completes, after, onInner.
  destruct (innerOverlay (this w)); [|discriminate].
  repeat split. exact Ho.
Qed.

Lemma safe_onOverlay (f : OverlayEl -> OverlayEl) :
  Safe hasSurface (onOverlay f).
Proof.
  intros w [Ho Hi]. unfold completes, after, onOverlay.
  destruct (overlay (this w)); [|discriminate].
  repeat split. exact Hi.
Qed.

Lemma safe_emit (e : Event) : Safe hasSurface (emit e).
Proof. intros w Hw. now split. Qed.

Lemma safe_set_settings (c : Settings) :
  Safe hasSurface (assign (set_settings c)).
Proof. intros w Hw. now split. Qed.

Create HintDb safety.

#[export] Hint Resolve safe_onInner safe_onOverlay safe_emit
  safe_set_settings : safety.

Ltac safe_step :=
  first
    [ apply safe_bind
    | apply safe_ret
    | apply safe_read
    | match goal with
      | |- Safe _ (match ?x with _ => _ end) => destruct x
      end ].

Ltac safe := repeat (intros; first [ solve [auto with safety] | safe_step ]).

Lemma safe_applyStyles (arg : option Settings) :
  Safe hasSurface (applyStyles arg).
Proof. unfold applyStyles, writeInnerHTML. safe. Qed.

(** [applyStyles] completes whenever the outer node is there: without the
    inner node it returns at its guard. *)
Lemma applyStyles_completes (arg : option Settings) (w : World) :
  isSome (overlay (this w)) = true -> completes (applyStyles arg) w = true.
Proof.
  intros Ho. destruct (innerOverlay (this w)) as [il|] eqn:E.
  - apply safe_applyStyles. split; [exact Ho|]. now rewrite E.
  - unfold applyStyles, completes, bind, read, assign.
    destruct arg; simpl; rewrite E; reflexivity.
Qed.

(** On a destroyed instance too. *)
Lemma applyStyles_completes_together (arg : option Settings) (w : World) :
  surfaceTogether w -> completes (applyStyles arg) w = true.
Proof.
  unfold surfaceTogether. intros Hw.
  destruct (overlay (this w)) as [el|] eqn:E.
  - apply applyStyles_completes. now rewrite E.
  - simpl in Hw. destruct (innerOverlay (this w)) eqn:E'; [discriminate|].
    unfold applyStyles, completes, bind, read, assign.
    destruct arg; simpl; rewrite E'; reflexivity.
Qed.

Lemma loadSettings_completes (w : World) : completes loadSettings w = true.
Proof.
  unfold loadSettings, completes, tryCatch, bind, readHost. simpl.
  destruct (storage (host w)); reflexivity.
Qed.

(** [update] completes whenever an enabled instance has its surface. *)
Lemma update_completes (timeMs : float) (w : World) :
  enabledHasSurface w -> completes (update timeMs) w = true.
Proof.
  unfold enabledHasSurface. intros Hw.
  unfold update, completes, bind, read. simpl.
  destruct (isEnabled (this w)); simpl; [|reflexivity].
  destruct (List.length (cues (this w)) =? 0)%nat; simpl; [reflexivity|].
  specialize (Hw eq_refl).
  destruct (innerOverlay (this w)) as [il|] eqn:E; [|discriminate].
  destruct (find (covers timeMs) (cues (this w))) as [c|].
  - destruct (differs (activeCue (this w)) c); [|reflexivity].
    unfold writeInnerHTML, onInner, emit, assign, bind. simpl.
    rewrite E. reflexivity.
  - destruct (activeCue (this w)); [|reflexivity].
    unfold writeInnerHTML, onInner, emit, assign, bind. simpl.
    rewrite E. reflexivity.
Qed.

(** ** The invariant of calls that complete *)

Lemma run_goodState (c : Call) (w : World) :
  goodState w -> completes (run c) w = true -> goodState (after (run c) w).
Proof.
  intros [Ht He] Hc. split; [now apply run_surfaceTogether|].
  unfold enabledHasSurface in *.
  assert (Hshape : forall m : M unit, Preserves sameShape m ->
            isEnabled (this (after m w)) = true ->
            isSome (innerOverlay (this (after m w))) = true).
  { intros m Hm. destruct (Hm w) as (_ & Hi & Hen). rewrite Hi, Hen.
    exact He. }
  destruct c; simpl in *.
  - unfold init, after, bind, read. simpl.
    destruct (overlay (this w)) eqn:E; simpl; [exact He|reflexivity].
  - apply loadTrack_needs_overlay in Hc.
    destruct (loadTrack_shape track item mediaSource auth w)
      as (_ & Hi & _).
    intros _. rewrite Hi. unfold surfaceTogether in Ht. congruence.
  - destruct (disable_shape w) as (_ & _ & Hen & _). congruence.
  - apply Hshape. frame.
  - apply Hshape. unfold parseSRT. frame.
  - apply Hshape. unfold parseVTT. frame.
  - apply Hshape. frame.
  - apply Hshape. frame.
  - apply Hshape. frame.
  - unfold after. rewrite (destroy_together w Ht). discriminate.
  - apply Hshape. apply sameShape_respond. intros format.
    unfold onSuccess. frame.
  - apply Hshape. apply sameShape_respond. intros format. frame.
  - exact He.
Qed.

Lemma construct_goodState (h : Host) : goodState (construct h).
Proof. split; [reflexivity|discriminate]. Qed.

Lemma runAll_goodState (cs : list Call) (w : World) :
  goodState w -> allComplete cs w = true -> goodState (runAll cs w).
Proof.
  revert w. induction cs as [|c rest IH]; intros w Hw Hc; simpl in *.
  - exact Hw.
  - apply andb_true_iff in Hc as [Hc Hrest].
    apply IH; [now apply run_goodState|exact Hrest].
Qed.

(** ** Cue extractor *)

(** C8: on the payload with a settings suffix, [parseVTT] pushes exactly
    one cue, from 1000 to 2500 with text [Hi]; the suffix after the end
    timestamp is skipped. *)
Theorem parseVTT_skips_settings_suffix (w : World) :
  Pattern.execAll Pattern.vttAt 0 suffixPayload
  = [ {| Pattern.m_start := "00:00:01.000"; Pattern.m_end := "00:00:02.500";
         Pattern.m_text := "Hi"; Pattern.m_length := 45 |} ]
  /\ fst (parseVTT suffixPayload w) = Normal tt
  /\ cues (this (after (parseVTT suffixPayload) w))
     = (cues (this w)
        ++ [ {| cue_ref := nextRef w; cue_start := 1000; cue_end := 2500;
                cue_text := "Hi" |} ])%list
  /\ cues (this (after (parseSubtitles suffixPayload "vtt") w))
     = [ {| cue_ref := nextRef w; cue_start := 1000; cue_end := 2500;
            cue_text := "Hi" |} ].
Proof.
  split; [vm_compute; reflexivity|].
  split; [reflexivity|]. split; [reflexivity|].
  unfold parseSubtitles. rewrite after_assign_bind.
  change (JsString.replaceCR (JsString.replaceCRLF suffixPayload))
    with suffixPayload.
  change (String.eqb "vtt" "srt") with false. cbv iota.
  rewrite after_bind.
  change (parseVTT suffixPayload (with_this (set_cues []) w))
    with (Normal tt,
          with_this (set_cues [ {| cue_ref := nextRef w; cue_start := 1000;
                                   cue_end := 2500; cue_text := "Hi" |} ])
            (with_nextRef (S (nextRef w)) w)).
  cbv beta iota.
  match goal with
  | |- context [after ?m ?w2] =>
      assert (Hrest : Preserves engineKept m) by frame;
      destruct (Hrest w2) as (_ & Hc & _)
  end.
  rewrite Hc. reflexivity.
Qed.

(** ** Playback overlay *)

Lemma differs_same (c : Cue) : differs (Some c) c = false.
Proof. unfold differs, same_object. now rewrite Nat.eqb_refl. Qed.

(** What one [update] leaves behind, however it completed: the flag and
    the cues as they were, the active cue settled on what the scan finds,
    and at most one more write of the text. *)
Lemma update_settles (timeMs : float) (w : World) :
  let w1 := after (update timeMs) w in
  isEnabled (this w1) = isEnabled (this w)
  /\ cues (this w1) = cues (this w)
  /\ (isEnabled (this w) = true ->
      (List.length (cues (this w)) =? 0)%nat = false ->
      match find (covers timeMs) (cues (this w)) with
      | Some c => differs (activeCue (this w1)) c = false
      | None => activeCue (this w1) = None
      end)
  /\ renders (trace w1) <= S (renders (trace w)).
Proof.
  unfold after, update, bind, read. simpl.
  destruct (isEnabled (this w)) eqn:En; simpl.
  2:{ rewrite En. repeat split; [discriminate|lia]. }
  destruct (List.length (cues (this w)) =? 0)%nat eqn:Len; simpl.
  { rewrite En. repeat split; [discriminate|lia]. }
  destruct (find (covers timeMs) (cues (this w))) as [c|] eqn:Found.
  - destruct (differs (activeCue (this w)) c) eqn:Diff.
    + unfold writeInnerHTML, onInner, emit, assign, bind. simpl.
      destruct (innerOverlay (this w)) as [il|]; simpl;
        (repeat split; [exact En | intros _ _; apply differs_same | lia]).
    + simpl. repeat split; [exact En | intros _ _; exact Diff | lia].
  - destruct (activeCue (this w)) as [a|] eqn:Active.
    + unfold writeInnerHTML, onInner, emit, assign, bind. simpl.
      destruct (innerOverlay (this w)) as [il|]; simpl;
        (repeat split; [exact En | lia]).
    + simpl. repeat split; [exact En | intros _ _; exact Active | lia].
Qed.

(** C5: a second [update] with the same time changes nothing, neither the
    fields nor the rendered text nor the trace, so that the two calls
    together write the text at most once. *)
Theorem update_twice (timeMs : float) (w : World) :
  let w1 := after (update timeMs) w in
  update timeMs w1 = (Normal tt, w1)
  /\ renders (trace (after (update timeMs) w1)) <= S (renders (trace w)).
Proof.
  cbv zeta.
  destruct (update_settles timeMs w) as (En & Cs & Active & Once).
  cbv zeta in En, Cs, Active, Once.
  set (w1 := after (update timeMs) w) in *.
  assert (Hsecond : update timeMs w1 = (Normal tt, w1)).
  { unfold update, bind, read. simpl. rewrite En, Cs.
    destruct (isEnabled (this w)); simpl; [|reflexivity].
    destruct (List.length (cues (this w)) =? 0)%nat; simpl; [reflexivity|].
    specialize (Active eq_refl eq_refl).
    destruct (find (covers timeMs) (cues (this w))) as [c|].
    - now rewrite Active.
    - now rewrite Active. }
  split; [exact Hsecond|].
  unfold after at 1. rewrite Hsecond. exact Once.
Qed.

(** C1, at the failing input: a cue is shown, then [disable] is called.
    The instance is disabled and has no cues, and still holds the cue as
    its active cue; the next [loadTrack] keeps it and writes its text back
    on the surface. *)
Theorem disable_keeps_active_cue :
  let w := runAll [loadVtt; FetchSucceeds 0 suffixPayload; CallUpdate 1500;
                   CallDisable] (construct bareHost) in
  let w' := after (run loadVtt) w in
  isEnabled (this w) = false
  /\ cues (this w) = []
  /\ activeCue (this w) = Some hiCue
  /\ cues (this w') = []
  /\ activeCue (this w') = Some hiCue
  /\ option_map i_innerHTML (innerOverlay (this w')) = Some "Hi".
Proof. vm_compute. repeat split. Qed.

(** C9, as stated, fails: after [destroy], a [loadTrack] throws with the
    instance already marked enabled; once the response of the earlier
    request has installed its cues, [update] throws on the null surface. *)
Lemma update_throws_on_reused_instance :
  let w := runAll [loadVtt; CallDestroy; loadVtt;
                   FetchSucceeds 0 suffixPayload] (construct bareHost) in
  reachable w
  /\ completes (update 1500) w = false
  /\ fst (update 1500 w) = Throw (TypeError "Cannot set properties of null").
Proof.
  cbv zeta. split; [|split; vm_compute; reflexivity].
  exists bareHost. eexists. reflexivity.
Qed.

(** C9, as amended: after any sequence of calls that all completed
    normally, [destroy] among them or not, [update] completes normally at
    every time. *)
Theorem update_never_throws (h : Host) (cs : list Call) (timeMs : float)
    (Hcs : allComplete cs (construct h) = true) :
  completes (update timeMs) (runAll cs (construct h)) = true.
Proof.
  apply update_completes.
  apply (runAll_goodState cs (construct h) (construct_goodState h) Hcs).
Qed.

Lemma update_never_throws_witness :
  allComplete [loadVtt; FetchSucceeds 0 suffixPayload; CallUpdate 1500;
               CallDestroy] (construct bareHost) = true
  /\ completes (update 1500)
       (runAll [loadVtt; FetchSucceeds 0 suffixPayload; CallUpdate 1500;
                CallDestroy] (construct bareHost)) = true.
Proof.
  split; [vm_compute; reflexivity|].
  apply (update_never_throws bareHost
           [loadVtt; FetchSucceeds 0 suffixPayload; CallUpdate 1500;
            CallDestroy] 1500).
  vm_compute. reflexivity.
Defined.

Lemma destroyed_twice (w : World) : destroyed (destroyed w) = destroyed w.
Proof.
  destruct w as [[o i cs ac st en] h tr p n].
  destruct o; reflexivity.
Qed.

(** C10: on every reachable instance [destroy] completes; a second
    [destroy] completes too and leaves the instance exactly as the first
    one did: no cues, no active cue, both references null. *)
Theorem destroy_idempotent (w : World) (Hw : reachable w) :
  let w1 := after destroy w in
  destroy w = (Normal tt, w1)
  /\ destroy w1 = (Normal tt, w1)
  /\ cues (this w1) = []
  /\ activeCue (this w1) = None
  /\ overlay (this w1) = None
  /\ innerOverlay (this w1) = None
  /\ isEnabled (this w1) = false.
Proof.
  apply reachable_together in Hw.
  cbv zeta. unfold after. rewrite (destroy_together w Hw). simpl.
  split; [reflexivity|]. split; [|repeat split].
  rewrite destroy_together by reflexivity.
  now rewrite destroyed_twice.
Qed.

Lemma destroy_idempotent_witness :
  let w := runAll [loadVtt; FetchSucceeds 0 suffixPayload; CallUpdate 1500]
             (construct bareHost) in
  destroy (after destroy w) = (Normal tt, after destroy w)
  /\ overlay (this (after destroy w)) = None.
Proof.
  cbv zeta.
  pose proof (destroy_idempotent
                (runAll [loadVtt; FetchSucceeds 0 suffixPayload;
                         CallUpdate 1500] (construct bareHost))
                (ex_intro _ bareHost (ex_intro _ _ eq_refl))) as H.
  cbv zeta in H. destruct H as (_ & H2 & _ & _ & H5 & _).
  split; [exact H2|exact H5].
Defined.

(** ** Appearance configuration *)

#[export] Instance sameSettings_frame : Frame sameSettings.
Proof.
  split.
  - intros w. reflexivity.
  - unfold sameSettings. intros w1 w2 w3 A1 A2. congruence.
Qed.

Lemma mergeStored_field (parsed old : Settings) (f : Field) :
  field f (mergeStored parsed old)
  = if truthy (field f parsed) then field f parsed else field f old.
Proof. destruct f; reflexivity. Qed.

Lemma loadSettings_settings (w : World) :
  settings (this (after loadSettings w))
  = match storage (host w) with
    | Parsed parsed => mergeStored parsed (settings (this w))
    | _ => settings (this w)
    end.
Proof.
  unfold loadSettings, after, tryCatch, bind, readHost. simpl.
  destruct (storage (host w)); reflexivity.
Qed.

(** A field the stored configuration supplies takes the stored value. *)
Lemma loadSettings_takes_supplied (w : World) (f : Field) (parsed : Settings) :
  storage (host w) = Parsed parsed ->
  truthy (field f parsed) = true ->
  field f (settings (this (after loadSettings w))) = field f parsed.
Proof.
  intros Hst Hf. rewrite loadSettings_settings, Hst, mergeStored_field.
  now rewrite Hf.
Qed.

(** Run [applyStyles] through its branches on position and background. *)
Ltac style_branches :=
  repeat (cbn -[fontSizeOf orElse htmlOf String.eqb positionOf backgroundOf];
          match goal with
          | |- context [if String.eqb ?a ?b then _ else _] =>
              destruct (String.eqb a b) eqn:?
          end);
  cbn -[fontSizeOf orElse htmlOf String.eqb positionOf backgroundOf].

(** On an instance with both nodes [applyStyles] completes and leaves the
    nodes as the configuration resolves. *)
Lemma applyStyles_run (arg : option Settings) (w : World)
    (o : OverlayEl) (il : InnerEl) :
  overlay (this w) = Some o ->
  innerOverlay (this w) = Some il ->
  applyStyles arg w = (Normal tt, restyledWorld arg o il w).
Proof.
  intros Ho Hi.
  destruct w as [[o' i' cs ac st en] h tr p n]. simpl in Ho, Hi. subst o' i'.
  unfold restyledWorld, resolvedOverlay, resolvedInner, confOf.
  unfold applyStyles, writeInnerHTML, onInner, onOverlay, assign, emit, ret,
    bind, read, positionOf, backgroundOf.
  destruct arg as [c|], ac as [a|]; style_branches; reflexivity.
Qed.

(** A dimension the configuration leaves out is rendered at its default. *)
Lemma resolved_default (f : Field) (c : Settings) (active : option Cue)
    (o : OverlayEl) (il : InnerEl) :
  truthy (field f c) = false ->
  rendersDefault f (resolvedOverlay c o) (resolvedInner c active il).
Proof.
  intros Hf.
  assert (E : forall d, orElse (field f c) d = d).
  { intros d. unfold orElse, truthy in *.
    destruct (field f c) as [x|]; [|reflexivity].
    apply negb_false_iff in Hf. now rewrite Hf. }
  destruct f; simpl in E; unfold rendersDefault, resolvedOverlay,
    resolvedInner, fontSizeOf, positionOf, backgroundOf;
    cbn [i_fontSize i_color o_justifyContent i_marginTop i_marginBottom
         i_textShadow i_background];
    rewrite !E; repeat split.
Qed.

(** C6, as amended: [loadSettings] merges field by field: a field the
    stored configuration does not supply keeps its value and a field it
    supplies takes the stored value.  [applyStyles] with a configuration
    replaces the settings object as a whole, and a dimension that
    configuration leaves out is rendered at its default; without a
    configuration [applyStyles] keeps the settings. *)
Theorem settings_merge (w : World) (f : Field) :
  (supplies (storage (host w)) f = false ->
   field f (settings (this (after loadSettings w)))
   = field f (settings (this w)))
  /\ (forall parsed : Settings,
       storage (host w) = Parsed parsed ->
       truthy (field f parsed) = true ->
       field f (settings (this (after loadSettings w))) = field f parsed)
  /\ (forall c : Settings,
       settings (this (after (applyStyles (Some c)) w)) = c)
  /\ (forall (c : Settings) (o : OverlayEl) (il : InnerEl),
       overlay (this w) = Some o ->
       innerOverlay (this w) = Some il ->
       truthy (field f c) = false ->
       exists o' il',
         overlay (this (after (applyStyles (Some c)) w)) = Some o'
         /\ innerOverlay (this (after (applyStyles (Some c)) w)) = Some il'
         /\ rendersDefault f o' il')
  /\ settings (this (after (applyStyles None) w)) = settings (this w).
Proof.
  split; [|split; [|split; [|split]]].
  - intros Habsent. rewrite loadSettings_settings. unfold supplies in Habsent.
    destruct (storage (host w)) as [| | |parsed]; try reflexivity.
    now rewrite mergeStored_field, Habsent.
  - intros parsed. apply loadSettings_takes_supplied.
  - intros c. unfold applyStyles. rewrite after_assign_bind.
    match goal with
    | |- context [after ?m ?w2] =>
        assert (Hrest : Preserves sameSettings m)
          by (unfold writeInnerHTML; frame);
        exact (Hrest w2)
    end.
  - intros c o il Ho Hi Hf. unfold after.
    rewrite (applyStyles_run (Some c) w o il Ho Hi). cbn [snd].
    eexists _, _. split; [reflexivity|]. split; [reflexivity|].
    now apply resolved_default.
  - assert (Hrest : Preserves sameSettings (applyStyles None))
      by (unfold applyStyles, writeInnerHTML; frame).
    exact (Hrest w).
Qed.

Lemma settings_merge_witness :
  let w := with_host {| storage := Parsed (onlyColor "#ffff00");
                        storedAuth := None; debugOverlay := false |}
             (after (applyStyles (Some (onlySize "large")))
                    (construct bareHost)) in
  supplies (storage (host w)) FSize = false
  /\ field FSize (settings (this (after loadSettings w))) = Some "large"
  /\ field FColor (settings (this (after loadSettings w))) = Some "#ffff00"
  /\ exists o' il',
       overlay (this (after (applyStyles (Some (onlySize "large"))) w))
       = Some o'
       /\ innerOverlay (this (after (applyStyles (Some (onlySize "large"))) w))
          = Some il'
       /\ rendersDefault FColor o' il'.
Proof.
  cbv zeta. split; [reflexivity|]. split; [|split].
  - exact (proj1 (settings_merge
                    (with_host {| storage := Parsed (onlyColor "#ffff00");
                                  storedAuth := None; debugOverlay := false |}
                       (after (applyStyles (Some (onlySize "large")))
                              (construct bareHost)))
                    FSize) eq_refl).
  - exact (proj1 (proj2 (settings_merge
                    (with_host {| storage := Parsed (onlyColor "#ffff00");
                                  storedAuth := None; debugOverlay := false |}
                       (after (applyStyles (Some (onlySize "large")))
                              (construct bareHost)))
                    FColor)) (onlyColor "#ffff00") eq_refl eq_refl).
  - exact (proj1 (proj2 (proj2 (proj2 (settings_merge
                    (with_host {| storage := Parsed (onlyColor "#ffff00");
                                  storedAuth := None; debugOverlay := false |}
                       (after (applyStyles (Some (onlySize "large")))
                              (construct bareHost)))
                    FColor))))
             (onlySize "large")
             (resolvedOverlay (onlySize "large") newOverlay)
             (resolvedInner (onlySize "large") None newInner)
             eq_refl eq_refl eq_refl).
Defined.

(** C6, as stated, fails for [applyStyles]: after a configuration with
    only a colour, the size set before is gone and the font size is the
    default again. *)
Lemma applyStyles_replaces_settings :
  let w1 := after (applyStyles (Some (onlySize "large"))) (construct bareHost) in
  let w2 := after (applyStyles (Some (onlyColor "#ffff00"))) w1 in
  subtitleSize (settings (this w1)) = Some "large"
  /\ option_map i_fontSize (innerOverlay (this w1)) = Some (Css "4.5em")
  /\ subtitleSize (onlyColor "#ffff00") = None
  /\ subtitleSize (settings (this w2)) = None
  /\ subtitleSize (settings (this w2)) <> subtitleSize (settings (this w1))
  /\ option_map i_fontSize (innerOverlay (this w2)) = Some (Css "3.5em").
Proof. vm_compute. repeat split. discriminate. Qed.

(** ** Track loader *)

(** C4, as stated, fails: [loadTrack] has enabled the instance and shown
    the surface before the request is made, and a failed fetch does not
    take that back. *)
Lemma fetch_failure_keeps_load_effects :
  let w0 := construct bareHost in
  let w1 := after (run loadVtt) w0 in
  let w2 := after (run (FetchFails 0 (ErrText "timeout"))) w1 in
  pending w1 = ["vtt"]
  /\ isEnabled (this w0) = false
  /\ isEnabled (this w2) = true
  /\ option_map o_display (overlay (this w0)) = Some "none"
  /\ option_map o_display (overlay (this w2)) = Some "flex"
  /\ this w2 <> this w0.
Proof.
  cbv zeta. repeat split; try (vm_compute; reflexivity).
  intro H. apply (f_equal isEnabled) in H. vm_compute in H. discriminate.
Qed.

(** C4, as amended: when the fetch of a request in flight fails, the
    fields are exactly as [loadTrack] left them, with no cues; the failure
    is reported, and no further request is made. *)
Theorem fetch_failure_abandons_load (track : Track) (item : Item)
    (mediaSource : MediaSource) (auth : option Auth) (err : FetchError)
    (i : nat) (w : World)
    (Hflight : i < List.length
                     (pending (after (loadTrack track item mediaSource auth) w))) :
  let w1 := after (loadTrack track item mediaSource auth) w in
  let w2 := after (run (FetchFails i err)) w1 in
  completes (run (FetchFails i err)) w1 = true
  /\ this w2 = this w1
  /\ cues (this w2) = []
  /\ trace w2 = (failureReport (host w1) err ++ trace w1)%list
  /\ requests (trace w2) = requests (trace w1)
  /\ pending w2 = removeNth i (pending w1).
Proof.
  cbv zeta.
  destruct (loadTrack_shape track item mediaSource auth w)
    as (_ & _ & _ & Hcues & _).
  cbv zeta in Hcues.
  set (w1 := after (loadTrack track item mediaSource auth) w) in *.
  simpl run. unfold completes, after, respond.
  destruct (nth_error (pending w1) i) as [format|] eqn:E.
  2:{ apply nth_error_None in E. lia. }
  unfold onError, failureReport, bind, emit, readHost. simpl.
  destruct (debugOverlay (host w1)); simpl; rewrite Hcues; repeat split.
Qed.

Lemma fetch_failure_abandons_load_witness :
  let w1 := after (run loadVtt) (construct bareHost) in
  let w2 := after (run (FetchFails 0 (ErrText "timeout"))) w1 in
  0 < List.length (pending w1) /\ this w2 = this w1 /\ cues (this w2) = [].
Proof.
  cbv zeta.
  assert (Hi : 0 < List.length
                     (pending (after (run loadVtt) (construct bareHost))))
    by (vm_compute; lia).
  pose proof (fetch_failure_abandons_load vttTrack sampleItem sampleSource
                (Some sampleAuth) (ErrText "timeout") 0 (construct bareHost)
                Hi) as H.
  destruct H as (_ & H2 & H3 & _).
  split; [exact Hi|]. split; [exact H2|exact H3].
Defined.

Lemma prefix_append (p s : string) : String.prefix p (p ++ s) = true.
Proof.
  induction p as [|x p IH]; simpl; [now destruct s|].
  destruct (ascii_dec x x) as [_|N]; [exact IH|now contradiction N].
Qed.

(** The format the code selects is the policy in words. *)
Lemma formatOf_policy (track : Track) : formatOf track = policyFormat track.
Proof.
  unfold formatOf, policyFormat.
  set (codec := JsString.toLowerCase (orElse (Codec track) "vtt")).
  destruct (String.eqb_spec codec "subrip") as [->|Hsub]; [reflexivity|].
  rewrite orb_false_r.
  destruct (String.eqb codec "srt") eqn:E; simpl; [|reflexivity].
  now apply String.eqb_eq in E.
Qed.

(** A restyling call that completes, as one step. *)
Lemma restyle_step (m : M unit) (w : World) :
  Preserves restyled m -> completes m w = true ->
  exists w1, m w = (Normal tt, w1) /\ restyled w w1.
Proof.
  intros Hm Hc. exists (after m w). split; [now apply completes_normal|].
  apply Hm.
Qed.

(** [loadTrack] on an instance that has its outer node and finds a
    credential: it completes, and the one request it adds is for the URL
    it builds. *)
Lemma loadTrack_request (track : Track) (item : Item)
    (mediaSource : MediaSource) (auth : option Auth) (userAuth : Auth)
    (w : World) :
  userAuthOf auth (host w) = Some userAuth ->
  isSome (overlay (this w)) = true ->
  exists w',
    loadTrack track item mediaSource auth w = (Normal tt, w')
    /\ requests (trace w')
       = subtitleUrl userAuth track item mediaSource :: requests (trace w)
    /\ pending w' = (pending w ++ [formatOf track])%list.
Proof.
  intros Hauth Ho. unfold loadTrack.
  change (bind (assign (set_cues [])) ?k w)
    with (k tt (with_this (set_cues []) w)).
  cbv beta.
  set (w1 := with_this (set_cues []) w).
  change (bind (assign (set_isEnabled true)) ?k w1)
    with (k tt (with_this (set_isEnabled true) w1)).
  cbv beta.
  set (w2 := with_this (set_isEnabled true) w1).
  destruct (overlay (this w)) as [el|] eqn:E; [clear Ho|discriminate].
  set (w3 := with_this (set_overlay (Some (set_display "flex" el))) w2).
  assert (H3 : onOverlay (set_display "flex") w2 = (Normal tt, w3)).
  { unfold onOverlay. subst w2 w1. simpl. rewrite E. reflexivity. }
  unfold bind at 1. rewrite H3.
  destruct (restyle_step loadSettings w3 restyled_loadSettings
              (loadSettings_completes w3))
    as (w4 & H4 & ((Ho4 & _) & _ & _ & Hh4) & Hr4 & Hp4).
  unfold bind at 1. rewrite H4.
  assert (Hov4 : isSome (overlay (this w4)) = true) by (now rewrite Ho4).
  destruct (restyle_step (applyStyles None) w4 (restyled_applyStyles None)
              (applyStyles_completes None w4 Hov4))
    as (w5 & H5 & (_ & _ & _ & Hh5) & Hr5 & Hp5).
  unfold bind at 1. rewrite H5.
  unfold bind, readHost. simpl.
  assert (Hh : host w5 = host w) by (rewrite Hh5, Hh4; reflexivity).
  rewrite Hh, Hauth. unfold emit, enqueue. simpl.
  eexists. split; [reflexivity|]. simpl.
  rewrite Hr5, Hr4, Hp5, Hp4. split; reflexivity.
Qed.

(** C7, as amended: with a credential at hand, [loadTrack] makes one
    request, for a URL that begins with the stream path and the api_key
    parameter; the format in the path is [srt] when the declared codec, in
    lower case, is [srt] or [subrip], and [vtt] otherwise. *)
Theorem loadTrack_requests_stream (track : Track) (item : Item)
    (mediaSource : MediaSource) (auth : option Auth) (userAuth : Auth)
    (w : World)
    (Hauth : userAuthOf auth (host w) = Some userAuth)
    (Hsurface : isSome (overlay (this w)) = true) :
  completes (loadTrack track item mediaSource auth) w = true
  /\ exists url : string,
       requests (trace (after (loadTrack track item mediaSource auth) w))
       = url :: requests (trace w)
       /\ String.prefix
            (streamPath userAuth track item mediaSource (policyFormat track)
             ++ "?api_key=" ++ accessToken userAuth) url = true.
Proof.
  destruct (loadTrack_request track item mediaSource auth userAuth w
              Hauth Hsurface) as (w' & Hrun & Hreq & _).
  unfold completes, after. rewrite Hrun. simpl.
  split; [reflexivity|].
  exists (subtitleUrl userAuth track item mediaSource).
  split; [exact Hreq|].
  unfold subtitleUrl, streamPath. rewrite formatOf_policy.
  rewrite !append_assoc.
  repeat (rewrite <- (append_assoc _ _ ("?api_key=" ++ accessToken userAuth))).
  apply prefix_append.
Qed.

Lemma loadTrack_requests_stream_witness :
  userAuthOf (Some sampleAuth) (host (construct bareHost)) = Some sampleAuth
  /\ completes (loadTrack vttTrack sampleItem sampleSource (Some sampleAuth))
       (construct bareHost) = true.
Proof.
  split; [reflexivity|].
  exact (proj1 (loadTrack_requests_stream vttTrack sampleItem sampleSource
                  (Some sampleAuth) sampleAuth (construct bareHost)
                  eq_refl eq_refl)).
Defined.

(** C7, as stated, fails: a track whose codec is [subrip], which is not
    literally [srt], is requested as [srt]; the URL requested is not the
    one the claim gives. *)
Lemma subrip_requested_as_srt :
  let w := after (run loadSubrip) (construct bareHost) in
  Codec subripTrack = Some "subrip"
  /\ claimedFormat subripTrack = "vtt"
  /\ formatOf subripTrack = "srt"
  /\ requests (trace w)
     = [ "http://media.local:8096/Videos/item1/source1/Subtitles/2/Stream.srt?api_key=TOKEN?api_key=TOKEN" ]
  /\ requests (trace w)
     <> [ claimedUrl sampleAuth subripTrack sampleItem sampleSource ].
Proof.
  cbv zeta. repeat split; try (vm_compute; reflexivity).
  vm_compute. discriminate.
Qed.

(** * Further properties *)

(** ** Line endings *)

Lemma is_newline_LF (c : ascii) : JsString.is_newline c = true -> c = JsString.LF.
Proof.
  unfold JsString.is_newline, JsString.code. intros H.
  apply Nat.eqb_eq in H. rewrite <- (ascii_nat_embedding c), H. reflexivity.
Qed.

Lemma replaceCRLF_toCRLF (s : string) :
  hasChar JsString.CR s = false -> JsString.replaceCRLF (toCRLF s) = s.
Proof.
  induction s as [|c r IH]; [reflexivity|].
  cbn [hasChar toCRLF]. intros H. apply orb_false_iff in H as [Hc Hr].
  destruct (JsString.is_newline c) eqn:Enl.
  - apply is_newline_LF in Enl. subst c.
    cbn [JsString.replaceCRLF]. rewrite !Ascii.eqb_refl. simpl.
    now rewrite IH.
  - cbn [JsString.replaceCRLF]. rewrite Hc. simpl.
    rewrite (IH Hr).
    destruct (toCRLF r) eqn:E; [|reflexivity].
    destruct r as [|d r']; [reflexivity|].
    simpl in E. destruct (JsString.is_newline d); discriminate.
Qed.

Lemma replaceCR_clean (s : string) :
  hasChar JsString.CR s = false -> JsString.replaceCR s = s.
Proof.
  induction s as [|c r IH]; [reflexivity|].
  cbn [hasChar JsString.replaceCR]. intros H.
  apply orb_false_iff in H as [Hc Hr]. now rewrite Hc, IH.
Qed.

Lemma replaceCRLF_no_LF (s : string) :
  hasChar JsString.LF s = false -> JsString.replaceCRLF s = s.
Proof.
  induction s as [|c r IH]; [reflexivity|].
  cbn [hasChar]. intros H. apply orb_false_iff in H as [Hc Hr].
  cbn [JsString.replaceCRLF]. destruct r as [|d r']; [reflexivity|].
  cbn [hasChar] in Hr. apply orb_false_iff in Hr as [Hd Hr'].
  rewrite Hd, andb_false_r. rewrite IH; [reflexivity|].
  cbn [hasChar]. now rewrite Hd, Hr'.
Qed.

Lemma toCR_no_LF (s : string) : hasChar JsString.LF (toCR s) = false.
Proof.
  induction s as [|c r IH]; [reflexivity|].
  cbn [toCR hasChar]. rewrite IH, orb_false_r.
  destruct (JsString.is_newline c) eqn:E; [reflexivity|].
  destruct (Ascii.eqb_spec c JsString.LF) as [->|]; [discriminate|reflexivity].
Qed.

Lemma replaceCR_toCR (s : string) :
  hasChar JsString.CR s = false -> JsString.replaceCR (toCR s) = s.
Proof.
  induction s as [|c r IH]; [reflexivity|].
  cbn [hasChar toCR JsString.replaceCR]. intros H.
  apply orb_false_iff in H as [Hc Hr]. rewrite (IH Hr).
  destruct (JsString.is_newline c) eqn:E.
  - apply is_newline_LF in E. subst c. reflexivity.
  - now rewrite Hc.
Qed.

Lemma replaceCRLF_clean (s : string) :
  hasChar JsString.CR s = false -> JsString.replaceCRLF s = s.
Proof.
  induction s as [|c r IH]; [reflexivity|].
  cbn [hasChar]. intros H. apply orb_false_iff in H as [Hc Hr].
  cbn [JsString.replaceCRLF]. destruct r as [|d r']; [reflexivity|].
  rewrite Hc. cbn [andb]. now rewrite (IH Hr).
Qed.

(** X1: a payload written with Windows line endings, or with lone carriage
    returns, is parsed exactly as the same payload with line feeds. *)
Theorem parseSubtitles_line_endings (text format : string) (w : World)
    (Hcr : hasChar JsString.CR text = false) :
  parseSubtitles (toCRLF text) format w = parseSubtitles text format w
  /\ parseSubtitles (toCR text) format w = parseSubtitles text format w.
Proof.
  unfold parseSubtitles.
  rewrite (replaceCRLF_toCRLF text Hcr).
  rewrite (replaceCRLF_no_LF (toCR text) (toCR_no_LF text)).
  rewrite (replaceCR_toCR text Hcr).
  rewrite (replaceCRLF_clean text Hcr), (replaceCR_clean text Hcr).
  split; reflexivity.
Qed.

Lemma parseSubtitles_line_endings_witness :
  hasChar JsString.CR suffixPayload = false
  /\ parseSubtitles (toCRLF suffixPayload) "vtt" (construct bareHost)
     = parseSubtitles suffixPayload "vtt" (construct bareHost).
Proof.
  split; [reflexivity|].
  exact (proj1 (parseSubtitles_line_endings suffixPayload "vtt"
                  (construct bareHost) eq_refl)).
Defined.

(** ** What a match is made of *)

Lemma app_assoc_string (a b c : string) : (a ++ b) ++ c = a ++ (b ++ c).
Proof. induction a as [|x a IH]; simpl; [reflexivity|now rewrite IH]. Qed.

Lemma digitsN_splits (n : nat) (s ds rest : string) :
  Pattern.digitsN n s = Some (ds, rest) -> s = ds ++ rest.
Proof.
  revert s ds rest. induction n as [|k IH]; intros s ds rest; simpl.
  - intros [= <- <-]. reflexivity.
  - destruct s as [|c r]; [discriminate|].
    destruct (JsString.is_digit c); [|discriminate].
    destruct (Pattern.digitsN k r) as [[ds' rest']|] eqn:E; [|discriminate].
    intros [= <- <-]. simpl. now rewrite (IH _ _ _ E).
Qed.

Lemma lit_splits (a : ascii) (s r : string) :
  Pattern.lit a s = Some r -> s = String a r.
Proof.
  destruct s as [|c s']; simpl; [discriminate|].
  destruct (Ascii.eqb_spec c a) as [->|]; [|discriminate].
  now intros [= <-].
Qed.


Lemma hasChar_app (a : ascii) (s t : string) :
  hasChar a (s ++ t) = hasChar a s || hasChar a t.
Proof.
  induction s as [|c r IH]; simpl; [reflexivity|].
  now rewrite IH, orb_assoc.
Qed.

Lemma timestamp_splits (sep : ascii) (s t r : string) :
  Pattern.timestamp sep s = Some (t, r) ->
  s = t ++ r /\ hasChar sep t = true.
Proof.
  unfold Pattern.timestamp.
  destruct (Pattern.digitsN 2 s) as [[hh r1]|] eqn:E1; [|discriminate].
  destruct (Pattern.lit ":" r1) as [r2|] eqn:E2; [|discriminate].
  destruct (Pattern.digitsN 2 r2) as [[mm r3]|] eqn:E3; [|discriminate].
  destruct (Pattern.lit ":" r3) as [r4|] eqn:E4; [|discriminate].
  destruct (Pattern.digitsN 2 r4) as [[ss r5]|] eqn:E5; [|discriminate].
  destruct (Pattern.lit sep r5) as [r6|] eqn:E6; [|discriminate].
  destruct (Pattern.digitsN 3 r6) as [[ms r7]|] eqn:E7; [|discriminate].
  intros [= <- <-].
  apply digitsN_splits in E1, E3, E5, E7. apply lit_splits in E2, E4, E6.
  subst. split.
  - repeat (rewrite !app_assoc_string; simpl). reflexivity.
  - repeat (rewrite !hasChar_app; cbn [hasChar]).
    rewrite Ascii.eqb_refl.
    repeat (rewrite ?orb_true_r; cbn [orb]). reflexivity.
Qed.



Lemma spanDigits_splits (s : string) :
  s = fst (JsString.spanDigits s) ++ snd (JsString.spanDigits s).
Proof.
  induction s as [|c r IH]; simpl; [reflexivity|].
  destruct (JsString.is_digit c); [|reflexivity].
  destruct (JsString.spanDigits r) as [ds rest]. simpl in *. now rewrite <- IH.
Qed.

(** ** Occurrences *)






(** The two patterns need their own separator in the timestamps. *)
Lemma vttAt_needs_period (s : string) (m : Pattern.Match) :
  Pattern.vttAt s = Some m -> hasChar "." s = true.
Proof.
  unfold Pattern.vttAt.
  destruct (Pattern.timestamp "." s) as [[t1 r1]|] eqn:E1; [|discriminate].
  intros _. apply timestamp_splits in E1 as [-> H].
  now rewrite hasChar_app, H.
Qed.

Lemma srtAt_needs_comma (s : string) (m : Pattern.Match) :
  Pattern.srtAt s = Some m -> hasChar "," s = true.
Proof.
  unfold Pattern.srtAt. rewrite (spanDigits_splits s) at 2.
  destruct (JsString.spanDigits s) as [ds r0]. cbn [fst snd].
  destruct ds as [|d ds]; [discriminate|].
  destruct (Pattern.lit JsString.LF r0) as [r1|] eqn:E1; [|discriminate].
  destruct (Pattern.timestamp "," r1) as [[t1 r2]|] eqn:E2; [|discriminate].
  intros _.
  apply lit_splits in E1 as ->.
  apply timestamp_splits in E2 as [-> H].
  rewrite hasChar_app. cbn [hasChar]. rewrite hasChar_app, H.
  now rewrite !orb_true_r.
Qed.

(** A scan finds nothing in a text that lacks what each match needs. *)
Section NothingToFind.

Variable at_ : string -> option Pattern.Match.
Variable needed : string -> bool.
Hypothesis needed_tail :
  forall c r, needed (String c r) = false -> needed r = false.
Hypothesis at_needs : forall s m, at_ s = Some m -> needed s = true.

Lemma execAll_nothing (s : string) (skip : nat) :
  needed s = false -> Pattern.execAll at_ skip s = [].
Proof.
  revert skip. induction s as [|c r IH]; intros skip Hs.
  - destruct skip; simpl; [|reflexivity].
    destruct (at_ "") as [m|] eqn:E; [|reflexivity].
    apply at_needs in E. congruence.
  - pose proof (needed_tail c r Hs) as Hr.
    destruct skip as [|k]; simpl.
    + destruct (at_ (String c r)) as [m|] eqn:E.
      * apply at_needs in E. congruence.
      * now apply IH.
    + now apply IH.
Qed.

End NothingToFind.


Lemma hasChar_tail (a c : ascii) (r : string) :
  hasChar a (String c r) = false -> hasChar a r = false.
Proof. cbn [hasChar]. intros H. now apply orb_false_iff in H. Qed.

(** ** Normalizing line endings creates nothing *)

Lemma hasChar_replaceCR (a : ascii) (s : string) :
  a <> JsString.LF ->
  hasChar a s = false -> hasChar a (JsString.replaceCR s) = false.
Proof.
  intros Ha. induction s as [|c r IH]; [reflexivity|].
  cbn [hasChar JsString.replaceCR]. intros H.
  apply orb_false_iff in H as [Hc Hr]. rewrite (IH Hr), orb_false_r.
  destruct (Ascii.eqb c JsString.CR); [|exact Hc].
  destruct (Ascii.eqb_spec JsString.LF a); [congruence|reflexivity].
Qed.

Lemma hasChar_replaceCRLF (a : ascii) (s : string) :
  a <> JsString.LF ->
  hasChar a s = false -> hasChar a (JsString.replaceCRLF s) = false.
Proof.
  intros Ha. revert s.
  assert (Hboth : forall s,
            (hasChar a s = false -> hasChar a (JsString.replaceCRLF s) = false)
            /\ (forall c, hasChar a (String c s) = false ->
                          hasChar a (JsString.replaceCRLF (String c s)) = false)).
  { induction s as [|d r [IH1 IH2]].
    - split; [reflexivity|]. intros c H. exact H.
    - split; [apply IH2|].
      intros c H. cbn [hasChar] in H.
      apply orb_false_iff in H as [Hc H]. pose proof H as Hdr.
      cbn [hasChar] in H. apply orb_false_iff in H as [Hd Hr].
      cbn [JsString.replaceCRLF].
      destruct (Ascii.eqb c JsString.CR && Ascii.eqb d JsString.LF).
      + cbn [hasChar]. rewrite (IH1 Hr), orb_false_r.
        destruct (Ascii.eqb_spec JsString.LF a); [congruence|reflexivity].
      + cbn [hasChar]. rewrite Hc. cbn [orb]. apply IH2. exact Hdr. }
  intros s. apply Hboth.
Qed.








(** ** What [parseSubtitles] leaves in the cue list *)

Lemma pushCue_completes (m : Pattern.Match) (w : World) :
  completes (pushCue m) w = true.
Proof.
  unfold pushCue, completes, bind, lift.
  destruct (parseTime_string_total (Pattern.m_start m)) as [st ->].
  destruct (parseTime_string_total (Pattern.m_end m)) as [en ->].
  reflexivity.
Qed.

(** Pushing cues cannot throw: the extractor hands [parseTime] strings. *)
Lemma pushAll_completes (ms : list Pattern.Match) (w : World) :
  completes (pushAll ms) w = true.
Proof.
  revert w. induction ms as [|m rest IH]; intros w; [reflexivity|].
  cbn [pushAll]. rewrite completes_bind.
  rewrite (completes_normal (pushCue m) w (pushCue_completes m w)).
  apply IH.
Qed.

(** The matches [parseSubtitles] pushes for a payload. *)
Lemma parseSubtitles_cues (text format : string) (w : World) :
  cues (this (after (parseSubtitles text format) w))
  = cues (this (after
       (pushAll (Pattern.execAll
                   (if String.eqb format "srt" then Pattern.srtAt
                    else Pattern.vttAt) 0
                   (JsString.replaceCR (JsString.replaceCRLF text))))
       (with_this (set_cues []) w))).
Proof.
  unfold parseSubtitles. rewrite after_assign_bind.
  set (text' := JsString.replaceCR (JsString.replaceCRLF text)).
  set (w0 := with_this (set_cues []) w).
  rewrite after_bind.
  destruct (String.eqb format "srt"); unfold parseSRT, parseVTT;
    match goal with
    | |- context [pushAll ?ms w0] =>
        rewrite (completes_normal (pushAll ms) w0 (pushAll_completes ms w0))
    end;
    match goal with
    | |- context [after ?m ?w2] =>
        assert (Hrest : Preserves engineKept m) by frame;
        destruct (Hrest w2) as (_ & Hc & _); exact Hc
    end.
Qed.



(** X3: each format needs its own separator: a payload without a comma
    yields no cue when it is parsed as [srt], and a payload without a
    period yields no cue when it is parsed as anything else. *)
Theorem wrong_separator_no_cues (text format : string) (w : World)
    (Hno : hasChar (if String.eqb format "srt" then "," else ".")%char text
           = false) :
  cues (this (after (parseSubtitles text format) w)) = [].
Proof.
  rewrite parseSubtitles_cues.
  destruct (String.eqb format "srt").
  - rewrite (execAll_nothing Pattern.srtAt (hasChar ",") (hasChar_tail ",")
               srtAt_needs_comma _ 0).
    + reflexivity.
    + apply hasChar_replaceCR; [discriminate|].
      apply hasChar_replaceCRLF; [discriminate|exact Hno].
  - rewrite (execAll_nothing Pattern.vttAt (hasChar ".") (hasChar_tail ".")
               vttAt_needs_period _ 0).
    + reflexivity.
    + apply hasChar_replaceCR; [discriminate|].
      apply hasChar_replaceCRLF; [discriminate|exact Hno].
Qed.

Lemma wrong_separator_no_cues_witness :
  hasChar "," suffixPayload = false
  /\ cues (this (after (parseSubtitles suffixPayload "srt")
                       (construct bareHost))) = [].
Proof.
  split; [reflexivity|].
  exact (wrong_separator_no_cues suffixPayload "srt" (construct bareHost)
           eq_refl).
Defined.

(** ** The text of a cue *)

Lemma trimStart_idempotent (s : string) :
  JsString.trimStart (JsString.trimStart s) = JsString.trimStart s.
Proof.
  induction s as [|c r IH]; [reflexivity|].
  cbn [JsString.trimStart]. destruct (JsString.is_space c) eqn:E; [exact IH|].
  cbn [JsString.trimStart]. now rewrite E.
Qed.

Lemma trimEnd_cons (c : ascii) (r : string) :
  JsString.trimEnd (String c r)
  = match JsString.trimEnd r with
    | EmptyString => if JsString.is_space c then EmptyString
                     else String c EmptyString
    | r' => String c r'
    end.
Proof. reflexivity. Qed.

Lemma trimEnd_idempotent (s : string) :
  JsString.trimEnd (JsString.trimEnd s) = JsString.trimEnd s.
Proof.
  induction s as [|c r IH]; [reflexivity|].
  rewrite trimEnd_cons. destruct (JsString.trimEnd r) as [|d t] eqn:E.
  - destruct (JsString.is_space c) eqn:Ec; [reflexivity|].
    rewrite trimEnd_cons. cbn [JsString.trimEnd]. now rewrite Ec.
  - rewrite trimEnd_cons, IH. reflexivity.
Qed.

(** Trimming the end keeps the first character, when anything is left. *)
Lemma trimEnd_head (s : string) (d : ascii) (t : string) :
  JsString.trimEnd s = String d t -> exists t', s = String d t'.
Proof.
  destruct s as [|c r]; [discriminate|].
  rewrite trimEnd_cons.
  destruct (JsString.trimEnd r); [destruct (JsString.is_space c)|];
    intros [= <- _]; eauto.
Qed.

Lemma trimStart_of_trimEnd (s : string) :
  JsString.trimStart s = s ->
  JsString.trimStart (JsString.trimEnd s) = JsString.trimEnd s.
Proof.
  intros Hs. destruct (JsString.trimEnd s) as [|d t] eqn:E; [reflexivity|].
  destruct (trimEnd_head s d t E) as [t' ->].
  cbn [JsString.trimStart] in Hs |- *.
  destruct (JsString.is_space d); [|reflexivity].
  exfalso. clear E.
  assert (Hlen : String.length (JsString.trimStart t') <= String.length t').
  { clear. induction t' as [|c r IH]; simpl; [lia|].
    destruct (JsString.is_space c); simpl; lia. }
  rewrite Hs in Hlen. simpl in Hlen. lia.
Qed.

Lemma trim_idempotent (s : string) : trimmed (JsString.trim s).
Proof.
  unfold trimmed, JsString.trim.
  rewrite (trimStart_of_trimEnd _ (trimStart_idempotent s)).
  apply trimEnd_idempotent.
Qed.

Lemma hasBlankLine_cons (c : ascii) (r : string) :
  hasBlankLine (String c r)
  = (JsString.is_newline c
     && match r with
        | String d _ => JsString.is_newline d
        | EmptyString => false
        end)
    || hasBlankLine r.
Proof. reflexivity. Qed.

Lemma hasBlankLine_trimStart (s : string) :
  hasBlankLine s = false -> hasBlankLine (JsString.trimStart s) = false.
Proof.
  induction s as [|c r IH]; [reflexivity|].
  intros H. cbn [JsString.trimStart].
  destruct (JsString.is_space c); [|exact H].
  rewrite hasBlankLine_cons in H. apply orb_false_iff in H as [_ H]. auto.
Qed.

Lemma hasBlankLine_trimEnd (s : string) :
  hasBlankLine s = false -> hasBlankLine (JsString.trimEnd s) = false.
Proof.
  induction s as [|c r IH]; [reflexivity|].
  rewrite hasBlankLine_cons. intros H.
  apply orb_false_iff in H as [Hc Hr]. specialize (IH Hr).
  rewrite trimEnd_cons. destruct (JsString.trimEnd r) as [|d t] eqn:E.
  - destruct (JsString.is_space c); [reflexivity|].
    rewrite hasBlankLine_cons. now rewrite andb_false_r.
  - rewrite hasBlankLine_cons, IH, orb_false_r.
    destruct (trimEnd_head r d t E) as [t' ->]. exact Hc.
Qed.

(** The text block of a match stops before the first empty line. *)
Lemma block_no_blank_line (s : string) :
  hasBlankLine (fst (Pattern.block s)) = false.
Proof.
  induction s as [|c r IH]; [reflexivity|].
  cbn [Pattern.block].
  destruct (Pattern.boundary (String c r)) eqn:B; [reflexivity|].
  destruct (Pattern.block r) as [t rest] eqn:E. cbn [fst] in *.
  rewrite hasBlankLine_cons, IH, orb_false_r.
  destruct (JsString.is_newline c) eqn:Ec; [|reflexivity].
  cbn [andb].
  destruct r as [|d r']; cbn [Pattern.boundary] in B.
  - now rewrite Ec in B.
  - rewrite Ec in B. cbn [andb] in B.
    cbn [Pattern.block] in E.
    destruct (Pattern.boundary (String d r')).
    + now injection E as <- _.
    + destruct (Pattern.block r') as [t' rest'].
      injection E as <- _. exact B.
Qed.

(** What one push appends. *)
Lemma pushCue_appends (m : Pattern.Match) (w : World) :
  exists st en,
    parseTime (JStr (Pattern.m_start m)) = Normal st
    /\ parseTime (JStr (Pattern.m_end m)) = Normal en
    /\ pushCue m w
       = (Normal tt,
          with_this (fun me =>
                       set_cues (cues me
                                 ++ [ {| cue_ref := nextRef w;
                                         cue_start := st; cue_end := en;
                                         cue_text :=
                                           JsString.trim (Pattern.m_text m) |} ])
                                me)
            (with_nextRef (S (nextRef w)) w)).
Proof.
  destruct (parseTime_string_total (Pattern.m_start m)) as [st Hst].
  destruct (parseTime_string_total (Pattern.m_end m)) as [en Hen].
  exists st, en. split; [exact Hst|]. split; [exact Hen|].
  unfold pushCue, bind, lift. rewrite Hst, Hen. reflexivity.
Qed.

(** A property of cue texts that every pushed text has holds of the whole
    list afterwards. *)
Lemma pushAll_texts (P : string -> Prop) (ms : list Pattern.Match) (w : World) :
  Forall (fun m => P (JsString.trim (Pattern.m_text m))) ms ->
  Forall (fun c => P (cue_text c)) (cues (this w)) ->
  Forall (fun c => P (cue_text c)) (cues (this (after (pushAll ms) w))).
Proof.
  revert w. induction ms as [|m rest IH]; intros w Hms Hw; [exact Hw|].
  inversion Hms as [|? ? Hm Hrest]; subst.
  cbn [pushAll]. rewrite after_bind.
  destruct (pushCue_appends m w) as (st & en & _ & _ & ->).
  apply IH; [exact Hrest|]. simpl.
  apply Forall_app. split; [exact Hw|]. constructor; [exact Hm|constructor].
Qed.

(** Every match of a scan is a match of the pattern somewhere. *)
Lemma execAll_matches (at_ : string -> option Pattern.Match)
    (Q : Pattern.Match -> Prop) :
  (forall s m, at_ s = Some m -> Q m) ->
  forall s skip, Forall Q (Pattern.execAll at_ skip s).
Proof.
  intros Hat. induction s as [|c r IH]; intros skip.
  - destruct skip; simpl; [|constructor].
    destruct (at_ "") eqn:E; [|constructor].
    constructor; [now apply (Hat "")|constructor].
  - destruct skip as [|k]; simpl; [|apply IH].
    destruct (at_ (String c r)) eqn:E; [|apply IH].
    constructor; [now apply (Hat (String c r))|apply IH].
Qed.

Lemma vttAt_text (s : string) (m : Pattern.Match) :
  Pattern.vttAt s = Some m -> exists r, Pattern.m_text m = fst (Pattern.block r).
Proof.
  unfold Pattern.vttAt.
  destruct (Pattern.timestamp "." s) as [[t1 r1]|]; [|discriminate].
  destruct (Pattern.spaces1 r1) as [r2|]; [|discriminate].
  destruct (Pattern.lits "-->" r2) as [r3|]; [|discriminate].
  destruct (Pattern.spaces1 r3) as [r4|]; [|discriminate].
  destruct (Pattern.timestamp "." r4) as [[t2 r5]|]; [|discriminate].
  destruct (Pattern.restOfLine r5) as [r6|]; [|discriminate].
  destruct (Pattern.block r6) as [txt rest] eqn:E.
  intros [= <-]. exists r6. now rewrite E.
Qed.

Lemma srtAt_text (s : string) (m : Pattern.Match) :
  Pattern.srtAt s = Some m -> exists r, Pattern.m_text m = fst (Pattern.block r).
Proof.
  unfold Pattern.srtAt.
  destruct (JsString.spanDigits s) as [[|d ds] r0]; [discriminate|].
  destruct (Pattern.lit JsString.LF r0) as [r1|]; [|discriminate].
  destruct (Pattern.timestamp "," r1) as [[t1 r2]|]; [|discriminate].
  destruct (Pattern.lits " --> " r2) as [r3|]; [|discriminate].
  destruct (Pattern.timestamp "," r3) as [[t2 r4]|]; [|discriminate].
  destruct (Pattern.lit JsString.LF r4) as [r5|]; [|discriminate].
  destruct (Pattern.block r5) as [txt rest] eqn:E.
  intros [= <-]. exists r5. now rewrite E.
Qed.

(** X4: whatever the payload and the format, every cue that
    [parseSubtitles] installs has a text without leading or trailing white
    space and without an empty line. *)
Theorem cue_texts_clean (text format : string) (w : World) :
  Forall (fun c => trimmed (cue_text c) /\ hasBlankLine (cue_text c) = false)
         (cues (this (after (parseSubtitles text format) w))).
Proof.
  rewrite parseSubtitles_cues.
  apply (pushAll_texts (fun t => trimmed t /\ hasBlankLine t = false));
    [|constructor].
  assert (Hclean : forall r,
            trimmed (JsString.trim (fst (Pattern.block r)))
            /\ hasBlankLine (JsString.trim (fst (Pattern.block r))) = false).
  { intros r. split; [apply trim_idempotent|].
    apply hasBlankLine_trimEnd, hasBlankLine_trimStart, block_no_blank_line. }
  destruct (String.eqb format "srt"); apply execAll_matches; intros s m Hm.
  - destruct (srtAt_text s m Hm) as [r ->]. apply Hclean.
  - destruct (vttAt_text s m Hm) as [r ->]. apply Hclean.
Qed.

(** ** The scan of [update] *)

Lemma find_first_match {A : Type} (f : A -> bool) (pre post : list A) (c : A) :
  Forall (fun x => f x = false) pre -> f c = true ->
  find f (pre ++ c :: post) = Some c.
Proof.
  intros Hpre Hc. induction Hpre as [|x pre Hx _ IH]; simpl.
  - now rewrite Hc.
  - now rewrite Hx.
Qed.

Lemma find_no_match {A : Type} (f : A -> bool) (l : list A) :
  Forall (fun x => f x = false) l -> find f l = None.
Proof.
  intros H. induction H as [|x l Hx _ IH]; simpl; [reflexivity|].
  now rewrite Hx.
Qed.

Lemma differs_false_ref (active : option Cue) (c : Cue) :
  differs active c = false -> option_map cue_ref active = Some (cue_ref c).
Proof.
  destruct active as [a|]; simpl; [|discriminate].
  unfold same_object. intros H. apply negb_false_iff, Nat.eqb_eq in H.
  now rewrite H.
Qed.

(** X5: on an enabled instance with its surface, [update] makes the first
    cue in file order whose interval contains the time the active cue.  If
    that cue was not the active one already, its text is written with
    [<br>] for the line breaks and the surface is unhidden; if it was,
    nothing at all changes. *)
Theorem update_shows_first_match (timeMs : float) (w : World)
    (pre post : list Cue) (c : Cue)
    (Hen : isEnabled (this w) = true)
    (Hcues : cues (this w) = (pre ++ c :: post)%list)
    (Hpre : Forall (fun x => covers timeMs x = false) pre)
    (Hc : covers timeMs c = true)
    (Hsurface : isSome (innerOverlay (this w)) = true) :
  let w1 := after (update timeMs) w in
  completes (update timeMs) w = true
  /\ option_map cue_ref (activeCue (this w1)) = Some (cue_ref c)
  /\ (differs (activeCue (this w)) c = true ->
      activeCue (this w1) = Some c
      /\ option_map i_innerHTML (innerOverlay (this w1))
         = Some (htmlOf (cue_text c))
      /\ option_map i_hide (innerOverlay (this w1)) = Some false)
  /\ (differs (activeCue (this w)) c = false -> w1 = w).
Proof.
  cbv zeta.
  pose proof (find_first_match (covers timeMs) pre post c Hpre Hc) as Hfind.
  rewrite <- Hcues in Hfind.
  assert (Hlen : (List.length (cues (this w)) =? 0)%nat = false).
  { rewrite Hcues, length_app. simpl. apply Nat.eqb_neq. lia. }
  unfold completes, after, update, bind, read. simpl.
  rewrite Hen, Hlen, Hfind. simpl.
  destruct (innerOverlay (this w)) as [il|] eqn:Inner; [|discriminate].
  destruct (differs (activeCue (this w)) c) eqn:Diff.
  - unfold writeInnerHTML, onInner, emit, assign, bind. simpl.
    rewrite Inner. simpl. repeat split; discriminate.
  - simpl. split; [reflexivity|]. split; [now apply differs_false_ref|].
    split; [discriminate|reflexivity].
Qed.

Lemma update_shows_first_match_witness :
  covers 2750 secondCue = true
  /\ covers 2750 overlappingCue = true
  /\ activeCue (this (after (update 2750) playing)) = Some secondCue
  /\ option_map i_innerHTML (innerOverlay (this (after (update 2750) playing)))
     = Some "two<br>lines".
Proof.
  split; [reflexivity|]. split; [reflexivity|].
  pose proof (update_shows_first_match 2750 playing [firstCue]
                [overlappingCue] secondCue eq_refl eq_refl
                (Forall_cons firstCue
                   (eq_refl : covers 2750 firstCue = false) (Forall_nil _))
                eq_refl eq_refl) as H.
  cbv zeta in H. destruct H as (_ & _ & H & _).
  destruct (H eq_refl) as (H1 & H2 & _). split; [exact H1|exact H2].
Defined.

(** X6: on an enabled instance with cues and its surface, at a time that
    no interval contains, [update] leaves no cue active; a cue that was
    active is cleared from the surface, which is hidden, and with no cue
    active before nothing at all changes. *)
Theorem update_clears_outside_cues (timeMs : float) (w : World)
    (Hen : isEnabled (this w) = true)
    (Hsome : cues (this w) <> [])
    (Hnone : Forall (fun x => covers timeMs x = false) (cues (this w)))
    (Hsurface : isSome (innerOverlay (this w)) = true) :
  let w1 := after (update timeMs) w in
  completes (update timeMs) w = true
  /\ activeCue (this w1) = None
  /\ (activeCue (this w) <> None ->
      option_map i_innerHTML (innerOverlay (this w1)) = Some ""
      /\ option_map i_hide (innerOverlay (this w1)) = Some true)
  /\ (activeCue (this w) = None -> w1 = w).
Proof.
  cbv zeta.
  pose proof (find_no_match (covers timeMs) _ Hnone) as Hfind.
  assert (Hlen : (List.length (cues (this w)) =? 0)%nat = false).
  { destruct (cues (this w)); [congruence|reflexivity]. }
  unfold completes, after, update, bind, read. simpl.
  rewrite Hen, Hlen, Hfind. simpl.
  destruct (innerOverlay (this w)) as [il|] eqn:Inner; [|discriminate].
  destruct (activeCue (this w)) as [a|] eqn:Active.
  - unfold writeInnerHTML, onInner, emit, assign, bind. simpl.
    rewrite Inner. simpl. repeat split; discriminate.
  - simpl. split; [reflexivity|]. split; [exact Active|].
    split; [congruence|reflexivity].
Qed.

Lemma update_clears_outside_cues_witness :
  let w := after (update 1500) playing in
  activeCue (this w) = Some firstCue
  /\ activeCue (this (after (update 500) w)) = None
  /\ option_map i_innerHTML (innerOverlay (this (after (update 500) w)))
     = Some "".
Proof.
  cbv zeta. split; [reflexivity|].
  pose proof (update_clears_outside_cues 500 (after (update 1500) playing)
                eq_refl ltac:(discriminate)
                (Forall_cons firstCue
                   (eq_refl : covers 500 firstCue = false)
                   (Forall_cons secondCue
                      (eq_refl : covers 500 secondCue = false)
                      (Forall_cons overlappingCue
                         (eq_refl : covers 500 overlappingCue = false)
                         (Forall_nil _))))
                eq_refl) as H.
  cbv zeta in H. destruct H as (_ & H1 & H2 & _).
  split; [exact H1|]. exact (proj1 (H2 ltac:(discriminate))).
Defined.

(** ** Text is on the surface only while a cue is active *)

#[export] Instance staysQuiet_frame : Frame staysQuiet.
Proof.
  split.
  - intros w H. exact H.
  - intros w1 w2 w3 H12 H23 H. auto.
Qed.

(** A call that leaves the world blank-while-idle outright. *)
Lemma staysQuiet_of_quiet {A : Type} (m : M A) :
  (forall w, quietWhenIdle (after m w)) -> Preserves staysQuiet m.
Proof. intros H w _. apply H. Qed.

(** Writes that touch neither the active cue nor the inner node. *)
Lemma staysQuiet_assign (f : Manager -> Manager) :
  (forall me, activeCue (f me) = activeCue me) ->
  (forall me, innerOverlay (f me) = innerOverlay me) ->
  Preserves staysQuiet (assign f).
Proof.
  intros Ha Hi w Hq. unfold quietWhenIdle, after, assign in *. simpl.
  rewrite Ha, Hi. exact Hq.
Qed.

Lemma staysQuiet_emit (e : Event) : Preserves staysQuiet (emit e).
Proof. intros w Hq. exact Hq. Qed.

Lemma staysQuiet_freshRef : Preserves staysQuiet freshRef.
Proof. intros w Hq. exact Hq. Qed.

Lemma staysQuiet_enqueue (format : string) :
  Preserves staysQuiet (enqueue format).
Proof. intros w Hq. exact Hq. Qed.

Lemma staysQuiet_onOverlay (f : OverlayEl -> OverlayEl) :
  Preserves staysQuiet (onOverlay f).
Proof.
  apply preserves_onOverlay. intros w el E Hq. exact Hq.
Qed.

(** A write to the inner node that keeps its markup. *)
Lemma staysQuiet_onInner (f : InnerEl -> InnerEl) :
  (forall el, i_innerHTML (f el) = i_innerHTML el) ->
  Preserves staysQuiet (onInner f).
Proof.
  intros Hf. apply preserves_onInner. intros w el E Hq.
  unfold quietWhenIdle in *. simpl. intros Ha il [= <-].
  rewrite Hf. exact (Hq Ha el E).
Qed.

(** Blanking the surface. *)
Lemma staysQuiet_blank : Preserves staysQuiet (writeInnerHTML "").
Proof.
  apply staysQuiet_of_quiet. intros w.
  unfold quietWhenIdle, after, writeInnerHTML, onInner, emit, bind.
  destruct (innerOverlay (this w)) as [el|] eqn:E; simpl.
  - intros _ il [= <-]. reflexivity.
  - rewrite E. discriminate.
Qed.

(** The last statement of [applyStyles]: the text is written only when a
    cue is active. *)
Lemma staysQuiet_rerender :
  Preserves staysQuiet
    (active <- read activeCue ;;
     match active with
     | Some c => writeInnerHTML (htmlOf (cue_text c))
     | None => ret tt
     end).
Proof.
  intros w Hq. unfold after, bind, read. simpl.
  destruct (activeCue (this w)) as [c|] eqn:Active; [|exact Hq].
  unfold quietWhenIdle, writeInnerHTML, onInner, emit, bind.
  destruct (innerOverlay (this w)); simpl; congruence.
Qed.

#[export] Hint Extern 1 (Preserves staysQuiet (assign _)) =>
  (apply staysQuiet_assign; reflexivity) : frames.
#[export] Hint Extern 1 (Preserves staysQuiet (onInner _)) =>
  (apply staysQuiet_onInner; reflexivity) : frames.
#[export] Hint Resolve staysQuiet_emit staysQuiet_freshRef staysQuiet_enqueue
  staysQuiet_onOverlay staysQuiet_blank staysQuiet_rerender : frames.

Lemma staysQuiet_applyStyles (arg : option Settings) :
  Preserves staysQuiet (applyStyles arg).
Proof. unfold applyStyles. frame. Qed.

#[export] Hint Resolve staysQuiet_applyStyles : frames.

Lemma staysQuiet_update (timeMs : float) : Preserves staysQuiet (update timeMs).
Proof.
  intros w Hq. unfold after, update, bind, read. simpl.
  destruct (negb (isEnabled (this w))
            || (List.length (cues (this w)) =? 0)%nat); [exact Hq|].
  destruct (find (covers timeMs) (cues (this w))) as [c|].
  - destruct (differs (activeCue (this w)) c); [|exact Hq].
    unfold quietWhenIdle, writeInnerHTML, onInner, emit, assign, bind. simpl.
    destruct (innerOverlay (this w)); simpl; congruence.
  - destruct (activeCue (this w)) eqn:Active; [|exact Hq].
    unfold quietWhenIdle, writeInnerHTML, onInner, emit, assign, bind. simpl.
    destruct (innerOverlay (this w)) as [el|] eqn:E; simpl.
    + intros _ il [= <-]. reflexivity.
    + rewrite E. discriminate.
Qed.

Lemma staysQuiet_pushAll (ms : list Pattern.Match) :
  Preserves staysQuiet (pushAll ms).
Proof.
  induction ms as [|m rest IH]; simpl; [frame|]. unfold pushCue. frame.
Qed.

#[export] Hint Resolve staysQuiet_update staysQuiet_pushAll : frames.

Lemma staysQuiet_respond (i : nat) (callback : string -> M unit) :
  (forall format, Preserves staysQuiet (callback format)) ->
  Preserves staysQuiet (respond i callback).
Proof.
  intros Hc w. unfold after, respond.
  destruct (nth_error (pending w) i) as [format|]; [|apply frame_refl].
  exact (Hc format (with_pending (removeNth i) w)).
Qed.

(** The last four assignments of [destroy]. *)
Lemma staysQuiet_release :
  Preserves staysQuiet
    (assign (set_overlay None) ;;
     assign (set_innerOverlay None) ;;
     assign (set_cues []) ;;
     assign (set_activeCue None)).
Proof.
  apply staysQuiet_of_quiet. intros w. unfold quietWhenIdle. simpl.
  discriminate.
Qed.

#[export] Hint Resolve staysQuiet_release : frames.

Lemma staysQuiet_run (c : Call) : Preserves staysQuiet (run c).
Proof.
  destruct c; simpl.
  - unfold init. apply preserves_bind; [frame|]. intros [el|]; [frame|].
    apply staysQuiet_of_quiet. intros w. unfold quietWhenIdle.
    simpl. intros _ il [= <-]. reflexivity.
  - unfold loadTrack. frame.
  - unfold disable. frame.
  - unfold parseSubtitles, parseSRT, parseVTT. frame.
  - unfold parseSRT. frame.
  - unfold parseVTT. frame.
  - unfold loadSettings. frame.
  - frame.
  - frame.
  - unfold destroy, disable. frame.
  - apply staysQuiet_respond. intros format.
    unfold onSuccess, parseSubtitles, parseSRT, parseVTT. frame.
  - apply staysQuiet_respond. intros format. unfold onError. frame.
  - intros w Hq. exact Hq.
Qed.

Lemma construct_quiet (h : Host) : quietWhenIdle (construct h).
Proof. intros _ il [= <-]. reflexivity. Qed.

Lemma runAll_quiet (cs : list Call) (w : World) :
  quietWhenIdle w -> quietWhenIdle (runAll cs w).
Proof.
  revert w. induction cs as [|c rest IH]; intros w Hw; [exact Hw|].
  apply IH. now apply (staysQuiet_run c w).
Qed.

(** X7: in every state an instance can reach, whatever was called and
    however the calls completed, the surface holds no text while no cue is
    active. *)
Theorem idle_surface_is_blank (w : World) (il : InnerEl)
    (Hreach : reachable w)
    (Hidle : activeCue (this w) = None)
    (Hinner : innerOverlay (this w) = Some il) :
  i_innerHTML il = "".
Proof.
  destruct Hreach as (h & cs & ->).
  exact (runAll_quiet cs (construct h) (construct_quiet h) Hidle il Hinner).
Qed.

Lemma idle_surface_is_blank_witness :
  activeCue (this shownAndCleared) = None
  /\ innerOverlay (this shownAndCleared) = Some clearedInner
  /\ renders (trace shownAndCleared) = 2
  /\ i_innerHTML clearedInner = "".
Proof.
  split; [reflexivity|]. split; [reflexivity|]. split; [reflexivity|].
  apply (idle_surface_is_blank shownAndCleared clearedInner).
  - exists bareHost. eexists. reflexivity.
  - reflexivity.
  - reflexivity.
Defined.

(** ** Ticks that do nothing *)

Lemma update_idle (timeMs : float) (w : World) :
  isEnabled (this w) = false \/ cues (this w) = [] ->
  update timeMs w = (Normal tt, w).
Proof.
  intros H. unfold update, bind, read. simpl.
  destruct H as [-> | ->]; [reflexivity|].
  now rewrite orb_true_r.
Qed.

Lemma destroy_disables (w : World) : isEnabled (this (after destroy w)) = false.
Proof.
  destruct w as [[o i cs ac st en] h tr p n].
  destruct o as [[d t b l r j [|]]|], i; reflexivity.
Qed.

(** X8: [update] does nothing at all, at any time, on an instance that was
    just disabled or destroyed, and on one for which [loadTrack] was just
    called: until a response installs cues, ticks change neither fields
    nor surface nor trace. *)
Theorem update_idle_after (timeMs : float) (w : World) :
  update timeMs (after disable w) = (Normal tt, after disable w)
  /\ update timeMs (after destroy w) = (Normal tt, after destroy w)
  /\ forall track item mediaSource auth,
       update timeMs (after (loadTrack track item mediaSource auth) w)
       = (Normal tt, after (loadTrack track item mediaSource auth) w).
Proof.
  split; [|split].
  - apply update_idle. left. apply (disable_shape w).
  - apply update_idle. left. apply destroy_disables.
  - intros track item mediaSource auth. apply update_idle. right.
    apply (loadTrack_shape track item mediaSource auth w).
Qed.

(** ** Appearance resolver *)

(** X9: on an instance with both nodes [applyStyles] never throws, and it
    leaves the two nodes exactly as the configuration resolves: every
    style property is rewritten, and the text is rewritten when a cue is
    active. *)
Theorem applyStyles_resolves (arg : option Settings) (w : World)
    (o : OverlayEl) (il : InnerEl)
    (Ho : overlay (this w) = Some o)
    (Hi : innerOverlay (this w) = Some il) :
  applyStyles arg w = (Normal tt, restyledWorld arg o il w).
Proof. exact (applyStyles_run arg w o il Ho Hi). Qed.

Lemma applyStyles_resolves_witness :
  applyStyles (Some (onlySize "large")) (after (update 2750) playing)
  = (Normal tt,
     restyledWorld (Some (onlySize "large"))
       newOverlay
       (set_hide false (set_innerHTML "two<br>lines" newInner))
       (after (update 2750) playing))
  /\ option_map i_fontSize
       (innerOverlay (this (after (applyStyles (Some (onlySize "large")))
                                 (after (update 2750) playing))))
     = Some (Css "4.5em").
Proof.
  split; [|reflexivity].
  exact (applyStyles_resolves (Some (onlySize "large"))
           (after (update 2750) playing) newOverlay
           (set_hide false (set_innerHTML "two<br>lines" newInner))
           eq_refl eq_refl).
Defined.

(** X10: [applyStyles] is idempotent on the instance: a second call with
    the same argument leaves every field and both nodes as the first call
    left them, with or without the surface. *)
Theorem applyStyles_idempotent (arg : option Settings) (w : World) :
  this (after (applyStyles arg) (after (applyStyles arg) w))
  = this (after (applyStyles arg) w).
Proof.
  destruct (innerOverlay (this w)) as [il|] eqn:Hi.
  - destruct (overlay (this w)) as [o|] eqn:Ho.
    + unfold after at 2 3. rewrite (applyStyles_run arg w o il Ho Hi).
      cbn [snd]. unfold after.
      rewrite (applyStyles_run arg (restyledWorld arg o il w)
                 (resolvedOverlay (confOf arg w) o)
                 (resolvedInner (confOf arg w) (activeCue (this w)) il)
                 eq_refl eq_refl).
      cbn [snd]. unfold restyledWorld. cbn [this with_trace with_this].
      assert (Hconf : confOf arg
                (with_trace
                   (fun tr => match activeCue (this w) with
                              | Some c => SetInnerHTML (htmlOf (cue_text c)) :: tr
                              | None => tr
                              end)
                   (with_this
                      (fun me =>
                         {| overlay := Some (resolvedOverlay (confOf arg w) o);
                            innerOverlay :=
                              Some (resolvedInner (confOf arg w) (activeCue me) il);
                            cues := cues me; activeCue := activeCue me;
                            settings := confOf arg w;
                            isEnabled := isEnabled me |}) w))
              = confOf arg w) by (destruct arg; reflexivity).
      rewrite Hconf. cbn [cues activeCue isEnabled settings].
      destruct (activeCue (this w)); reflexivity.
    + destruct w as [[o' i' cs ac st en] h tr p n]. simpl in Ho, Hi.
      subst o' i'. destruct arg; reflexivity.
  - destruct w as [[o' i' cs ac st en] h tr p n]. simpl in Hi. subst i'.
    destruct arg; reflexivity.
Qed.





(** ** Track loader: the paths without a request *)

(** [loadTrack] on an instance with its outer node, up to the point where
    it looks for a credential: it has restyled, and goes on with the host
    it found. *)
Lemma loadTrack_until_auth (track : Track) (item : Item)
    (mediaSource : MediaSource) (auth : option Auth) (w : World) :
  isSome (overlay (this w)) = true ->
  exists w5,
    loadTrack track item mediaSource auth w
    = match userAuthOf auth (host w) with
      | None =>
          (Normal tt,
           with_trace (cons (ConsoleError (tag "No auth data found") ArgNone))
                      w5)
      | Some userAuth =>
          let url := subtitleUrl userAuth track item mediaSource in
          (Normal tt,
           with_pending (fun p => (p ++ [formatOf track])%list)
             (with_trace
                (fun tr => AjaxGet url
                           :: ConsoleLog (tag "Fetching subtitles from:")
                                         (ArgText url) :: tr)
                w5))
      end
    /\ requests (trace w5) = requests (trace w)
    /\ pending w5 = pending w
    /\ cues (this w5) = []
    /\ isEnabled (this w5) = true.
Proof.
  intros Ho. unfold loadTrack.
  change (bind (assign (set_cues [])) ?k w)
    with (k tt (with_this (set_cues []) w)).
  cbv beta.
  set (w1 := with_this (set_cues []) w).
  change (bind (assign (set_isEnabled true)) ?k w1)
    with (k tt (with_this (set_isEnabled true) w1)).
  cbv beta.
  set (w2 := with_this (set_isEnabled true) w1).
  destruct (overlay (this w)) as [el|] eqn:E; [clear Ho|discriminate].
  set (w3 := with_this (set_overlay (Some (set_display "flex" el))) w2).
  assert (H3 : onOverlay (set_display "flex") w2 = (Normal tt, w3)).
  { unfold onOverlay. subst w2 w1. simpl. rewrite E. reflexivity. }
  unfold bind at 1. rewrite H3.
  destruct (restyle_step loadSettings w3 restyled_loadSettings
              (loadSettings_completes w3))
    as (w4 & H4 & (((Ho4 & _ & He4) & Hc4 & _ & Hh4) & Hr4 & Hp4)).
  unfold bind at 1. rewrite H4.
  assert (Hov4 : isSome (overlay (this w4)) = true) by (now rewrite Ho4).
  destruct (restyle_step (applyStyles None) w4 (restyled_applyStyles None)
              (applyStyles_completes None w4 Hov4))
    as (w5 & H5 & (((_ & _ & He5) & Hc5 & _ & Hh5) & Hr5 & Hp5)).
  unfold bind at 1. rewrite H5.
  exists w5.
  assert (Hh : host w5 = host w) by (rewrite Hh5, Hh4; reflexivity).
  split; [|repeat split].
  - unfold bind, readHost. simpl. rewrite Hh.
    destruct (userAuthOf auth (host w)); reflexivity.
  - now rewrite Hr5, Hr4.
  - now rewrite Hp5, Hp4.
  - now rewrite Hc5, Hc4.
  - now rewrite He5, He4.
Qed.

(** X12: without a credential, neither passed nor stored, [loadTrack]
    completes without making any request: it reports the missing
    credential, and leaves the instance enabled with an empty cue list. *)
Theorem loadTrack_without_auth (track : Track) (item : Item)
    (mediaSource : MediaSource) (w : World)
    (Hstored : storedAuth (host w) = None)
    (Hsurface : isSome (overlay (this w)) = true) :
  let w1 := after (loadTrack track item mediaSource None) w in
  completes (loadTrack track item mediaSource None) w = true
  /\ requests (trace w1) = requests (trace w)
  /\ pending w1 = pending w
  /\ (exists tr, trace w1
                 = ConsoleError (tag "No auth data found") ArgNone :: tr)
  /\ isEnabled (this w1) = true
  /\ cues (this w1) = [].
Proof.
  cbv zeta.
  destruct (loadTrack_until_auth track item mediaSource None w Hsurface)
    as (w5 & Hrun & Hr & Hp & Hc & He).
  simpl userAuthOf in Hrun. rewrite Hstored in Hrun.
  unfold completes, after. rewrite Hrun. simpl.
  repeat split; try assumption. now exists (trace w5).
Qed.

Lemma loadTrack_without_auth_witness :
  requests (trace (after (loadTrack vttTrack sampleItem sampleSource None)
                         (construct bareHost))) = []
  /\ isEnabled (this (after (loadTrack vttTrack sampleItem sampleSource None)
                            (construct bareHost))) = true.
Proof.
  pose proof (loadTrack_without_auth vttTrack sampleItem sampleSource
                (construct bareHost) eq_refl eq_refl) as H.
  cbv zeta in H. destruct H as (_ & Hr & _ & _ & He & _).
  split; [exact Hr|exact He].
Defined.

(** ** The one call that can throw *)

Lemma loadTrack_completes (track : Track) (item : Item)
    (mediaSource : MediaSource) (auth : option Auth) (w : World) :
  isSome (overlay (this w)) = true ->
  completes (loadTrack track item mediaSource auth) w = true.
Proof.
  intros Ho.
  destruct (loadTrack_until_auth track item mediaSource auth w Ho)
    as (w5 & Hrun & _).
  unfold completes. rewrite Hrun.
  destruct (userAuthOf auth (host w)); reflexivity.
Qed.

Lemma disable_completes (w : World) :
  surfaceTogether w -> completes disable w = true.
Proof.
  unfold surfaceTogether.
  destruct w as [[o i cs ac st en] h tr p n]. simpl.
  destruct o, i; try discriminate; reflexivity.
Qed.

Lemma parseSubtitles_completes (text format : string) (w : World) :
  surfaceTogether w -> completes (parseSubtitles text format) w = true.
Proof.
  intros Hw. unfold parseSubtitles. rewrite completes_assign_bind.
  set (w0 := with_this (set_cues []) w).
  assert (Hw0 : surfaceTogether w0) by exact Hw.
  rewrite completes_bind.
  assert (Hparse : exists w1,
            (if String.eqb format "srt"
             then parseSRT (JsString.replaceCR (JsString.replaceCRLF text))
             else parseVTT (JsString.replaceCR (JsString.replaceCRLF text))) w0
            = (Normal tt, w1) /\ surfaceTogether w1).
  { destruct (String.eqb format "srt"); unfold parseSRT, parseVTT;
      match goal with
      | |- context [pushAll ?ms w0] =>
          exists (after (pushAll ms) w0);
          split; [apply completes_normal, pushAll_completes|];
          destruct (sameShape_pushAll ms w0) as (A & B & _);
          unfold surfaceTogether in *; congruence
      end. }
  destruct Hparse as (w1 & -> & Hw1).
  unfold bind at 1, read at 1. unfold bind at 1, emit at 1.
  unfold bind at 1, read at 1.
  apply applyStyles_completes_together. exact Hw1.
Qed.

Lemma run_completes (c : Call) (w : World) :
  goodState w ->
  completes (run c) w = true
  \/ (exists track item mediaSource auth,
        c = CallLoadTrack track item mediaSource auth)
     /\ overlay (this w) = None.
Proof.
  intros [Ht He].
  destruct c; simpl;
    try (left;
         first [ now apply pushAll_completes
               | now apply loadSettings_completes
               | now apply update_completes
               | now apply applyStyles_completes_together
               | now apply disable_completes
               | now apply parseSubtitles_completes
               | reflexivity ]).
  - left. unfold init, completes, bind, read. simpl.
    destruct (overlay (this w)); reflexivity.
  - destruct (overlay (this w)) as [el|] eqn:E.
    + left. apply loadTrack_completes. now rewrite E.
    + right. split; [eauto|reflexivity].
  - left. unfold completes. now rewrite (destroy_together w Ht).
  - left. unfold completes, respond.
    destruct (nth_error (pending w) i); [|reflexivity].
    unfold onSuccess. unfold bind at 1, emit at 1.
    apply parseSubtitles_completes. exact Ht.
  - left. unfold completes, respond, onError, bind, emit, readHost.
    destruct (nth_error (pending w) i); [|reflexivity]. simpl.
    destruct (debugOverlay (host w)); reflexivity.
Qed.

(** X13: after calls that all completed, the only call that can throw is
    [loadTrack] on a destroyed instance; every other method, and both
    callbacks of a request, complete normally in every such state. *)
Theorem only_reload_after_destroy_throws (h : Host) (cs : list Call)
    (c : Call)
    (Hcs : allComplete cs (construct h) = true)
    (Hthrows : completes (run c) (runAll cs (construct h)) = false) :
  (exists track item mediaSource auth,
     c = CallLoadTrack track item mediaSource auth)
  /\ overlay (this (runAll cs (construct h))) = None.
Proof.
  pose proof (runAll_goodState cs (construct h) (construct_goodState h) Hcs)
    as Hgood.
  destruct (run_completes c _ Hgood) as [Hc|H]; [congruence|exact H].
Qed.

Lemma only_reload_after_destroy_throws_witness :
  allComplete [loadVtt; CallDestroy] (construct bareHost) = true
  /\ completes (run loadVtt) (runAll [loadVtt; CallDestroy] (construct bareHost))
     = false
  /\ overlay (this (runAll [loadVtt; CallDestroy] (construct bareHost))) = None.
Proof.
  split; [reflexivity|]. split; [reflexivity|].
  exact (proj2 (only_reload_after_destroy_throws bareHost
                  [loadVtt; CallDestroy] loadVtt eq_refl eq_refl)).
Defined.

(** X14: on a destroyed instance (no outer node) [loadTrack] throws a
    TypeError before it reads settings or makes a request; the cue list is
    empty and the instance is already marked enabled when it throws. *)
Theorem loadTrack_on_destroyed (track : Track) (item : Item)
    (mediaSource : MediaSource) (auth : option Auth) (w : World)
    (Hnull : overlay (this w) = None) :
  loadTrack track item mediaSource auth w
  = (Throw (TypeError "Cannot read properties of null (reading 'style')"),
     with_this (fun me => set_isEnabled true (set_cues [] me)) w).
Proof.
  unfold loadTrack, bind, assign, onOverlay. simpl. rewrite Hnull.
  reflexivity.
Qed.

Lemma loadTrack_on_destroyed_witness :
  overlay (this (after destroy (construct bareHost))) = None
  /\ completes (loadTrack vttTrack sampleItem sampleSource (Some sampleAuth))
       (after destroy (construct bareHost)) = false.
Proof.
  split; [reflexivity|].
  unfold completes.
  rewrite (loadTrack_on_destroyed vttTrack sampleItem sampleSource
             (Some sampleAuth) (after destroy (construct bareHost)) eq_refl).
  reflexivity.
Defined.

(** ** Stored settings *)

Lemma mergeStored_idempotent (parsed old : Settings) :
  mergeStored parsed (mergeStored parsed old) = mergeStored parsed old.
Proof.
  unfold mergeStored. simpl.
  destruct (truthy (subtitleSize parsed)), (truthy (subtitleColor parsed)),
    (truthy (subtitlePosition parsed)), (truthy (subtitleBackground parsed));
    reflexivity.
Qed.

(** X15: [loadSettings] never throws, whatever the store holds; it changes
    nothing but the settings object and the console; when there is no
    store, no stored value or an unreadable one it leaves the settings as
    they are; and loading twice is loading once. *)
Theorem loadSettings_robust (w : World) :
  completes loadSettings w = true
  /\ restyled w (after loadSettings w)
  /\ overlay (this (after loadSettings w)) = overlay (this w)
  /\ innerOverlay (this (after loadSettings w)) = innerOverlay (this w)
  /\ ((forall parsed, storage (host w) <> Parsed parsed) ->
      settings (this (after loadSettings w)) = settings (this w))
  /\ this (after loadSettings (after loadSettings w))
     = this (after loadSettings w).
Proof.
  split; [apply loadSettings_completes|].
  split; [apply restyled_loadSettings|].
  destruct w as [[o i cs ac st en] [sto sa dbg] tr p n].
  unfold after, loadSettings, tryCatch, bind, readHost, read, assign, emit,
    throw. simpl.
  destruct sto as [| | |parsed]; simpl; repeat split; try reflexivity.
  - intros H. now contradiction (H parsed).
  - now rewrite mergeStored_idempotent.
Qed.

(** ** Settings overlay *)

Lemma findIndexFrom_none (i : Z) (p : SettingsOverlay.Choice -> bool)
    (options : list SettingsOverlay.Choice) :
  Forall (fun o => p o = false) options ->
  SettingsOverlay.findIndexFrom i p options = (-1)%Z.
Proof.
  intros H. revert i. induction H as [|o rest Ho _ IH]; intros i; simpl.
  - reflexivity.
  - rewrite Ho. apply IH.
Qed.

Lemma findIndexFrom_nth (i : Z) (options : list SettingsOverlay.Choice)
    (k : nat) (o : SettingsOverlay.Choice) :
  NoDup (map SettingsOverlay.value options) ->
  nth_error options k = Some o ->
  SettingsOverlay.findIndexFrom i
    (SettingsOverlay.selected (Some (SettingsOverlay.value o))) options
  = (i + Z.of_nat k)%Z.
Proof.
  revert i k. induction options as [|x rest IH]; intros i k Hnd Hk.
  - destruct k; discriminate.
  - simpl in Hnd. inversion Hnd as [|? ? Hx Hrest]; subst.
    destruct k as [|k]; simpl in *.
    + injection Hk as ->. rewrite String.eqb_refl. lia.
    + destruct (String.eqb_spec (SettingsOverlay.value x)
                  (SettingsOverlay.value o)) as [E|_].
      * exfalso. apply Hx. rewrite E. apply in_map.
        eapply nth_error_In; eassumption.
      * rewrite (IH (i + 1)%Z k Hrest Hk). lia.
Qed.

(** X16: in a table without repeated values, [cycleOption] moves from the
    option at position [k] to the one at position [k + 1], and from the
    last one back to the first; it never throws on such a table. *)
Theorem cycleOption_steps (options : list SettingsOverlay.Choice)
    (k : nat) (o next : SettingsOverlay.Choice)
    (Hnodup : NoDup (map SettingsOverlay.value options))
    (Hcur : nth_error options k = Some o)
    (Hnext : nth_error options (S k mod List.length options) = Some next) :
  SettingsOverlay.cycleOption (Some (SettingsOverlay.value o)) options
  = Normal (SettingsOverlay.value next).
Proof.
  unfold SettingsOverlay.cycleOption, SettingsOverlay.findIndex.
  rewrite (findIndexFrom_nth 0 options k o Hnodup Hcur).
  assert (Hlen : k < List.length options)
    by (apply nth_error_Some; congruence).
  destruct (Nat.eqb_spec (List.length options) 0) as [E|E]; [lia|].
  replace (Z.to_nat ((0 + Z.of_nat k + 1) mod Z.of_nat (List.length options)))
    with (S k mod List.length options).
  - now rewrite Hnext.
  - replace (0 + Z.of_nat k + 1)%Z with (Z.of_nat (S k)) by lia.
    rewrite <- Nat2Z.inj_mod. now rewrite Nat2Z.id.
Qed.

Lemma cycleOption_steps_witness :
  SettingsOverlay.cycleOption (Some "xlarge")
    SettingsOverlay.SUBTITLE_SIZE_OPTIONS = Normal "small".
Proof.
  apply (cycleOption_steps SettingsOverlay.SUBTITLE_SIZE_OPTIONS 3
           {| SettingsOverlay.value := "xlarge";
              SettingsOverlay.label := "Extra Large" |}
           {| SettingsOverlay.value := "small";
              SettingsOverlay.label := "Small" |}).
  - repeat constructor; simpl; intuition discriminate.
  - reflexivity.
  - reflexivity.
Defined.

(** X17: when the current setting is no value of the table (unset, or a
    value from elsewhere), [cycleOption] selects the first option and
    [getLabel] shows [Unknown]; on an empty table [cycleOption] throws. *)
Theorem cycleOption_from_unknown (current : option string)
    (first : SettingsOverlay.Choice) (rest : list SettingsOverlay.Choice)
    (Hunknown : Forall (fun o => SettingsOverlay.selected current o = false)
                       (first :: rest)) :
  SettingsOverlay.cycleOption current (first :: rest)
  = Normal (SettingsOverlay.value first)
  /\ SettingsOverlay.getLabel current (first :: rest) = "Unknown"
  /\ SettingsOverlay.cycleOption current []
     = Throw (TypeError "Cannot read properties of undefined (reading 'value')").
Proof.
  split; [|split; [|reflexivity]].
  - unfold SettingsOverlay.cycleOption, SettingsOverlay.findIndex.
    rewrite (findIndexFrom_none 0 _ _ Hunknown).
    change (List.length (first :: rest) =? 0)%nat with false. cbv iota.
    change (-1 + 1)%Z with 0%Z. rewrite Z.mod_0_l by (simpl; lia).
    reflexivity.
  - unfold SettingsOverlay.getLabel.
    assert (Hfind : find (SettingsOverlay.selected current) (first :: rest)
                    = None).
    { induction Hunknown as [|x l Hx _ IH]; simpl; [reflexivity|].
      now rewrite Hx. }
    now rewrite Hfind.
Qed.

Lemma cycleOption_from_unknown_witness :
  SettingsOverlay.cycleOption (Some "extralarge")
    SettingsOverlay.SUBTITLE_SIZE_OPTIONS = Normal "small"
  /\ SettingsOverlay.getLabel (Some "extralarge")
       SettingsOverlay.SUBTITLE_SIZE_OPTIONS = "Unknown".
Proof.
  pose proof (cycleOption_from_unknown (Some "extralarge")
                {| SettingsOverlay.value := "small";
                   SettingsOverlay.label := "Small" |}
                (tl SettingsOverlay.SUBTITLE_SIZE_OPTIONS)
                ltac:(repeat constructor)) as H.
  destruct H as (H1 & H2 & _). split; [exact H1|exact H2].
Defined.

(** X18: whatever the current setting, the value [cycleOption] selects is
    a value of the table, and [getLabel] then shows the label of an option
    with that value, not [Unknown]. *)
Theorem cycleOption_in_table (current : option string)
    (options : list SettingsOverlay.Choice) (v : string)
    (Hcycle : SettingsOverlay.cycleOption current options = Normal v) :
  exists o,
    In o options
    /\ SettingsOverlay.value o = v
    /\ SettingsOverlay.getLabel (Some v) options = SettingsOverlay.label o.
Proof.
  unfold SettingsOverlay.cycleOption in Hcycle.
  destruct (List.length options =? 0)%nat; [discriminate|].
  destruct (nth_error options _) as [o'|] eqn:E; [|discriminate].
  assert (Hv : SettingsOverlay.value o' = v)
    by (exact (f_equal (fun c => match c with
                                 | Normal x => x
                                 | Throw _ => v
                                 end) Hcycle)).
  apply nth_error_In in E.
  unfold SettingsOverlay.getLabel.
  destruct (find (SettingsOverlay.selected (Some v)) options) as [o|] eqn:F.
  - apply find_some in F as [Hin Hsel]. exists o.
    split; [exact Hin|]. split; [|reflexivity].
    simpl in Hsel. now apply String.eqb_eq in Hsel.
  - exfalso. pose proof (find_none _ _ F o' E) as Hno.
    simpl in Hno. rewrite Hv, String.eqb_refl in Hno. discriminate.
Qed.

Lemma cycleOption_in_table_witness :
  exists o,
    In o SettingsOverlay.SUBTITLE_POSITION_OPTIONS
    /\ SettingsOverlay.value o = "lower"
    /\ SettingsOverlay.getLabel (Some "lower")
         SettingsOverlay.SUBTITLE_POSITION_OPTIONS = SettingsOverlay.label o.
Proof.
  exact (cycleOption_in_table (Some "bottom")
           SettingsOverlay.SUBTITLE_POSITION_OPTIONS "lower" eq_refl).
Defined.

(** ** Multi-server manager: reading *)

Lemma countUsers_from (servers : MultiServer.Servers) (count : nat) :
  MultiServer.countUsers servers count
  = count + MultiServer.countUsers servers 0.
Proof.
  revert count. induction servers as [|[k s] rest IH]; intros count; simpl.
  - lia.
  - rewrite (IH (count + _)), (IH (List.length _)). lia.
Qed.

(** X19: the counting functions agree with the listing functions on every
    stored value: the total user count is the number of entries of
    [getAllServersArray] and the sum of the user counts [getUniqueServers]
    reports, the server count is the number of unique servers, and
    [hasServers] holds exactly when there is an entry to list. *)
Theorem counts_agree (stored : MultiServer.StoredServers) :
  MultiServer.getTotalUserCount stored
  = List.length (MultiServer.getAllServersArray stored)
  /\ MultiServer.getTotalUserCount stored
     = reportedUsers (MultiServer.getUniqueServers stored)
  /\ MultiServer.getServerCount stored
     = List.length (MultiServer.getUniqueServers stored)
  /\ (MultiServer.hasServers stored = true
      <-> MultiServer.getAllServersArray stored <> []).
Proof.
  unfold MultiServer.getTotalUserCount, MultiServer.getAllServersArray,
    MultiServer.getUniqueServers, MultiServer.getServerCount,
    MultiServer.hasServers, MultiServer.getTotalUserCount.
  set (servers := MultiServer.getAllServers stored).
  assert (H1 : MultiServer.countUsers servers 0
               = List.length
                   (flat_map
                      (fun '(serverId, server) =>
                         map (fun '(userId, user) =>
                                MultiServer.serverUser serverId server userId
                                  user)
                             (MultiServer.users server)) servers)).
  { induction servers as [|[k s] rest IH]; [reflexivity|].
    simpl. rewrite countUsers_from, IH, length_app, length_map.
    reflexivity. }
  split; [exact H1|]. split; [|split].
  - clear H1. induction servers as [|[k s] rest IH]; [reflexivity|].
    simpl. rewrite countUsers_from, IH. reflexivity.
  - now rewrite length_map.
  - rewrite H1. rewrite Nat.ltb_lt.
    destruct (flat_map _ servers); simpl; split; intros H;
      try lia; congruence.
Qed.

Lemma prop_In {A : Type} (key : string) (v : A) (obj : list (string * A)) :
  NoDup (map fst obj) -> In (key, v) obj -> MultiServer.prop key obj = Some v.
Proof.
  induction obj as [|[k x] rest IH]; intros Hnd Hin; [contradiction|].
  simpl in *. inversion Hnd as [|? ? Hk Hrest]; subst.
  destruct Hin as [[= -> ->]|Hin].
  - now rewrite String.eqb_refl.
  - destruct (String.eqb_spec k key) as [->|_].
    + exfalso. apply Hk. change key with (fst (key, v)). now apply in_map.
    + auto.
Qed.


Lemma listed_entry (stored : MultiServer.StoredServers)
    (e : MultiServer.ServerUser) :
  In e (MultiServer.getAllServersArray stored) <->
  exists serverId server userId user,
    In (serverId, server) (MultiServer.getAllServers stored)
    /\ In (userId, user) (MultiServer.users server)
    /\ e = MultiServer.serverUser serverId server userId user.
Proof.
  unfold MultiServer.getAllServersArray. rewrite in_flat_map. split.
  - intros ([sid s] & Hs & He). apply in_map_iff in He as ([uid u] & <- & Hu).
    now exists sid, s, uid, u.
  - intros (sid & s & uid & u & Hs & Hu & ->). exists (sid, s).
    split; [exact Hs|]. apply in_map_iff. now exists (uid, u).
Qed.

Lemma wellKeyed_users (servers : MultiServer.Servers) (serverId : string)
    (server : MultiServer.Server) :
  wellKeyed servers -> In (serverId, server) servers ->
  NoDup (map fst (MultiServer.users server)).
Proof.
  intros [_ Hall] Hin. rewrite Forall_forall in Hall.
  exact (Hall (serverId, server) Hin).
Qed.

Lemma listed_entry_found (stored : MultiServer.StoredServers)
    (e : MultiServer.ServerUser) :
  wellKeyed (MultiServer.getAllServers stored) ->
  In e (MultiServer.getAllServersArray stored) ->
  MultiServer.su_serverId e <> "" ->
  MultiServer.su_userId e <> "" ->
  MultiServer.getServer stored (MultiServer.su_serverId e)
    (Some (MultiServer.su_userId e))
  = Some (MultiServer.WithUser e)
  /\ MultiServer.getActiveServer (Some (MultiServer.su_serverId e))
       (Some (MultiServer.su_userId e)) stored
     = Some e.
Proof.
  intros Hkeys Hlisted Hsid Huid.
  apply listed_entry in Hlisted as (sid & s & uid & u & Hs & Hu & ->).
  simpl in *.
  pose proof (prop_In sid s _ (proj1 Hkeys) Hs) as Ps.
  pose proof (prop_In uid u _ (wellKeyed_users _ sid s Hkeys Hs) Hu) as Pu.
  unfold MultiServer.getServer, MultiServer.getActiveServer.
  rewrite Ps, Pu.
  destruct sid; [congruence|]. destruct uid; [congruence|].
  split; reflexivity.
Qed.

(** X20: with distinct keys, every entry that [getAllServersArray] lists
    is found again under its server and user identifiers: [getServer]
    returns it, [getActiveServer] returns it when these two are the active
    ones, and [getServerAuth] gives that server's address and that user's
    access token, whatever the active server is. *)
Theorem listed_entry_is_found (stored : MultiServer.StoredServers)
    (e : MultiServer.ServerUser)
    (Hkeys : wellKeyed (MultiServer.getAllServers stored))
    (Hlisted : In e (MultiServer.getAllServersArray stored))
    (Hsid : MultiServer.su_serverId e <> "")
    (Huid : MultiServer.su_userId e <> "") :
  MultiServer.getServer stored (MultiServer.su_serverId e)
    (Some (MultiServer.su_userId e))
  = Some (MultiServer.WithUser e)
  /\ MultiServer.getActiveServer (Some (MultiServer.su_serverId e))
       (Some (MultiServer.su_userId e)) stored
     = Some e
  /\ forall activeServerId activeUserId : option string,
       MultiServer.getServerAuth (Some (MultiServer.su_serverId e))
         (Some (MultiServer.su_userId e)) activeServerId activeUserId stored
       = Some {| MultiServer.sa_serverAddress := MultiServer.su_url e;
                 MultiServer.sa_userId :=
                   MultiServer.VStr (MultiServer.su_userId e);
                 MultiServer.sa_username := MultiServer.su_username e;
                 MultiServer.sa_accessToken := MultiServer.su_accessToken e;
                 MultiServer.sa_serverId :=
                   MultiServer.VStr (MultiServer.su_serverId e);
                 MultiServer.sa_serverName := MultiServer.su_name e |}.
Proof.
  destruct (listed_entry_found stored e Hkeys Hlisted Hsid Huid)
    as [Hget Hact].
  split; [exact Hget|]. split; [exact Hact|].
  intros activeServerId activeUserId.
  unfold MultiServer.getServerAuth.
  destruct (MultiServer.su_serverId e) as [|c1 r1] eqn:E1; [congruence|].
  destruct (MultiServer.su_userId e) as [|c2 r2] eqn:E2; [congruence|].
  simpl JsString.isEmpty. simpl orb. cbv iota.
  rewrite Hget. simpl. unfold MultiServer.idOr. rewrite E1, E2. reflexivity.
Qed.

Lemma listed_entry_is_found_witness :
  MultiServer.getServer twoServers "server_1_home" (Some "u-bob")
  = Some (MultiServer.WithUser
            (MultiServer.serverUser "server_1_home" homeServer "u-bob" bobUser))
  /\ option_map MultiServer.sa_accessToken
       (MultiServer.getServerAuth (Some "server_1_home") (Some "u-bob")
          (Some "server_2_cabin") (Some "u-alice") twoServers)
     = Some (MultiServer.VStr "token-b").
Proof.
  assert (Hkeys : wellKeyed (MultiServer.getAllServers twoServers)).
  { split; repeat constructor; simpl; intuition discriminate. }
  assert (Hin : In (MultiServer.serverUser "server_1_home" homeServer "u-bob"
                      bobUser)
                   (MultiServer.getAllServersArray twoServers))
    by (simpl; tauto).
  destruct (listed_entry_is_found twoServers
              (MultiServer.serverUser "server_1_home" homeServer "u-bob"
                 bobUser)
              Hkeys Hin ltac:(discriminate) ltac:(discriminate))
    as (Hget & _ & Hauth).
  split; [exact Hget|].
  exact (f_equal (option_map MultiServer.sa_accessToken)
           (Hauth (Some "server_2_cabin") (Some "u-alice"))).
Defined.





(** ** The multi-server manager: writing *)

Lemma prop_setProp {A : Type} (key : string) (v : A) (obj : list (string * A)) :
  MultiServer.prop key (MultiServer.setProp key v obj) = Some v.
Proof.
  induction obj as [|[k x] rest IH]; simpl.
  - now rewrite String.eqb_refl.
  - destruct (String.eqb k key) eqn:E; simpl; rewrite E; auto.
Qed.








Section WritingFacts.
Import MultiServer.
Context {storage : Storage}.
Implicit Types d : Device storage.

Lemma load_save (k : Key) (v : Saved k) d :
  load k (save k v d) = saved k v.
Proof. apply get_saved. Qed.

Lemma load_save_other (k k' : Key) (v : Saved k) d :
  k <> k' -> load k' (save k v d) = load k' d.
Proof. apply get_saved_other. Qed.

Lemma load_remove (k : Key) d : load k (remove k d) = absent k.
Proof. apply get_removed. Qed.

Lemma load_remove_other (k k' : Key) d :
  k <> k' -> load k' (remove k d) = load k' d.
Proof. apply get_removed_other. Qed.

Lemma load_consoleLog (k : Key) label args d :
  load k (consoleLog label args d) = load k d.
Proof. reflexivity. Qed.

Lemma load_save_servers (v : Servers) d :
  load SERVERS_KEY (save SERVERS_KEY v d) = ServersObject v.
Proof. apply (load_save SERVERS_KEY). Qed.

Lemma load_save_activeServer (v : string) d :
  load ACTIVE_SERVER_KEY (save ACTIVE_SERVER_KEY v d) = Some v.
Proof. apply (load_save ACTIVE_SERVER_KEY). Qed.

Lemma load_save_activeUser (v : string) d :
  load ACTIVE_USER_KEY (save ACTIVE_USER_KEY v d) = Some v.
Proof. apply (load_save ACTIVE_USER_KEY). Qed.

Ltac stores :=
  repeat first
    [ rewrite load_consoleLog
    | rewrite load_save_servers
    | rewrite load_save_activeServer
    | rewrite load_save_activeUser
    | rewrite load_save_other by discriminate
    | rewrite load_remove
    | rewrite load_remove_other by discriminate ].

(** What [setActiveServer] leaves in the store when it succeeds. *)
Lemma setActiveServer_found (serverId uid now : string) d
    (server : Server) (user : User) :
  prop serverId (getAllServers (load SERVERS_KEY d)) = Some server ->
  prop uid (users server) = Some user ->
  exists d',
    setActiveServer serverId uid now d = (true, d')
    /\ load ACTIVE_SERVER_KEY d' = Some serverId
    /\ load ACTIVE_USER_KEY d' = Some uid
    /\ load SERVERS_KEY d'
       = ServersObject (setProp serverId (touched uid now server)
                                (getAllServers (load SERVERS_KEY d))).
Proof.
  intros Hs Hu. unfold setActiveServer. rewrite Hs, Hu.
  eexists. split; [reflexivity|].
  unfold updateServer. stores. rewrite Hs. cbn [applyUpdates snd].
  stores. unfold touched. rewrite Hu.
  destruct (JsString.isEmpty uid); cbn; auto.
Qed.





Lemma setActiveServer_then_getActiveServer_aux (serverId uid now : string) d
    (server : Server) (user : User) :
  prop serverId (getAllServers (load SERVERS_KEY d)) = Some server ->
  prop uid (users server) = Some user ->
  JsString.isEmpty serverId = false ->
  JsString.isEmpty uid = false ->
  fst (setActiveServer serverId uid now d) = true
  /\ activeServerOf (snd (setActiveServer serverId uid now d))
     = Some (serverUser serverId server uid
               (setUserKey "lastConnected" (VStr now) user)).
Proof.
  intros Hs Hu Es Eu.
  destruct (setActiveServer_found serverId uid now d server user Hs Hu)
    as [d' [Hrun [Has [Hau Hsv]]]].
  rewrite Hrun. split; [reflexivity|]. cbn [snd].
  unfold activeServerOf, getActiveServer. rewrite Has, Hau, Hsv, Es, Eu.
  cbn [orb getAllServers]. rewrite prop_setProp.
  unfold touched. rewrite Hu, Eu. cbn [users withUsers].
  rewrite prop_setProp. reflexivity.
Qed.

(** X23: [setActiveServer] followed by [getActiveServer]: for a stored
    server and user with truthy identifiers the call returns [true], and
    the active server is then that server seen through that user, with
    [lastConnected] at the time of the call and every other property as
    stored. *)
Theorem setActiveServer_then_getActiveServer (serverId uid now : string) d
    (server : Server) (user : User) :
  prop serverId (getAllServers (load SERVERS_KEY d)) = Some server ->
  prop uid (users server) = Some user ->
  JsString.isEmpty serverId = false ->
  JsString.isEmpty uid = false ->
  fst (setActiveServer serverId uid now d) = true
  /\ activeServerOf (snd (setActiveServer serverId uid now d))
     = Some (serverUser serverId server uid
               (setUserKey "lastConnected" (VStr now) user)).
Proof. apply setActiveServer_then_getActiveServer_aux. Qed.





(** *** What an update keeps *)








Lemma isSome_prop_In {A : Type} (key : string) (obj : list (string * A)) :
  isSome (prop key obj) = true <-> In key (map fst obj).
Proof.
  induction obj as [|[k x] rest IH]; simpl.
  - split; [discriminate|contradiction].
  - destruct (String.eqb k key) eqn:E.
    + apply String.eqb_eq in E. simpl. tauto.
    + rewrite IH. apply String.eqb_neq in E. tauto.
Qed.

Lemma prop_keysOf (serverId : string) (servers : Servers) :
  prop serverId (keysOf servers)
  = option_map (fun server => map fst (users server)) (prop serverId servers).
Proof.
  induction servers as [|[k x] rest IH]; simpl; [reflexivity|].
  destruct (String.eqb k serverId); auto.
Qed.

(** [getActiveServer] finds an account exactly when both identifiers are
    stored, truthy and listed. *)
Lemma activeServerOf_listed d :
  activeServerOf d <> None
  <-> exists a u us,
        load ACTIVE_SERVER_KEY d = Some a
        /\ load ACTIVE_USER_KEY d = Some u
        /\ JsString.isEmpty a = false /\ JsString.isEmpty u = false
        /\ prop a (keysOf (getAllServers (load SERVERS_KEY d))) = Some us
        /\ In u us.
Proof.
  unfold activeServerOf, getActiveServer. split.
  - intros H.
    destruct (load ACTIVE_SERVER_KEY d) as [a|]; [|congruence].
    destruct (load ACTIVE_USER_KEY d) as [u|]; [|congruence].
    destruct (JsString.isEmpty a) eqn:Ea; [simpl in H; congruence|].
    destruct (JsString.isEmpty u) eqn:Eu; [simpl in H; congruence|].
    simpl in H.
    destruct (prop a (getAllServers (load SERVERS_KEY d)))
      as [server|] eqn:Hs; [|congruence].
    destruct (prop u (users server)) as [user|] eqn:Hu; [|congruence].
    exists a, u, (map fst (users server)). repeat split; auto.
    + now rewrite prop_keysOf, Hs.
    + apply isSome_prop_In. now rewrite Hu.
  - intros (a & u & us & -> & -> & Ea & Eu & Hk & Hin).
    rewrite Ea, Eu. simpl. rewrite prop_keysOf in Hk.
    destruct (prop a _) as [server|]; [|discriminate]. simpl in Hk.
    injection Hk as <-. apply isSome_prop_In in Hin.
    destruct (prop u (users server)); [discriminate|discriminate Hin].
Qed.





(** *** Removing *)














Lemma hasActive_settled d :
  settled d -> hasActive d = false ->
  load ACTIVE_SERVER_KEY d = None /\ load ACTIVE_USER_KEY d = None.
Proof.
  intros [H|H] Hact; [exact H|].
  apply activeServerOf_listed in H
    as (a & u & us & Ha & Hu & Ea & Eu & _).
  unfold hasActive in Hact. rewrite Ha, Hu in Hact. simpl in Hact.
  rewrite Ea, Eu in Hact. discriminate.
Qed.









End WritingFacts.

Lemma setActiveServer_then_getActiveServer_witness :
  fst (MultiServer.setActiveServer "server_2_cabin" "u-alice"
         "2024-06-01T08:00:00.000Z" (deviceWith twoServers None None)) = true
  /\ MultiServer.activeServerOf
       (snd (MultiServer.setActiveServer "server_2_cabin" "u-alice"
               "2024-06-01T08:00:00.000Z" (deviceWith twoServers None None)))
     = Some (MultiServer.serverUser "server_2_cabin" cabinServer "u-alice"
               (MultiServer.setUserKey "lastConnected"
                  (MultiServer.VStr "2024-06-01T08:00:00.000Z") aliceUser)).
Proof.
  apply (setActiveServer_then_getActiveServer (storage := MultiServer.memory));
    reflexivity.
Defined.





